(** * subpub: an in-memory publisher / subscriber bus

    A shallow embedding of [subpub/subpub.go].  The bus is concurrent, so the
    embedding is an interleaving semantics: every goroutine of the program
    (callers of [Subscribe], [Publish], [Unsubscribe] and [Close], the worker
    of each subscription, the detached sender that [enqueue] spawns when a
    queue is full, the waiter that [Close] spawns) advances by atomic steps,
    and a schedule is a list of step labels.

    Granularity.  A critical section of [sp.mu] is one step.  The body of
    [s.once.Do] in [unsubscribe] is two steps (the registry update under
    [sp.mu], then [close(s.ch)]).  [Publish] is one step for the check and the
    copy of the subscriber slice, then one step per [sub.enqueue].  In
    [enqueue] the acquisition of [sendMu] and the [select] are one step taken
    when the lock is free: nothing but another [enqueue] of the same
    subscription depends on [sendMu], and that one is waiting.  In the
    detached sender the blocking send and the deferred unlock are one step for
    the same reason.

    Handlers are the caller's code and the bus knows nothing of them: once
    the worker has called one, it returns ([LHandlerRet]), or panics
    ([LHandlerPanic], which a nil handler does), or does neither for as long
    as the schedule leaves it alone. *)

From stdpp Require Import gmap strings list fin_maps.

Set Default Proof Using "Type".

(** ** Data *)

(** [msg interface{}]: the bus never inspects a payload. *)
Definition Msg : Type := nat.

(** A queued message carries the number of the [Publish] call it comes from;
    the tag is bookkeeping of the model and no step ever branches on it. *)
Definition tmsg : Type := nat * Msg.

(** [ErrClosed], and the error of a context that is done ([ctx.Err()]). *)
Inductive error := ErrClosed | ErrCtx.

(** [make(chan interface{}, 64)] *)
Definition capacity : nat := 64.

(** [sync.Once]: not started, body running (in the goroutine of [Close] or in
    a caller of [Unsubscribe]), done. *)
Inductive once_state := OnceIdle | OnceRunning (by_close : bool) | OnceDone.

(** The worker goroutine: at the receive of [for msg := range s.ch], inside
    [s.cb(msg)], or gone (after the deferred [wg.Done]). *)
Inductive worker_state := WRecv | WHandler | WExited.

(** [type subscription struct].  [parent] is the one bus of the model.  The
    goroutines a subscription owns are kept with it: its worker, and the
    detached sender of [enqueue] (at most one, it holds [sendMu]).
    [cb] names the handler the caller passed, whatever it is: [Subscribe]
    stores it unread, and nil is one of the values.
    [sent], [calls] and [dropped] are logs: messages that passed [sendMu] in
    [enqueue], messages [cb] was called with, and messages whose blocked send
    ended in the recovered panic. *)
Record subscription := Subscription {
  subject : string;
  ch : list tmsg;
  ch_closed : bool;
  cb : nat;
  once : once_state;
  sendMu : bool;
  worker : worker_state;
  sender : option tmsg;
  sent : list tmsg;
  calls : list tmsg;
  dropped : list tmsg;
}.

(** A call of [Publish] past its check: [p_copy] is what is left of
    [subsCopy], [p_ret] says that the call has returned nil; [p_snapshot] keeps
    the whole copy. *)
Record publish_call := PublishCall {
  p_subject : string;
  p_msg : Msg;
  p_copy : list nat;
  p_ret : bool;
  p_snapshot : list nat;
}.

(** The call of [Close] that found the bus open: in the loop over [toClose],
    in the final [select] (with [done] closed or not), returned. *)
Inductive close_pc :=
  | CUnsub (toClose : list nat)
  | CSelect (done : bool)
  | CRet (r : option error).

Record close_call := CloseCall {
  c_pc : close_pc;
  c_ctx_done : bool;
  c_captured : list nat;
}.

(** [type subPub struct], the subscriptions allocated so far (a [*subscription]
    is an index of [heap]), the calls in flight, and whether an unrecovered
    panic has killed the process.  A nil map reads as the empty map. *)
Record state := State {
  subs : gmap string (list nat);
  closed : bool;
  wg : nat;
  heap : list subscription;
  pubs : list publish_call;
  closer : option close_call;
  panicked : bool;
}.

(** [NewSubPub] *)
Definition NewSubPub : state :=
  State ∅ false 0 [] [] None false.

(** ** Field updates *)

Definition set_ch (v : list tmsg) (x : subscription) : subscription :=
  Subscription (subject x) v (ch_closed x) (cb x) (once x) (sendMu x)
    (worker x) (sender x) (sent x) (calls x) (dropped x).
Definition set_ch_closed (v : bool) (x : subscription) : subscription :=
  Subscription (subject x) (ch x) v (cb x) (once x) (sendMu x)
    (worker x) (sender x) (sent x) (calls x) (dropped x).
Definition set_once (v : once_state) (x : subscription) : subscription :=
  Subscription (subject x) (ch x) (ch_closed x) (cb x) v (sendMu x)
    (worker x) (sender x) (sent x) (calls x) (dropped x).
Definition set_sendMu (v : bool) (x : subscription) : subscription :=
  Subscription (subject x) (ch x) (ch_closed x) (cb x) (once x) v
    (worker x) (sender x) (sent x) (calls x) (dropped x).
Definition set_worker (v : worker_state) (x : subscription) : subscription :=
  Subscription (subject x) (ch x) (ch_closed x) (cb x) (once x) (sendMu x)
    v (sender x) (sent x) (calls x) (dropped x).
Definition set_sender (v : option tmsg) (x : subscription) : subscription :=
  Subscription (subject x) (ch x) (ch_closed x) (cb x) (once x) (sendMu x)
    (worker x) v (sent x) (calls x) (dropped x).
Definition set_sent (v : list tmsg) (x : subscription) : subscription :=
  Subscription (subject x) (ch x) (ch_closed x) (cb x) (once x) (sendMu x)
    (worker x) (sender x) v (calls x) (dropped x).
Definition set_calls (v : list tmsg) (x : subscription) : subscription :=
  Subscription (subject x) (ch x) (ch_closed x) (cb x) (once x) (sendMu x)
    (worker x) (sender x) (sent x) v (dropped x).
Definition set_dropped (v : list tmsg) (x : subscription) : subscription :=
  Subscription (subject x) (ch x) (ch_closed x) (cb x) (once x) (sendMu x)
    (worker x) (sender x) (sent x) (calls x) v.

Definition set_subs (v : gmap string (list nat)) (σ : state) : state :=
  State v (closed σ) (wg σ) (heap σ) (pubs σ) (closer σ) (panicked σ).
Definition set_closed (v : bool) (σ : state) : state :=
  State (subs σ) v (wg σ) (heap σ) (pubs σ) (closer σ) (panicked σ).
Definition set_wg (v : nat) (σ : state) : state :=
  State (subs σ) (closed σ) v (heap σ) (pubs σ) (closer σ) (panicked σ).
Definition set_heap (v : list subscription) (σ : state) : state :=
  State (subs σ) (closed σ) (wg σ) v (pubs σ) (closer σ) (panicked σ).
Definition set_pubs (v : list publish_call) (σ : state) : state :=
  State (subs σ) (closed σ) (wg σ) (heap σ) v (closer σ) (panicked σ).
Definition set_closer (v : option close_call) (σ : state) : state :=
  State (subs σ) (closed σ) (wg σ) (heap σ) (pubs σ) v (panicked σ).
Definition set_panicked (v : bool) (σ : state) : state :=
  State (subs σ) (closed σ) (wg σ) (heap σ) (pubs σ) (closer σ) v.

(** Write of the subscription object at address [s]. *)
Definition store (s : nat) (x : subscription) (σ : state) : state :=
  set_heap (<[s:=x]> (heap σ)) σ.

Definition set_copy (v : list nat) (c : publish_call) : publish_call :=
  PublishCall (p_subject c) (p_msg c) v (p_ret c) (p_snapshot c).
Definition set_ret (v : bool) (c : publish_call) : publish_call :=
  PublishCall (p_subject c) (p_msg c) (p_copy c) v (p_snapshot c).
Definition store_pub (p : nat) (c : publish_call) (σ : state) : state :=
  set_pubs (<[p:=c]> (pubs σ)) σ.

Definition set_pc (v : close_pc) (c : close_call) : close_call :=
  CloseCall v (c_ctx_done c) (c_captured c).
Definition set_ctx_done (v : bool) (c : close_call) : close_call :=
  CloseCall (c_pc c) v (c_captured c).

(** ** The operations of a subscription *)

(** [sp.subs[subject]]: a missing key reads as the nil slice. *)
Definition subscribers (subj : string) (m : gmap string (list nat)) : list nat :=
  default [] (m !! subj).

(** The loop of [unsubscribe] over [list]: at the first [i] with
    [list[i] == s], [list[i] = list[len(list)-1]] and
    [list = list[:len(list)-1]]. *)
Definition swap_remove (s : nat) (l : list nat) : list nat :=
  match list_find (λ v, v = s) l, last l with
  | Some (i, _), Some z => take (length l - 1) (<[i:=z]> l)
  | _, _ => l
  end.

(** Step 1 of [unsubscribe], under [sp.mu]. *)
Definition remove_from_registry (s : nat) (subj : string)
    (m : gmap string (list nat)) : gmap string (list nat) :=
  match m !! subj with
  | Some l =>
      let l' := swap_remove s l in
      if decide (length l' = 0) then delete subj m else <[subj:=l']> m
  | None => m
  end.

(** Step 2 of [unsubscribe]: [close(s.ch)], after which [once.Do] is over. *)
Definition close_queue (x : subscription) : subscription :=
  set_once OnceDone (set_ch_closed true x).

(** [enqueue], from [s.sendMu.Lock()] to its return.  The [select] sends on
    [s.ch]: a send on a closed channel panics, also inside a [select] with a
    [default]; the [default] branch is taken when the buffer is full, and the
    goroutine it starts keeps [sendMu]. *)
Inductive enqueue_result :=
  | EnqWait
  | EnqPanic
  | EnqDone (x' : subscription).

Definition enqueue (t : tmsg) (x : subscription) : enqueue_result :=
  if sendMu x then EnqWait
  else if ch_closed x then EnqPanic
  else if decide (length (ch x) < capacity)
  then EnqDone (set_sent (sent x ++ [t]) (set_ch (ch x ++ [t]) x))
  else EnqDone (set_sent (sent x ++ [t])
                  (set_sender (Some t) (set_sendMu true x))).

(** The goroutine started by [enqueue]: [s.ch <- msg] with the deferred
    [recover] and [s.sendMu.Unlock()].  It waits while the buffer is full and
    the channel open; on a closed channel the send panics, [recover] swallows
    the panic and the message is gone. *)
Definition blocked_send (x : subscription) : option subscription :=
  match sender x with
  | None => None
  | Some t =>
      if ch_closed x
      then Some (set_dropped (dropped x ++ [t])
                   (set_sender None (set_sendMu false x)))
      else if decide (length (ch x) < capacity)
      then Some (set_ch (ch x ++ [t]) (set_sender None (set_sendMu false x)))
      else None
  end.

(** [worker]: one turn of [for msg := range s.ch { s.cb(msg) }] up to the call
    of [cb], or the end of the loop (channel closed and drained) followed by
    the deferred [wg.Done()]; the boolean tells which. *)
Definition worker_recv (x : subscription) : option (subscription * bool) :=
  match worker x with
  | WRecv =>
      match ch x with
      | t :: rest =>
          Some (set_calls (calls x ++ [t])
                  (set_worker WHandler (set_ch rest x)), false)
      | [] => if ch_closed x then Some (set_worker WExited x, true) else None
      end
  | _ => None
  end.

(** [s.cb(msg)] returns. *)
Definition handler_return (x : subscription) : option subscription :=
  match worker x with
  | WHandler => Some (set_worker WRecv x)
  | _ => None
  end.

(** [s.cb(msg)] does not return but panics: [cb] is nil, or the handler
    itself panics.  [worker] calls it outside any [recover]. *)
Definition handler_panic (x : subscription) : bool :=
  match worker x with
  | WHandler => true
  | _ => false
  end.

(** ** The operations of the bus *)

(** What a call hands back to its caller. *)
Inductive event :=
  | EvSubscribe (r : nat + error)
  | EvPublish (r : nat + error)
  | EvUnsubscribe (s : nat)
  | EvClose (r : option error).

(** [&subscription{...}] with [make(chan interface{}, 64)], and its worker
    about to receive. *)
Definition new_subscription (subj : string) (h : nat) : subscription :=
  Subscription subj [] false h OnceIdle false WRecv None [] [] [].

(** [Subscribe], a critical section of [sp.mu]: the new subscription is
    appended to the slice of its subject, [wg.Add(1)], and the worker starts. *)
Definition Subscribe (subj : string) (h : nat) (σ : state)
    : state * list event :=
  if closed σ then (σ, [EvSubscribe (inr ErrClosed)])
  else
    let s := length (heap σ) in
    (State (<[subj := subscribers subj (subs σ) ++ [s]]> (subs σ)) (closed σ)
       (S (wg σ)) (heap σ ++ [new_subscription subj h]) (pubs σ) (closer σ)
       (panicked σ),
     [EvSubscribe (inl s)]).

(** [Publish] up to [sp.mu.RUnlock()]: the check of [closed] and the copy of
    the slice of the subject. *)
Definition Publish_copy (subj : string) (m : Msg) (σ : state)
    : state * list event :=
  if closed σ then (σ, [EvPublish (inr ErrClosed)])
  else
    let l := subscribers subj (subs σ) in
    (set_pubs (pubs σ ++ [PublishCall subj m l false l]) σ, []).

(** One turn of [for _, sub := range subsCopy { sub.enqueue(msg) }] in call
    [p].  The panic of [enqueue] is not recovered: the process dies. *)
Definition Publish_enqueue (p : nat) (σ : state) : option state :=
  c ← pubs σ !! p;
  match p_copy c with
  | [] => None
  | s :: rest =>
      x ← heap σ !! s;
      match enqueue (p, p_msg c) x with
      | EnqWait => None
      | EnqPanic => Some (set_panicked true σ)
      | EnqDone x' => Some (store_pub p (set_copy rest c) (store s x' σ))
      end
  end.

(** [return nil] of [Publish], after the loop. *)
Definition Publish_return (p : nat) (σ : state) : option (state * list event) :=
  c ← pubs σ !! p;
  match p_copy c, p_ret c with
  | [], false => Some (store_pub p (set_ret true c) σ, [EvPublish (inl p)])
  | _, _ => None
  end.

(** A call of [Unsubscribe] entering [s.once.Do]: it runs step 1 of the body
    if it is the first, waits while the body runs elsewhere, and returns at
    once when the body is over. *)
Definition Unsubscribe_enter (s : nat) (σ : state)
    : option (state * list event) :=
  x ← heap σ !! s;
  match once x with
  | OnceIdle =>
      Some (set_subs (remove_from_registry s (subject x) (subs σ))
              (store s (set_once (OnceRunning false) x) σ), [])
  | OnceRunning _ => None
  | OnceDone => Some (σ, [EvUnsubscribe s])
  end.

(** The caller of [Unsubscribe] that runs the body closes the channel and
    returns. *)
Definition Unsubscribe_close (s : nat) (σ : state)
    : option (state * list event) :=
  x ← heap σ !! s;
  match once x with
  | OnceRunning false => Some (store s (close_queue x) σ, [EvUnsubscribe s])
  | _ => None
  end.

(** The detached sender of subscription [s] gets through. *)
Definition Sender_step (s : nat) (σ : state) : option state :=
  x ← heap σ !! s;
  x' ← blocked_send x;
  Some (store s x' σ).

(** The worker of subscription [s] receives, or leaves and [wg.Done()]
    (which finds the counter positive, see [wg_positive]). *)
Definition Worker_step (s : nat) (σ : state) : option state :=
  x ← heap σ !! s;
  match worker_recv x with
  | Some (x', true) => Some (set_wg (wg σ - 1) (store s x' σ))
  | Some (x', false) => Some (store s x' σ)
  | None => None
  end.

(** The handler of subscription [s] returns to the worker. *)
Definition Handler_step (s : nat) (σ : state) : option state :=
  x ← heap σ !! s;
  x' ← handler_return x;
  Some (store s x' σ).

(** The handler of subscription [s] panics in the goroutine of the worker:
    the process dies, like on the panic of [enqueue]. *)
Definition Handler_panic (s : nat) (σ : state) : option state :=
  x ← heap σ !! s;
  if handler_panic x then Some (set_panicked true σ) else None.

(** [Close] up to [sp.mu.Unlock()].  On a closed bus it returns [ErrClosed].
    Otherwise it sets [closed], collects the subscriptions of all subjects
    and drops the map; [keys] is the order in which [range sp.subs] visits the
    subjects, which the Go runtime chooses. *)
Definition Close_enter (keys : list string) (σ : state)
    : option (state * list event) :=
  if closed σ then Some (σ, [EvClose (Some ErrClosed)])
  else if decide (keys ≡ₚ (map_to_list (subs σ)).*1) then
    let toClose := keys ≫= (λ k, subscribers k (subs σ)) in
    Some (State ∅ true (wg σ) (heap σ) (pubs σ)
            (Some (CloseCall (CUnsub toClose) false toClose)) (panicked σ), [])
  else None.

(** One step of [for _, sub := range toClose { sub.unsubscribe() }]: the call
    enters [once.Do] of the next subscription and runs step 1, or finishes the
    body it runs, or waits for a caller of [Unsubscribe] that runs it, or goes
    on when the body is over.  After the loop it starts the goroutine that
    waits for [wg] and reaches the [select]. *)
Definition Close_step (σ : state) : option state :=
  c ← closer σ;
  match c_pc c with
  | CUnsub [] => Some (set_closer (Some (set_pc (CSelect false) c)) σ)
  | CUnsub (s :: rest) =>
      x ← heap σ !! s;
      match once x with
      | OnceIdle =>
          Some (set_subs (remove_from_registry s (subject x) (subs σ))
                  (store s (set_once (OnceRunning true) x) σ))
      | OnceRunning true =>
          Some (set_closer (Some (set_pc (CUnsub rest) c))
                  (store s (close_queue x) σ))
      | OnceRunning false => None
      | OnceDone => Some (set_closer (Some (set_pc (CUnsub rest) c)) σ)
      end
  | _ => None
  end.

(** [sp.wg.Wait()] returns in the goroutine of [Close], which closes [done]. *)
Definition Waiter_step (σ : state) : option state :=
  c ← closer σ;
  match c_pc c with
  | CSelect false =>
      if decide (wg σ = 0)
      then Some (set_closer (Some (set_pc (CSelect true) c)) σ) else None
  | _ => None
  end.

(** The context given to [Close] is cancelled or its deadline passes. *)
Definition Ctx_step (σ : state) : option state :=
  c ← closer σ;
  Some (set_closer (Some (set_ctx_done true c)) σ).

(** The final [select] of [Close] takes a case that is ready: [<-done] when
    [pick_done], [<-ctx.Done()] otherwise. *)
Definition Close_select (pick_done : bool) (σ : state)
    : option (state * list event) :=
  c ← closer σ;
  match c_pc c with
  | CSelect d =>
      if pick_done
      then if d then Some (set_closer (Some (set_pc (CRet None) c)) σ,
                           [EvClose None]) else None
      else if c_ctx_done c
           then Some (set_closer (Some (set_pc (CRet (Some ErrCtx)) c)) σ,
                      [EvClose (Some ErrCtx)]) else None
  | _ => None
  end.

(** ** Schedules *)

Inductive label :=
  | LSubscribe (subj : string) (h : nat)
  | LPublish (subj : string) (m : Msg)
  | LEnqueue (p : nat)
  | LPublishRet (p : nat)
  | LSender (s : nat)
  | LWorker (s : nat)
  | LHandlerRet (s : nat)
  | LUnsubscribe (s : nat)
  | LUnsubClose (s : nat)
  | LClose (keys : list string)
  | LCloseStep
  | LWaiter
  | LCtxDone
  | LCloseSelect (pick_done : bool)
  | LHandlerPanic (s : nat).

Definition quiet (o : option state) : option (state * list event) :=
  σ' ← o; Some (σ', []).

(** One step of the program; [None] when the goroutine named by the label
    does not exist or cannot move.  Nothing runs after a panic. *)
Definition step (l : label) (σ : state) : option (state * list event) :=
  if panicked σ then None
  else match l with
  | LSubscribe subj h => Some (Subscribe subj h σ)
  | LPublish subj m => Some (Publish_copy subj m σ)
  | LEnqueue p => quiet (Publish_enqueue p σ)
  | LPublishRet p => Publish_return p σ
  | LSender s => quiet (Sender_step s σ)
  | LWorker s => quiet (Worker_step s σ)
  | LHandlerRet s => quiet (Handler_step s σ)
  | LUnsubscribe s => Unsubscribe_enter s σ
  | LUnsubClose s => Unsubscribe_close s σ
  | LClose keys => Close_enter keys σ
  | LCloseStep => quiet (Close_step σ)
  | LWaiter => quiet (Waiter_step σ)
  | LCtxDone => quiet (Ctx_step σ)
  | LCloseSelect b => Close_select b σ
  | LHandlerPanic s => quiet (Handler_panic s σ)
  end.

(** A schedule run from [σ]: the state reached and what the calls returned. *)
Fixpoint run (ls : list label) (σ : state) : option (state * list event) :=
  match ls with
  | [] => Some (σ, [])
  | l :: ls' =>
      match step l σ with
      | Some (σ1, evs1) =>
          match run ls' σ1 with
          | Some (σ2, evs2) => Some (σ2, evs1 ++ evs2)
          | None => None
          end
      | None => None
      end
  end.

Definition reachable (σ : state) : Prop :=
  ∃ ls evs, run ls NewSubPub = Some (σ, evs).

(** * Invariants *)

(** What holds of every subscription object: the channel is closed exactly
    when [once] is over; [sendMu] is held exactly while a detached sender
    exists; a worker that is gone has left a closed, empty channel; the buffer
    never exceeds its capacity; every message that passed [sendMu] is, in
    order, delivered, buffered, held by the detached sender or dropped; at
    most one message is held or dropped, and a drop needs a closed channel. *)
Record sub_ok (x : subscription) : Prop := SubOk {
  ok_closed : ch_closed x = true ↔ once x = OnceDone;
  ok_sendMu : sendMu x = true ↔ is_Some (sender x);
  ok_exited : worker x = WExited → ch x = [] ∧ ch_closed x = true;
  ok_cap : length (ch x) ≤ capacity;
  ok_sent : sent x = calls x ++ ch x ++ option_list (sender x) ++ dropped x;
  ok_one : length (option_list (sender x) ++ dropped x) ≤ 1;
  ok_dropped : dropped x ≠ [] → ch_closed x = true;
}.

(** The moves of one subscription object. *)
Inductive sub_move (x : subscription) : subscription → Prop :=
  | MoveEnqueue t x' : enqueue t x = EnqDone x' → sub_move x x'
  | MoveSend x' : blocked_send x = Some x' → sub_move x x'
  | MoveRecv x' b : worker_recv x = Some (x', b) → sub_move x x'
  | MoveHandler x' : handler_return x = Some x' → sub_move x x'
  | MoveOnce b : once x = OnceIdle → sub_move x (set_once (OnceRunning b) x)
  | MoveClose b : once x = OnceRunning b → sub_move x (close_queue x).

(** The registry and the heap agree: a registered subscription is listed
    once, under its own subject, and [once] has not started for it; no slice
    of the map is empty; while the bus is open every subscription whose [once]
    has not started is registered; the bus is closed exactly when a call of
    [Close] got through, and then the map is empty. *)
Record bus_ok (σ : state) : Prop := BusOk {
  bus_nodup : ∀ subj, NoDup (subscribers subj (subs σ));
  bus_reg : ∀ subj s, s ∈ subscribers subj (subs σ) →
    subject <$> heap σ !! s = Some subj ∧
    once <$> heap σ !! s = Some OnceIdle;
  bus_nonempty : ∀ subj l, subs σ !! subj = Some l → l ≠ [];
  bus_idle : closed σ = false →
    ∀ s, once <$> heap σ !! s = Some OnceIdle →
         ∃ subj, subject <$> heap σ !! s = Some subj ∧
                 s ∈ subscribers subj (subs σ);
  bus_closed : closed σ = true ↔ is_Some (closer σ);
  bus_nil : closed σ = true → subs σ = ∅;
}.

(** The workers that have not left. *)
Definition live (x : subscription) : nat :=
  match worker x with WExited => 0 | _ => 1 end.

Definition live_workers (h : list subscription) : nat :=
  sum_list_with live h.

Definition todo (pc : close_pc) : list nat :=
  match pc with CUnsub l => l | _ => [] end.

(** What holds of the call of [Close] that got through: the subscriptions it
    collected and has left behind in its loop are unsubscribed; a subscription
    whose [once] has not started is still ahead in the loop; [done] is closed
    only when no worker is left; the call returns an error only when the
    context is done.  The counter of [wg] is the number of workers that have
    not left. *)
Record close_ok (σ : state) : Prop := CloseOk {
  cl_captured : ∀ c, closer σ = Some c →
    ∃ past, c_captured c = past ++ todo (c_pc c) ∧
            ∀ s, s ∈ past → once <$> heap σ !! s = Some OnceDone;
  cl_idle : ∀ c, closer σ = Some c →
    ∀ s, once <$> heap σ !! s = Some OnceIdle → s ∈ todo (c_pc c);
  cl_done : ∀ c, closer σ = Some c →
    c_pc c = CSelect true ∨ c_pc c = CRet None → wg σ = 0;
  cl_err : ∀ c e, closer σ = Some c → c_pc c = CRet (Some e) →
    e = ErrCtx ∧ c_ctx_done c = true;
  cl_wg : wg σ = live_workers (heap σ);
}.

(** What holds of the calls of [Publish]: the part of the copy that a call
    has gone through has the message in its [sent] log; a copy lists no
    subscription twice and only subscriptions of the subject; a call that
    returned has gone through all of its copy.  And of the [sent] logs: an
    entry comes from a call that had the subscription in its copy and is past
    it, and no call has two entries in a log. *)
Record pubs_ok (σ : state) : Prop := PubsOk {
  pub_split : ∀ p c, pubs σ !! p = Some c →
    ∃ past, p_snapshot c = past ++ p_copy c ∧
            ∀ s, s ∈ past → ∃ l, sent <$> heap σ !! s = Some l ∧
                                 (p, p_msg c) ∈ l;
  pub_nodup : ∀ p c, pubs σ !! p = Some c → NoDup (p_snapshot c);
  pub_ret : ∀ p c, pubs σ !! p = Some c → p_ret c = true → p_copy c = [];
  pub_subj : ∀ p c s, pubs σ !! p = Some c → s ∈ p_snapshot c →
    subject <$> heap σ !! s = Some (p_subject c);
  sent_from : ∀ s l q m, sent <$> heap σ !! s = Some l → (q, m) ∈ l →
    ∃ c, pubs σ !! q = Some c ∧ m = p_msg c ∧ s ∈ p_snapshot c ∧
         s ∉ p_copy c;
  sent_nodup : ∀ s l, sent <$> heap σ !! s = Some l → NoDup l.*1;
}.

(** * What never goes back, and what a returned call leaves behind *)

(** The order in which a subscription object evolves: its subject and
    handler are fixed, its logs only grow at the end, and [once], the closed
    channel and the exit of the worker are final. *)
Record sub_le (x x' : subscription) : Prop := SubLe {
  le_subject : subject x' = subject x;
  le_cb : cb x' = cb x;
  le_sent : sent x `prefix_of` sent x';
  le_calls : calls x `prefix_of` calls x';
  le_started : once x ≠ OnceIdle → once x' ≠ OnceIdle;
  le_done : once x = OnceDone → once x' = OnceDone;
  le_closed : ch_closed x = true → ch_closed x' = true;
  le_exited : worker x = WExited → worker x' = WExited;
}.

(** The same for a call of [Publish]: what it publishes and its copy are
    fixed, the loop only consumes the copy, and a return is final. *)
Record pub_le (c c' : publish_call) : Prop := PubLe {
  ple_subject : p_subject c' = p_subject c;
  ple_msg : p_msg c' = p_msg c;
  ple_snapshot : p_snapshot c' = p_snapshot c;
  ple_copy : p_copy c' `suffix_of` p_copy c;
  ple_ret : p_ret c = true → p_ret c' = true;
}.

(** The trace of a call in the state, once it has returned: a returned
    [Close] has set [closed], and the call that got through sits at its
    return with its result; a [Publish] that returned nil is marked so; after
    a returned [Unsubscribe] the [once] of the subscription is over. *)
Definition established (ev : event) (σ : state) : Prop :=
  match ev with
  | EvClose r =>
      closed σ = true ∧
      (r ≠ Some ErrClosed → ∃ c, closer σ = Some c ∧ c_pc c = CRet r)
  | EvPublish (inl p) => ∃ c, pubs σ !! p = Some c ∧ p_ret c = true
  | EvUnsubscribe s => once <$> heap σ !! s = Some OnceDone
  | _ => True
  end.

(** * Statements about schedules *)

(** The state and the returns at the end of a schedule that runs. *)
Definition state_after (ls : list label) (σ : state) : state :=
  match run ls σ with Some (σ', _) => σ' | None => σ end.

Definition returns_of (ls : list label) (σ : state) : list event :=
  match run ls σ with Some (_, evs) => evs | None => [] end.

(** One call of [Publish] on a subject, run without interruption: the copy,
    an [enqueue] for each of the [n] subscribers, the return. *)
Definition publish_now (subj : string) (n p : nat) : list label :=
  LPublish subj p :: replicate n (LEnqueue p) ++ [LPublishRet p].

(** C3 as it is stated: whenever [Close] returns nil, the message of every
    call of [Publish] that returned nil before [Close] was called has been
    handed to the handler of every subscription in the copy of that call. *)
Definition close_drains_all : Prop :=
  ∀ ls1 ls2 σ1 σ2 e1 e2 p c s,
    run ls1 NewSubPub = Some (σ1, e1) → closed σ1 = false →
    EvPublish (inl p) ∈ e1 → pubs σ1 !! p = Some c → s ∈ p_snapshot c →
    run ls2 σ1 = Some (σ2, e2) → EvClose None ∈ e2 →
    ∃ x, heap σ2 !! s = Some x ∧ (p, p_msg c) ∈ calls x.

(** C9 as it is stated, for the return of [Publish]: while the handler of
    some subscription is running, every call of [Publish] in flight can
    return without that handler returning. *)
Definition handler_never_delays_publish : Prop :=
  ∀ ls σ evs s x p c,
    run ls NewSubPub = Some (σ, evs) → panicked σ = false →
    heap σ !! s = Some x → worker x = WHandler →
    pubs σ !! p = Some c → p_ret c = false →
    ∃ ls' σ' evs' c',
      (LHandlerRet s ∉ ls') ∧ run ls' σ = Some (σ', evs') ∧
      pubs σ' !! p = Some c' ∧ p_ret c' = true.

(** Call [p] of [Publish] has subscription [s] next in its copy, the handler
    of [s] is running, and [s] either has its queue closed or has its buffer
    full with [sendMu] held by the detached sender. *)
Definition stuck_on (p s : nat) (σ : state) : Prop :=
  reachable σ ∧
  (∃ c rest, pubs σ !! p = Some c ∧ p_ret c = false ∧ p_copy c = s :: rest) ∧
  ∃ x, heap σ !! s = Some x ∧ worker x = WHandler ∧
       (ch_closed x = true ∨ (sendMu x = true ∧ length (ch x) = capacity)).

(** * The schedules of the examples *)

Definition after_close_state : state :=
  state_after [LSubscribe "a" 1; LSubscribe "b" 2; LPublish "a" 5;
               LClose ["a"; "b"]; LCloseStep] NewSubPub.

Definition after_close_schedule : list label :=
  [LSubscribe "c" 3; LPublish "a" 6; LEnqueue 0; LCloseStep; LUnsubscribe 1;
   LClose []; LUnsubClose 1; LWorker 0; LCloseStep].

Definition post_close_schedule : list label :=
  [LSubscribe "a" 1; LPublish "a" 5; LEnqueue 0; LPublishRet 0;
   LClose ["a"]; LCtxDone; LCloseStep; LCloseStep; LCloseStep;
   LCloseSelect false].

Definition unsubscribe_schedule : list label :=
  [LSubscribe "a" 1; LSubscribe "a" 2; LSubscribe "b" 3; LPublish "a" 5;
   LEnqueue 0; LEnqueue 0].

Definition close_schedule : list label :=
  [LSubscribe "a" 1; LSubscribe "b" 2; LPublish "a" 5; LEnqueue 0;
   LPublishRet 0; LUnsubscribe 1; LClose ["a"]; LCloseStep; LUnsubClose 1;
   LWorker 1; LCloseStep; LCloseStep; LWorker 0; LHandlerRet 0; LWorker 0;
   LWaiter].

Definition finality_before : list label :=
  [LSubscribe "topic" 1; LPublish "topic" 1; LEnqueue 0; LPublishRet 0;
   LUnsubscribe 0; LUnsubClose 0].

Definition finality_after : list label :=
  [LPublish "topic" 2; LPublishRet 1; LWorker 0; LHandlerRet 0; LWorker 0].

Definition fifo_before : list label :=
  [LSubscribe "topic" 1; LSubscribe "topic" 2] ++ publish_now "topic" 2 0.

Definition fifo_after : list label :=
  publish_now "topic" 2 1 ++ [LWorker 1; LHandlerRet 1; LWorker 1] ++
  publish_now "topic" 2 2 ++ [LWorker 0; LHandlerRet 0; LWorker 0].

(** One subscriber whose handler is busy with message 0 while 65 more
    messages are published: 64 fill the buffer, the last one is parked in the
    detached sender, and every call of [Publish] returns nil. *)
Definition overflow_before : list label :=
  [LSubscribe "t" 1] ++ publish_now "t" 1 0 ++ [LWorker 0] ++
  (seq 1 65 ≫= publish_now "t" 1).

(** Then [Close]: the queue is closed, the parked send ends in the recovered
    panic, the worker drains the buffer and leaves, and [Close] returns
    nil. *)
Definition overflow_close : list label :=
  [LClose ["t"]; LCloseStep; LCloseStep; LCloseStep; LSender 0] ++
  mjoin (replicate 64 [LHandlerRet 0; LWorker 0]) ++
  [LHandlerRet 0; LWorker 0; LWaiter; LCloseSelect true].

Definition overflow_end : subscription :=
  Subscription "t" [] true 1 OnceDone false WExited None
    ((λ i, (i, i)) <$> seq 0 66) ((λ i, (i, i)) <$> seq 0 65) [(65, 65)].

(** A call of [Publish] takes its copy, then the subscription is
    unsubscribed (by its handle, or by [Close]), then the call reaches
    [enqueue]. *)
Definition race_unsubscribe : list label :=
  [LSubscribe "t" 1; LPublish "t" 7; LUnsubscribe 0; LUnsubClose 0; LEnqueue 0].

Definition race_close : list label :=
  [LSubscribe "t" 1; LPublish "t" 7; LClose ["t"]; LCloseStep; LCloseStep;
   LEnqueue 0].

(** Two subscribers of one subject; the handler of the first takes message 0
    and does not return, the second handles every message at once.  After 66
    calls of [Publish] have returned the buffer of the first holds 64 messages
    and the detached sender is parked with one more; call 66 takes its
    copy. *)
Definition slow_schedule : list label :=
  [LSubscribe "t" 1; LSubscribe "t" 2] ++ publish_now "t" 2 0 ++
  [LWorker 0; LWorker 1; LHandlerRet 1] ++
  (seq 1 65 ≫= (λ p, publish_now "t" 2 p ++ [LWorker 1; LHandlerRet 1])) ++
  [LPublish "t" 66].


(** * A drained queue *)

(** The subscription once its worker has taken all of the buffer and left. *)
Definition drained (x : subscription) : subscription :=
  set_worker WExited (set_calls (calls x ++ ch x) (set_ch [] x)).

(** Two messages are published; the handler is busy with the first when the
    subscription is unsubscribed. *)
Definition leave_schedule : list label :=
  [LSubscribe "t" 1] ++ publish_now "t" 1 0 ++ publish_now "t" 1 1 ++
  [LWorker 0; LUnsubscribe 0; LUnsubClose 0].

(** * The service around the bus *)

(** ** Configuration: [internal/config] *)

(** [type Config struct]; a [time.Duration] is a number of nanoseconds. *)
Record Config := MkConfig {
  GRPCPort : string;
  ShutdownTimeout : Z;
  LogLevel : string;
}.

(** [time.Second] *)
Definition Second : Z := 1000000000.

(** The defaults [MustLoad] puts in the fields the file left at their zero
    value. *)
Definition with_defaults (c : Config) : Config :=
  let c1 := if decide (GRPCPort c = "")
            then MkConfig ":50051" (ShutdownTimeout c) (LogLevel c) else c in
  let c2 := if decide (ShutdownTimeout c1 = 0%Z)
            then MkConfig (GRPCPort c1) (5 * Second) (LogLevel c1) else c1 in
  if decide (LogLevel c2 = "")
  then MkConfig (GRPCPort c2) (ShutdownTimeout c2) "info" else c2.

(** What [MustLoad] ends with: the configuration, or a panic with its
    message. *)
Inductive loaded :=
  | Loaded (c : Config)
  | Panic (msg : string).

Section Loading.

(** The file system and the YAML decoder of the run: [ReadFile path] is what
    [os.ReadFile(path)] returns, [Unmarshal data] what
    [yaml.Unmarshal(data, &c)] leaves in the zero [Config] [c]; each is the
    value or the text of the error. *)
Variable ReadFile : string → string + string.
Variable Unmarshal : string → Config + string.

(** [MustLoad] *)
Definition MustLoad (path : string) : loaded :=
  match ReadFile path with
  | inr err => Panic ("не удалось прочитать конфиг: " +:+ err)
  | inl data =>
      match Unmarshal data with
      | inr err => Panic ("не удалось распарсить конфиг: " +:+ err)
      | inl c => Loaded (with_defaults c)
      end
  end.

End Loading.

(** ** Logging: [internal/logger] *)

(** [slog.Level], the four levels with their numbers. *)
Inductive Level := LevelDebug | LevelInfo | LevelWarn | LevelError.

Definition level_number (l : Level) : Z :=
  match l with
  | LevelDebug => -4
  | LevelInfo => 0
  | LevelWarn => 4
  | LevelError => 8
  end.

(** [*slog.Logger] over [slog.NewTextHandler(os.Stdout, &slog.HandlerOptions{
    Level: lvl})]: what tells two such loggers apart is the level. *)
Record Logger := MkLogger { min_level : Level }.

(** The handler lets a record through when its level is not below the
    level of the options. *)
Definition Enabled (lg : Logger) (l : Level) : bool :=
  bool_decide (level_number (min_level lg) ≤ level_number l)%Z.

Definition is_upper (a : Ascii.ascii) : bool :=
  (65 <=? Ascii.nat_of_ascii a) && (Ascii.nat_of_ascii a <=? 90).

Definition to_lower (a : Ascii.ascii) : Ascii.ascii :=
  if is_upper a then Ascii.ascii_of_nat (Ascii.nat_of_ascii a + 32) else a.

Fixpoint map_string (f : Ascii.ascii → Ascii.ascii) (s : string) : string :=
  match s with
  | EmptyString => EmptyString
  | String a s' => String (f a) (map_string f s')
  end.

Fixpoint is_ascii (s : string) : bool :=
  match s with
  | EmptyString => true
  | String a s' => (Ascii.nat_of_ascii a <? 128) && is_ascii s'
  end.

(** [strings.ToLower] on a string of ASCII characters, where it maps the
    letters A to Z to a to z and keeps every other byte.  On other strings it
    goes by the Unicode tables, which are not part of this development:
    [None]. *)
Definition ToLower (s : string) : option string :=
  if is_ascii s then Some (map_string to_lower s) else None.

(** [logger.New] *)
Definition New (levelStr : string) : option Logger :=
  low ← ToLower levelStr;
  Some (MkLogger
          (if decide (low = "debug") then LevelDebug
           else if decide (low = "warn") then LevelWarn
           else if decide (low = "error") then LevelError
           else LevelInfo)).

(** [s] is the word [w], written in letters a to z, in any mix of upper and
    lower case. *)
Fixpoint spells (w s : string) : Prop :=
  match w, s with
  | EmptyString, EmptyString => True
  | String b w', String a s' =>
      (a = b ∨ Ascii.nat_of_ascii a + 32 = Ascii.nat_of_ascii b) ∧ spells w' s'
  | _, _ => False
  end.

Fixpoint lower_letters (w : string) : bool :=
  match w with
  | EmptyString => true
  | String b w' =>
      (97 <=? Ascii.nat_of_ascii b) && (Ascii.nat_of_ascii b <=? 122) &&
      lower_letters w'
  end.

(** ** The gRPC service: [internal/app] *)

(** What the client of a call gets: no error, or
    [status.Error(codes.Unavailable, err.Error())], where the error stands
    for its text. *)
Inductive rpc_status :=
  | RpcOK
  | RpcUnavailable (e : error).

(** A call of [Server.Subscribe] past [bus.Subscribe]: at
    [<-stream.Context().Done()], inside the deferred [sub.Unsubscribe()]
    with the body of [once] begun, or returned. *)
Inductive stream_pc := SWait | SUnsubscribing | SReturned.

Record stream_call := StreamCall {
  st_key : string;
  st_sub : nat;
  st_ctx_done : bool;
  st_pc : stream_pc;
}.

(** A record the logger has written: level, message, and the attributes
    [key] and [data]. *)
Record log_line := LogLine {
  ll_level : Level;
  ll_text : string;
  ll_key : string;
  ll_data : Msg;
}.

(** A call of [Server.Publish] whose message the bus took: inside
    [bus.Publish], at [s.log.Debug], at the [return] of the empty message,
    returned. *)
Inductive publish_pc := PBus | PDebug | PReturn | PReturned.

(** The goroutine of such a call: the key and the data of its request, the
    number of its call of [bus.Publish], and where it is. *)
Record publish_handler := PublishHandler {
  ph_key : string;
  ph_data : Msg;
  ph_call : nat;
  ph_pc : publish_pc;
}.

(** [type Server struct] with the calls of [Subscribe] in flight or over
    (stream [k] is the [k]-th call that got a subscription; its handler,
    which sends each message on the stream, is handler [k] of the bus), the
    calls of [Publish] that got past the check of the bus, and what the
    logger has written.  The data of a request is a string; the service hands
    it to the bus and from the bus to the stream unread, so the payload of
    the bus stands for it. *)
Record server := MkServer {
  bus : state;
  log : Logger;
  streams : list stream_call;
  publishing : list publish_handler;
  written : list log_line;
}.

(** [NewServer] *)
Definition NewServer (bus : state) (log : Logger) : server :=
  MkServer bus log [] [] [].

Definition set_bus (σ : state) (sv : server) : server :=
  MkServer σ (log sv) (streams sv) (publishing sv) (written sv).
Definition set_stream (k : nat) (st : stream_call) (sv : server) : server :=
  MkServer (bus sv) (log sv) (<[k:=st]> (streams sv)) (publishing sv)
    (written sv).
Definition set_publishing (h : nat) (hd : publish_handler) (sv : server)
    : server :=
  MkServer (bus sv) (log sv) (streams sv) (<[h:=hd]> (publishing sv))
    (written sv).
Definition set_ph_pc (v : publish_pc) (hd : publish_handler)
    : publish_handler :=
  PublishHandler (ph_key hd) (ph_data hd) (ph_call hd) v.
Definition set_st_ctx_done (v : bool) (st : stream_call) : stream_call :=
  StreamCall (st_key st) (st_sub st) v (st_pc st).
Definition set_st_pc (v : stream_pc) (st : stream_call) : stream_call :=
  StreamCall (st_key st) (st_sub st) (st_ctx_done st) v.

(** [s.log.Debug(text, "key", key, "data", data)]: the handler of the logger
    writes a record under its own lock, so a line is written in one piece. *)
Definition Debug (text key : string) (data : Msg) (sv : server) : server :=
  if Enabled (log sv) LevelDebug
  then MkServer (bus sv) (log sv) (streams sv) (publishing sv)
         (written sv ++ [LogLine LevelDebug text key data])
  else sv.

(** What the calls of the service return. *)
Inductive rpc_event :=
  | RvPublish (key : string) (data : Msg) (r : rpc_status)
  | RvRejected (key : string) (r : rpc_status)
  | RvStream (k : nat).

(** [Server.Publish] up to the return of the check in [bus.Publish]: on
    [ErrClosed] the call is over with [codes.Unavailable]; otherwise the call
    goes on inside [bus.Publish], where it is the next call by number. *)
Definition Server_Publish (key : string) (data : Msg) (sv : server)
    : option (server * list rpc_event) :=
  r ← step (LPublish key data) (bus sv);
  match r.2 with
  | EvPublish (inr e) :: _ =>
      Some (set_bus r.1 sv, [RvPublish key data (RpcUnavailable e)])
  | _ =>
      Some (MkServer r.1 (log sv) (streams sv)
              (publishing sv ++
                 [PublishHandler key data (length (pubs (bus sv))) PBus])
              (written sv), [])
  end.

(** One step of call [h] of [Server.Publish] after the loop of
    [bus.Publish]: [bus.Publish] returns nil; then [s.log.Debug] with the key
    and the data of the request; then the return of the empty message.  The
    three are steps of their own: the service holds no lock over them, and
    other calls run in between. *)
Definition Server_Publish_step (h : nat) (sv : server)
    : option (server * list rpc_event) :=
  hd ← publishing sv !! h;
  match ph_pc hd with
  | PBus =>
      r ← step (LPublishRet (ph_call hd)) (bus sv);
      Some (set_publishing h (set_ph_pc PDebug hd) (set_bus r.1 sv), [])
  | PDebug =>
      Some (set_publishing h (set_ph_pc PReturn hd)
              (Debug "publish" (ph_key hd) (ph_data hd) sv), [])
  | PReturn =>
      Some (set_publishing h (set_ph_pc PReturned hd) sv,
            [RvPublish (ph_key hd) (ph_data hd) RpcOK])
  | PReturned => None
  end.

(** [Server.Subscribe] up to the return of [bus.Subscribe]: with an error
    the call is over with [codes.Unavailable], otherwise the stream waits
    for its context. *)
Definition Server_Subscribe (key : string) (sv : server)
    : option (server * list rpc_event) :=
  r ← step (LSubscribe key (length (streams sv))) (bus sv);
  match r.2 with
  | [EvSubscribe (inl s)] =>
      Some (MkServer r.1 (log sv)
              (streams sv ++ [StreamCall key s false SWait]) (publishing sv)
              (written sv), [])
  | [EvSubscribe (inr e)] =>
      Some (set_bus r.1 sv, [RvRejected key (RpcUnavailable e)])
  | _ => None
  end.

(** The context of stream [k] is done: the client is gone or the server
    stops. *)
Definition Stream_done (k : nat) (sv : server)
    : option (server * list rpc_event) :=
  st ← streams sv !! k;
  Some (set_stream k (set_st_ctx_done true st) sv, []).

(** One step of stream [k] past [<-stream.Context().Done()]: the deferred
    [sub.Unsubscribe()], after which [Subscribe] returns nil. *)
Definition Server_Unsubscribe (k : nat) (sv : server)
    : option (server * list rpc_event) :=
  st ← streams sv !! k;
  if st_ctx_done st then
    match st_pc st with
    | SWait =>
        r ← step (LUnsubscribe (st_sub st)) (bus sv);
        match r.2 with
        | [] => Some (set_stream k (set_st_pc SUnsubscribing st)
                        (set_bus r.1 sv), [])
        | _ => Some (set_stream k (set_st_pc SReturned st) (set_bus r.1 sv),
                     [RvStream k])
        end
    | SUnsubscribing =>
        r ← step (LUnsubClose (st_sub st)) (bus sv);
        Some (set_stream k (set_st_pc SReturned st) (set_bus r.1 sv),
              [RvStream k])
    | SReturned => None
    end
  else None.

(** The goroutines that are the bus's own, and those of [bus.Close(ctx)] in
    [main]: the calls of [Subscribe], [Publish] and [Unsubscribe] come from
    the service only.  So do the handlers: each is the function literal of
    [Server.Subscribe], which sends on its stream a message that
    [Server.Publish] gave the bus as a string, drops the error of the send
    and returns; no handler of the service is nil or panics. *)
Definition internal (l : label) : bool :=
  match l with
  | LEnqueue _ | LSender _ | LWorker _ | LHandlerRet _ | LClose _
  | LCloseStep | LWaiter | LCtxDone | LCloseSelect _ => true
  | _ => false
  end.

Inductive rpc_label :=
  | RPublish (key : string) (data : Msg)
  | RPublishRet (h : nat)
  | RSubscribe (key : string)
  | RStreamDone (k : nat)
  | RUnsubscribe (k : nat)
  | RBus (l : label).

Definition srv_step (l : rpc_label) (sv : server)
    : option (server * list rpc_event) :=
  match l with
  | RPublish key data => Server_Publish key data sv
  | RPublishRet h => Server_Publish_step h sv
  | RSubscribe key => Server_Subscribe key sv
  | RStreamDone k => Stream_done k sv
  | RUnsubscribe k => Server_Unsubscribe k sv
  | RBus l =>
      if internal l
      then r ← step l (bus sv); Some (set_bus r.1 sv, [])
      else None
  end.

Fixpoint srv_run (ls : list rpc_label) (sv : server)
    : option (server * list rpc_event) :=
  match ls with
  | [] => Some (sv, [])
  | l :: ls' =>
      match srv_step l sv with
      | Some (sv1, evs1) =>
          match srv_run ls' sv1 with
          | Some (sv2, evs2) => Some (sv2, evs1 ++ evs2)
          | None => None
          end
      | None => None
      end
  end.

(** The debug line of a call of [Publish] that got through. *)
Definition publish_line (e : rpc_event) : option log_line :=
  match e with
  | RvPublish key data RpcOK => Some (LogLine LevelDebug "publish" key data)
  | _ => None
  end.

Definition rejected (e : rpc_event) : Prop :=
  match e with
  | RvPublish _ _ (RpcUnavailable _) | RvRejected _ _ => True
  | _ => False
  end.

(** The state and the returns at the end of a schedule of the service. *)
Definition srv_state_after (ls : list rpc_label) (sv : server) : server :=
  match srv_run ls sv with Some (sv', _) => sv' | None => sv end.

Definition srv_returns_of (ls : list rpc_label) (sv : server)
    : list rpc_event :=
  match srv_run ls sv with Some (_, evs) => evs | None => [] end.

(** A client subscribes to a key, another publishes on it and the message
    is sent on the stream; the first client goes away; then [main] closes
    the bus, and a call of [Publish] and one of [Subscribe] come late. *)
Definition service_schedule : list rpc_label :=
  [RSubscribe "k"; RPublish "k" 5; RBus (LEnqueue 0); RPublishRet 0;
   RPublishRet 0; RPublishRet 0; RBus (LWorker 0); RBus (LHandlerRet 0);
   RStreamDone 0; RUnsubscribe 0; RUnsubscribe 0; RBus (LClose []);
   RPublish "k" 6; RSubscribe "k"].

(** Two calls of [Publish] at the same time: the first logs before the
    second, the second returns before the first. *)
Definition crossing_schedule : list rpc_label :=
  [RPublish "a" 1; RPublish "b" 2; RPublishRet 0; RPublishRet 1;
   RPublishRet 0; RPublishRet 1; RPublishRet 1; RPublishRet 0].

(** The line of a call that has logged and has not yet returned. *)
Definition at_return (hd : publish_handler) : option log_line :=
  match ph_pc hd with
  | PReturn => Some (LogLine LevelDebug "publish" (ph_key hd) (ph_data hd))
  | _ => None
  end.

(** What ties the calls of [Server.Publish] to the calls of the bus: a call
    that goes on past the check is a call of [bus.Publish] with the key and
    the data of the request, and that call has returned nil when the service
    is past it. *)
Definition publishing_ok (sv : server) : Prop :=
  ∀ h hd, publishing sv !! h = Some hd →
    ∃ c, pubs (bus sv) !! ph_call hd = Some c ∧ p_subject c = ph_key hd ∧
         p_msg c = ph_data hd ∧ (ph_pc hd ≠ PBus → p_ret c = true).

(** What ties the log to the calls, after a schedule that returned [evs] to
    the clients: below debug level nothing is written; at debug level the
    lines are, in some order, those of the calls that have returned with no
    error and of the calls that are at their return; and every line is that
    of a call past its [s.log.Debug]. *)
Record handlers_ok (lg : Logger) (sv : server) (evs : list rpc_event)
    : Prop := HandlersOk {
  ho_log : log sv = lg;
  ho_bus : publishing_ok sv;
  ho_written :
    if Enabled lg LevelDebug
    then written sv ≡ₚ omap publish_line evs ++ omap at_return (publishing sv)
    else written sv = [];
  ho_line : ∀ ln, ln ∈ written sv →
    ∃ h hd, publishing sv !! h = Some hd ∧
            ln = LogLine LevelDebug "publish" (ph_key hd) (ph_data hd) ∧
            (ph_pc hd = PReturn ∨ ph_pc hd = PReturned);
}.

(** What ties the calls of [Subscribe] to the subscriptions of the bus: the
    bus is in a state it can reach; stream [k] holds subscription [k], made
    on its key with its handler; [once] of the subscription is begun by the
    stream exactly when the stream is in its deferred [Unsubscribe], and is
    over when the stream has returned. *)
Record srv_ok (sv : server) : Prop := SrvOk {
  so_bus : reachable (bus sv);
  so_len : length (streams sv) = length (heap (bus sv));
  so_stream : ∀ k st, streams sv !! k = Some st →
    st_sub st = k ∧
    ∃ x, heap (bus sv) !! k = Some x ∧ subject x = st_key st ∧ cb x = k ∧
         match st_pc st with
         | SWait => once x ≠ OnceRunning false
         | SUnsubscribing => once x = OnceRunning false
         | SReturned => once x = OnceDone
         end;
}.

(** * Proofs *)

(** ** Schedules and reachable states *)

Lemma run_app ls1 ls2 σ :
  run (ls1 ++ ls2) σ =
  match run ls1 σ with
  | Some (σ1, evs1) =>
      match run ls2 σ1 with
      | Some (σ2, evs2) => Some (σ2, evs1 ++ evs2)
      | None => None
      end
  | None => None
  end.
Proof.
  revert σ. induction ls1 as [|l ls1 IH]; intros σ; simpl.
  - by destruct (run ls2 σ) as [[??]|].
  - destruct (step l σ) as [[σ1 e1]|]; [|done].
    rewrite IH. destruct (run ls1 σ1) as [[σ2 e2]|]; [|done].
    destruct (run ls2 σ2) as [[σ3 e3]|]; [|done].
    by rewrite (assoc_L (++)).
Qed.

Lemma run_snoc ls l σ σ' evs :
  run (ls ++ [l]) σ = Some (σ', evs) →
  ∃ σ1 evs1 evs2, run ls σ = Some (σ1, evs1) ∧ step l σ1 = Some (σ', evs2) ∧
                  evs = evs1 ++ evs2.
Proof.
  rewrite run_app. destruct (run ls σ) as [[σ1 e1]|]; [|done]. simpl.
  destruct (step l σ1) as [[σ2 e2]|] eqn:Hs; [|done]. intros [= <- <-].
  exists σ1, e1, e2. by rewrite (right_id_L [] (++)).
Qed.

Lemma reachable_init : reachable NewSubPub.
Proof. by exists [], []. Qed.

Lemma reachable_run ls σ σ' evs :
  reachable σ → run ls σ = Some (σ', evs) → reachable σ'.
Proof.
  intros (ls0 & evs0 & H0) H. exists (ls0 ++ ls), (evs0 ++ evs).
  by rewrite run_app, H0, H.
Qed.

Lemma reachable_step l σ σ' evs :
  reachable σ → step l σ = Some (σ', evs) → reachable σ'.
Proof.
  intros Hr H. apply (reachable_run [l] σ σ' evs Hr). simpl. rewrite H.
  by rewrite (right_id_L [] (++)).
Qed.

(** A property that holds initially and is kept by every step from a
    reachable state holds in every reachable state. *)
Lemma reachable_invariant (P : state → Prop) :
  P NewSubPub →
  (∀ l σ σ' evs, reachable σ → P σ → step l σ = Some (σ', evs) → P σ') →
  ∀ σ, reachable σ → P σ.
Proof.
  intros Hinit Hstep σ (ls & evs & Hrun). revert σ evs Hrun.
  induction ls as [|l ls IH] using rev_ind; intros σ evs Hrun.
  - by injection Hrun as <- <-.
  - apply run_snoc in Hrun as (σ1 & e1 & e2 & Hrun & Hs & ->).
    apply (Hstep l σ1 σ e2); [by exists ls, e1|by apply (IH σ1 e1)|done].
Qed.

(** A property kept by every step is kept by every schedule. *)
Lemma run_invariant (P : state → Prop) :
  (∀ l σ σ' evs, P σ → step l σ = Some (σ', evs) → P σ') →
  ∀ ls σ σ' evs, P σ → run ls σ = Some (σ', evs) → P σ'.
Proof.
  intros Hstep ls. induction ls as [|l ls IH]; intros σ σ' evs HP Hrun.
  - by injection Hrun as <- <-.
  - simpl in Hrun. destruct (step l σ) as [[σ1 e1]|] eqn:Hs; [|done].
    destruct (run ls σ1) as [[σ2 e2]|] eqn:Hr; [|done].
    injection Hrun as <- <-. eauto.
Qed.

Ltac step_cases H :=
  unfold step in H;
  match type of H with
  | (if panicked ?σ then _ else _) = _ =>
      let Hp := fresh "Hnopanic" in
      destruct (panicked σ) eqn:Hp; [discriminate H|]
  end;
  match type of H with
  | match ?l with _ => _ end = _ => destruct l
  end;
  unfold quiet, Subscribe, Publish_copy, Publish_enqueue, Publish_return,
    Unsubscribe_enter, Unsubscribe_close, Sender_step, Worker_step,
    Handler_step, Close_enter, Close_step, Waiter_step, Ctx_step,
    Close_select, Handler_panic in H;
  repeat (simplify_option_eq; try case_match); simplify_option_eq.

(** ** The swap-remove of [unsubscribe] *)

Lemma swap_remove_notin s l : s ∉ l → swap_remove s l = l.
Proof.
  intros Hs. unfold swap_remove.
  destruct (list_find (λ v, v = s) l) as [[i y]|] eqn:Hf; [|done].
  apply list_find_Some in Hf as (Hi & -> & _).
  by apply list_elem_of_lookup_2 in Hi.
Qed.

(** It takes out the first occurrence and nothing else. *)
Lemma swap_remove_perm s l : s ∈ l → s :: swap_remove s l ≡ₚ l.
Proof.
  intros Hs. unfold swap_remove.
  destruct (list_find (λ v, v = s) l) as [[i y]|] eqn:Hf.
  2: { apply list_find_None in Hf. rewrite Forall_forall in Hf.
       by destruct (Hf s Hs). }
  apply list_find_Some in Hf as (Hi & -> & _).
  assert (∃ l1 l2, l = l1 ++ s :: l2 ∧ length l1 = i) as (l1 & l2 & -> & Hlen).
  { exists (take i l), (drop (S i) l). split; [by rewrite take_drop_middle|].
    apply length_take_le. apply lookup_lt_Some in Hi. lia. }
  clear Hs Hi. destruct l2 as [|a l2 _] using rev_ind.
  - rewrite last_snoc, length_app. simpl.
    replace (length l1 + 1 - 1) with (length l1) by lia.
    subst i. rewrite list_insert_id.
    2: { rewrite lookup_app_r, Nat.sub_diag by lia. done. }
    rewrite take_app_length. by rewrite Permutation_cons_append.
  - replace (l1 ++ s :: l2 ++ [a]) with ((l1 ++ s :: l2) ++ [a])
      by (by rewrite <-(assoc_L (++))).
    rewrite last_snoc, length_app. simpl.
    replace (length (l1 ++ s :: l2) + 1 - 1) with (length (l1 ++ s :: l2))
      by lia.
    subst i. rewrite insert_app_l by (rewrite length_app; simpl; lia).
    rewrite <-(length_insert (l1 ++ s :: l2) (length l1) a), take_app_length.
    rewrite insert_app_r_alt, Nat.sub_diag by lia. simpl.
    rewrite <-(assoc_L (++)). simpl.
    rewrite <-(Permutation_cons_append l2 a).
    by rewrite <-!Permutation_middle.
Qed.

Lemma swap_remove_elem_of s l x :
  x ∈ swap_remove s l → x ∈ l.
Proof.
  destruct (decide (s ∈ l)) as [Hs|Hs].
  - rewrite <-(swap_remove_perm s l Hs) at 2. set_solver.
  - by rewrite swap_remove_notin.
Qed.

Lemma swap_remove_other s l x :
  x ≠ s → x ∈ l → x ∈ swap_remove s l.
Proof.
  intros Hne Hx. destruct (decide (s ∈ l)) as [Hs|Hs].
  - rewrite <-(swap_remove_perm s l Hs) in Hx. set_solver.
  - by rewrite swap_remove_notin.
Qed.

Lemma swap_remove_NoDup s l : NoDup l → NoDup (swap_remove s l).
Proof.
  intros Hnd. destruct (decide (s ∈ l)) as [Hs|Hs].
  - rewrite <-(swap_remove_perm s l Hs) in Hnd. by apply NoDup_cons in Hnd as [].
  - by rewrite swap_remove_notin.
Qed.

Lemma swap_remove_gone s l : NoDup l → s ∉ swap_remove s l.
Proof.
  intros Hnd Hin. assert (s ∈ l) as Hs by by eapply swap_remove_elem_of.
  rewrite <-(swap_remove_perm s l Hs) in Hnd. by apply NoDup_cons in Hnd as [].
Qed.

Lemma swap_remove_length s l :
  s ∈ l → length l = S (length (swap_remove s l)).
Proof. intros Hs. by rewrite <-(swap_remove_perm s l Hs) at 1. Qed.

(** ** One subscription *)

Lemma not_true_iff_false' b : b ≠ true ↔ b = false.
Proof. by destruct b. Qed.

Lemma sub_ok_move x x' : sub_ok x → sub_move x x' → sub_ok x'.
Proof.
  intros [Hc Hm He Hcap Hs H1 Hd] Hmove.
  assert (ch_closed x = false → dropped x = []) as Hd'.
  { intros Hf. destruct (dropped x); [done|]. rewrite Hd in Hf; done. }
  assert (sendMu x = false → sender x = None) as Hm'.
  { intros Hf. destruct (sender x); [|done].
    rewrite (proj2 Hm) in Hf; [done|by eexists]. }
  destruct Hmove as [t x' H|x' H|x' b H|x' H|b H|b H].
  - unfold enqueue in H.
    destruct (sendMu x) eqn:E1; [done|].
    destruct (ch_closed x) eqn:E2; [done|].
    specialize (Hd' eq_refl). specialize (Hm' eq_refl).
    assert (worker x ≠ WExited) by (intros Hw; by destruct (He Hw)).
    case_decide; injection H as <-; split; simpl; rewrite ?E1, ?E2, ?Hd', ?Hm';
      try done; try (simpl; lia).
    + rewrite length_app; simpl; lia.
    + rewrite Hs, Hm', Hd'. simpl.
      by rewrite !(right_id_L [] (++)), (assoc_L (++)).
    + rewrite Hs, Hm', Hd'. simpl.
      by rewrite !(right_id_L [] (++)), (assoc_L (++)).
  - unfold blocked_send in H. destruct (sender x) as [t|] eqn:E1; [|done].
    assert (dropped x = []) as Hd0.
    { simpl in H1. destruct (dropped x); [done|simpl in H1; lia]. }
    destruct (ch_closed x) eqn:E2.
    + injection H as <-. split; simpl; rewrite ?E1, ?E2, ?Hd0; try done.
      rewrite Hs, Hd0. simpl. by rewrite ?(right_id_L [] (++)).
    + case_decide; [|done]. injection H as <-.
      split; simpl; rewrite ?E1, ?E2, ?Hd0; try done; try (simpl; lia).
      * intros Hw. by destruct (He Hw).
      * rewrite length_app; simpl; lia.
      * rewrite Hs, Hd0. simpl. by rewrite ?(right_id_L [] (++)).
  - unfold worker_recv in H. destruct (worker x) eqn:E1; try done.
    destruct (ch x) as [|t rest] eqn:E2.
    + destruct (ch_closed x) eqn:E3; [|done]. injection H as <- <-.
      split; simpl; rewrite ?E2, ?E3; try done.
    + injection H as <- <-. split; simpl; rewrite ?E2; try done.
      * simpl in Hcap. lia.
      * rewrite Hs. by rewrite <-(assoc_L (++)).
  - unfold handler_return in H. destruct (worker x) eqn:E1; try done.
    injection H as <-. split; simpl; try done.
  - split; simpl; try done.
    all: try (rewrite Hc, H; split; done).
    all: try (intros Hn; apply Hd, Hc in Hn; congruence).
  - split; simpl; try done.
    all: try (intros Hw; destruct (He Hw) as [_ Hcl]; apply Hc in Hcl;
              congruence).
Qed.

(** ** How a step changes the heap *)

Lemma step_heap l σ σ' evs :
  step l σ = Some (σ', evs) →
  heap σ' = heap σ ∨
  (∃ subj h, heap σ' = heap σ ++ [new_subscription subj h]) ∨
  (∃ s x x', heap σ !! s = Some x ∧ heap σ' = <[s:=x']> (heap σ) ∧
             sub_move x x').
Proof.
  intros H. step_cases H; simpl; eauto 10.
  all: right; right; eexists _, _, _; split_and!; [eassumption|reflexivity|].
  all: eauto using sub_move.
Qed.

Lemma new_subscription_ok subj h : sub_ok (new_subscription subj h).
Proof. split; simpl; try done; try lia. Qed.

(** Every subscription object of a reachable state is well formed. *)
Lemma reachable_sub_ok σ s x :
  reachable σ → heap σ !! s = Some x → sub_ok x.
Proof.
  intros Hr. revert s x.
  induction Hr as [|l σ σ' evs _ IH Hs] using reachable_invariant;
    intros s x Hx.
  - done.
  - apply step_heap in Hs as [Hh|[(subj & h & Hh)|(s0 & x0 & x' & H0 & Hh & Hm)]];
      rewrite Hh in Hx.
    + eauto.
    + apply lookup_app_Some in Hx as [Hx|[_ Hx]]; [eauto|].
      apply list_lookup_singleton_Some in Hx as [_ <-].
      apply new_subscription_ok.
    + apply list_lookup_insert_Some in Hx as [(-> & <- & _)|[_ Hx]]; [|eauto].
      eapply sub_ok_move; eauto.
Qed.

(** ** The registry *)

Lemma lookup_store_same {B} (f : subscription → B) (h : list subscription)
    n x x' s :
  h !! n = Some x → f x' = f x → f <$> <[n:=x']> h !! s = f <$> h !! s.
Proof.
  intros Hn Hf. destruct (decide (n = s)) as [->|Hne].
  - rewrite list_lookup_insert_eq by by eapply lookup_lt_Some.
    rewrite Hn. simpl. by rewrite Hf.
  - by rewrite list_lookup_insert_ne.
Qed.

(** The moves that leave [once], [subject] and [cb] alone. *)
Lemma enqueue_frame t x x' :
  enqueue t x = EnqDone x' →
  subject x' = subject x ∧ once x' = once x ∧ cb x' = cb x ∧
  worker x' = worker x ∧ ch_closed x' = ch_closed x.
Proof.
  unfold enqueue. repeat case_match; try done; by intros [= <-].
Qed.

Lemma blocked_send_frame x x' :
  blocked_send x = Some x' →
  subject x' = subject x ∧ once x' = once x ∧ cb x' = cb x ∧
  worker x' = worker x ∧ ch_closed x' = ch_closed x.
Proof.
  unfold blocked_send. repeat case_match; try done; by intros [= <-].
Qed.

Lemma worker_recv_frame x x' b :
  worker_recv x = Some (x', b) →
  subject x' = subject x ∧ once x' = once x ∧ cb x' = cb x ∧
  ch_closed x' = ch_closed x.
Proof.
  unfold worker_recv. repeat case_match; try done; by intros [= <- <-].
Qed.

Lemma handler_return_frame x x' :
  handler_return x = Some x' →
  subject x' = subject x ∧ once x' = once x ∧ cb x' = cb x ∧
  ch_closed x' = ch_closed x.
Proof.
  unfold handler_return. repeat case_match; try done; by intros [= <-].
Qed.

Lemma subscribers_remove s subj m k :
  subscribers k (remove_from_registry s subj m) =
  if decide (k = subj) then swap_remove s (subscribers subj m)
  else subscribers k m.
Proof.
  unfold subscribers, remove_from_registry.
  destruct (m !! subj) as [l|] eqn:Hl; simpl.
  - case_decide as Hlen.
    + case_decide as Hk; [subst k|by rewrite lookup_delete_ne].
      rewrite lookup_delete_eq. simpl.
      by destruct (swap_remove s l).
    + case_decide as Hk; [subst k|by rewrite lookup_insert_ne].
      by rewrite lookup_insert_eq.
  - case_decide as Hk; [subst k|done]. by rewrite Hl.
Qed.

Lemma remove_from_registry_Some s subj m k l' :
  remove_from_registry s subj m !! k = Some l' →
  (k ≠ subj ∧ m !! k = Some l') ∨
  (k = subj ∧ l' ≠ [] ∧ ∃ l, m !! subj = Some l ∧ l' = swap_remove s l).
Proof.
  unfold remove_from_registry.
  destruct (m !! subj) as [l|] eqn:Hl.
  - case_decide as Hlen.
    + intros [Hne Hk]%lookup_delete_Some. by left.
    + intros [[<- <-]|[Hne Hk]]%lookup_insert_Some; [right|by left].
      split_and!; [done| |by exists l]. intros E. by rewrite E in Hlen.
  - intros Hk. left. split; [|done]. intros ->. congruence.
Qed.

Lemma subscribers_insert subj l m k :
  subscribers k (<[subj:=l]> m) =
  if decide (k = subj) then l else subscribers k m.
Proof.
  unfold subscribers. case_decide as Hk; [subst k|by rewrite lookup_insert_ne].
  by rewrite lookup_insert_eq.
Qed.

Lemma subscribers_empty k : subscribers k ∅ = [].
Proof. unfold subscribers. by rewrite lookup_empty. Qed.

Lemma lookup_snoc_proj {B} (f : subscription → B) (h : list subscription)
    y s v :
  f <$> (h ++ [y]) !! s = Some v ↔
  f <$> h !! s = Some v ∨ (s = length h ∧ f y = v).
Proof.
  rewrite !fmap_Some. split.
  - intros (x & [Hx|[Hlen Hx]]%lookup_app_Some & ->); [left; eauto|right].
    apply list_lookup_singleton_Some in Hx as [Hs <-]. split; [lia|done].
  - intros [(x & Hx & ->)|[-> <-]].
    + exists x. split; [|done]. by apply lookup_app_l_Some.
    + exists y. split; [|done]. rewrite lookup_app_r, Nat.sub_diag by lia. done.
Qed.

Lemma lookup_proj_lt {B} (f : subscription → B) (h : list subscription) s v :
  f <$> h !! s = Some v → s < length h.
Proof. intros (x & Hx & _)%fmap_Some. by eapply lookup_lt_Some. Qed.

Ltac data_move_facts :=
  match goal with
  | H : enqueue _ _ = EnqDone _ |- _ =>
      pose proof (enqueue_frame _ _ _ H) as (?&?&?&?&?)
  | H : blocked_send _ = Some _ |- _ =>
      pose proof (blocked_send_frame _ _ H) as (?&?&?&?&?)
  | H : worker_recv _ = Some _ |- _ =>
      pose proof (worker_recv_frame _ _ _ H) as (?&?&?&?)
  | H : handler_return _ = Some _ |- _ =>
      pose proof (handler_return_frame _ _ H) as (?&?&?&?)
  end.

(** In a data move the registry view of the heap is unchanged. *)
Ltac data_move_heap :=
  data_move_facts;
  match goal with
  | Hx : heap ?σ !! ?n = Some ?x |- context [<[?n:=?x']> (heap ?σ)] =>
      let Hs := fresh "Hsubj" in
      let Ho := fresh "Honce" in
      assert (∀ s, subject <$> <[n:=x']> (heap σ) !! s = subject <$> heap σ !! s)
        as Hs by (intros; by eapply lookup_store_same);
      assert (∀ s, once <$> <[n:=x']> (heap σ) !! s = once <$> heap σ !! s)
        as Ho by (intros; by eapply lookup_store_same);
      try setoid_rewrite Hs; try setoid_rewrite Ho
  end.

(** [once.Do] is entered for [s]: step 1 of [unsubscribe]. *)
Lemma bus_ok_once_enter σ s x b :
  bus_ok σ → heap σ !! s = Some x → once x = OnceIdle →
  bus_ok (set_subs (remove_from_registry s (subject x) (subs σ))
            (store s (set_once (OnceRunning b) x) σ)).
Proof.
  intros [Hnd Hreg Hne Hidle Hcl Hnil] Hx Ho.
  assert (∀ k, subject <$> <[s:=set_once (OnceRunning b) x]> (heap σ) !! k =
               subject <$> heap σ !! k) as Hsubj
    by (intros; by eapply lookup_store_same).
  assert (∀ k, k ≠ s → once <$> <[s:=set_once (OnceRunning b) x]> (heap σ) !! k =
               once <$> heap σ !! k) as Honce
    by (intros; by rewrite list_lookup_insert_ne).
  assert (once <$> <[s:=set_once (OnceRunning b) x]> (heap σ) !! s =
          Some (OnceRunning b)) as Hs.
  { rewrite list_lookup_insert_eq by by eapply lookup_lt_Some. done. }
  assert (∀ k, s ∈ subscribers k (subs σ) → k = subject x) as Hk.
  { intros k [Hk _]%Hreg. rewrite Hx in Hk. by injection Hk. }
  split; simpl.
  - intros k. rewrite subscribers_remove. case_decide; [|done].
    by apply swap_remove_NoDup.
  - intros k s'. rewrite subscribers_remove, Hsubj. intros Hin.
    assert (s' ∈ subscribers k (subs σ) ∧ s' ≠ s) as [Hin' Hne'].
    { case_decide as Hd.
      - subst k. split; [by eapply swap_remove_elem_of|].
        intros ->. by eapply swap_remove_gone.
      - split; [done|]. intros ->. by apply Hd, Hk. }
    rewrite Honce by done. by apply Hreg.
  - intros k l [[_ Hl]|(_ & Hl & _)]%remove_from_registry_Some; eauto.
  - intros Hop s'. destruct (decide (s' = s)) as [->|Hne'].
    { by rewrite Hs. }
    rewrite Honce, Hsubj by done. intros (k & Hsk & Hin)%Hidle; [|done].
    exists k. split; [done|]. rewrite subscribers_remove.
    case_decide; [subst k; by apply swap_remove_other|done].
  - done.
  - intros Hc. unfold remove_from_registry. rewrite (Hnil Hc), lookup_empty.
    done.
Qed.

(** [close(s.ch)]: step 2 of [unsubscribe]. *)
Lemma bus_ok_close_queue σ s x b :
  bus_ok σ → heap σ !! s = Some x → once x = OnceRunning b →
  bus_ok (store s (close_queue x) σ).
Proof.
  intros [Hnd Hreg Hne Hidle Hcl Hnil] Hx Ho.
  assert (∀ k, subject <$> <[s:=close_queue x]> (heap σ) !! k =
               subject <$> heap σ !! k) as Hsubj
    by (intros; by eapply lookup_store_same).
  assert (∀ k, k ≠ s → once <$> <[s:=close_queue x]> (heap σ) !! k =
               once <$> heap σ !! k) as Honce
    by (intros; by rewrite list_lookup_insert_ne).
  assert (once <$> <[s:=close_queue x]> (heap σ) !! s = Some OnceDone) as Hs.
  { rewrite list_lookup_insert_eq by by eapply lookup_lt_Some. done. }
  split; simpl; try done.
  - intros k s' Hin. rewrite Hsubj.
    destruct (decide (s' = s)) as [->|Hne'].
    { apply Hreg in Hin as [_ Hin]. rewrite Hx in Hin. simpl in Hin. congruence. }
    rewrite Honce by done. by apply Hreg.
  - intros Hop s'. destruct (decide (s' = s)) as [->|Hne'].
    { by rewrite Hs. }
    rewrite Honce, Hsubj by done. by apply Hidle.
Qed.

Lemma bus_ok_subscribe σ subj h :
  bus_ok σ → closed σ = false →
  bus_ok (State (<[subj := subscribers subj (subs σ) ++ [length (heap σ)]]>
                   (subs σ)) false (S (wg σ))
            (heap σ ++ [new_subscription subj h]) (pubs σ) (closer σ)
            (panicked σ)).
Proof.
  intros [Hnd Hreg Hne Hidle Hcl Hnil] Hop. split; simpl; try done.
  - intros k. rewrite subscribers_insert. case_decide; [subst k|done].
    apply NoDup_app. split_and!; [done| |apply NoDup_singleton].
    intros s [_ Hs%lookup_proj_lt]%Hreg ->%list_elem_of_singleton. lia.
  - intros k s. rewrite subscribers_insert, !lookup_snoc_proj.
    case_decide as Hk.
    + subst k. intros [Hin| ->%list_elem_of_singleton]%elem_of_app.
      * apply Hreg in Hin as []. by split; left.
      * by split; right.
    + intros Hin. apply Hreg in Hin as []. by split; left.
  - intros k l [[<- <-]|[_ Hl]]%lookup_insert_Some; [|by eauto].
    by destruct (subscribers subj (subs σ)).
  - intros _ s. rewrite lookup_snoc_proj. intros [Ho|[-> _]].
    + destruct (Hidle Hop s Ho) as (k & Hk & Hin). exists k.
      rewrite lookup_snoc_proj, subscribers_insert. split; [by left|].
      case_decide; [subst k; set_solver|done].
    + exists subj. rewrite lookup_snoc_proj, subscribers_insert.
      split; [by right|]. rewrite decide_True by done. set_solver.
  - by rewrite <-Hop.
Qed.

Lemma bus_ok_set_closer σ c c' :
  bus_ok σ → closer σ = Some c → bus_ok (set_closer (Some c') σ).
Proof.
  intros [Hnd Hreg Hne Hidle Hcl Hnil] Hc. split; simpl; try done.
  rewrite Hcl, Hc. split; by eexists.
Qed.

Lemma bus_ok_step l σ σ' evs :
  bus_ok σ → step l σ = Some (σ', evs) → bus_ok σ'.
Proof.
  intros Hok H. step_cases H; try assumption.
  all: try (by eapply bus_ok_once_enter).
  all: try (by eapply bus_ok_close_queue).
  all: try (by eapply bus_ok_subscribe).
  all: try (by eapply bus_ok_set_closer).
  all: try (eapply bus_ok_set_closer; [by eapply bus_ok_close_queue|done]).
  all: try (destruct Hok; split; simpl; done).
  all: try (destruct Hok; split; simpl; try done; data_move_heap; done).
  destruct Hok; split; simpl; try done.
  - intros k. rewrite subscribers_empty. apply NoDup_nil_2.
  - intros k s. by rewrite subscribers_empty, elem_of_nil.
Qed.

(** The registry is well formed in every reachable state. *)
Lemma reachable_bus_ok σ : reachable σ → bus_ok σ.
Proof.
  induction 1 as [|l σ σ' evs _ IH Hs] using reachable_invariant.
  - split; simpl; try done.
    + intros k. rewrite subscribers_empty. apply NoDup_nil_2.
    + intros k s. by rewrite subscribers_empty, elem_of_nil.
  - by eapply bus_ok_step.
Qed.

(** ** [Close] and the wait group *)

Lemma live_workers_insert h s x x' :
  h !! s = Some x →
  live_workers (<[s:=x']> h) + live x = live_workers h + live x'.
Proof.
  unfold live_workers. revert s. induction h as [|y h IH]; intros [|s] Hs;
    simplify_eq/=; [lia|].
  specialize (IH s Hs). lia.
Qed.

Lemma live_workers_snoc h x :
  live_workers (h ++ [x]) = live_workers h + live x.
Proof.
  unfold live_workers. rewrite sum_list_with_app. simpl. lia.
Qed.

Lemma close_ok_frame σ σ' :
  close_ok σ → closer σ' = closer σ → wg σ' = wg σ →
  (∀ s, once <$> heap σ !! s = Some OnceDone →
        once <$> heap σ' !! s = Some OnceDone) →
  (∀ s, once <$> heap σ' !! s = Some OnceIdle →
        once <$> heap σ !! s = Some OnceIdle) →
  live_workers (heap σ') = live_workers (heap σ) →
  close_ok σ'.
Proof.
  intros [Hcap Hidle Hdone Herr Hwg] Hc Hw HD HI Hl.
  split; rewrite ?Hc, ?Hw, ?Hl; try done.
  - intros c Hcl. destruct (Hcap c Hcl) as (past & Hp & Hpast).
    exists past. eauto.
  - eauto.
Qed.

Lemma live_worker x x' : worker x' = worker x → live x' = live x.
Proof. unfold live. by intros ->. Qed.

Lemma live_workers_store h n x x' :
  h !! n = Some x → live x' = live x →
  live_workers (<[n:=x']> h) = live_workers h.
Proof.
  intros Hn Hw. pose proof (live_workers_insert h n x x' Hn) as Hl. lia.
Qed.

Lemma worker_recv_live x x' b :
  worker_recv x = Some (x', b) → live x = 1 ∧ live x' = if b then 0 else 1.
Proof.
  unfold worker_recv, live. destruct (worker x) eqn:E; try done.
  destruct (ch x); [destruct (ch_closed x); [|done]|]; intros [= <- <-];
    simpl; by rewrite ?E.
Qed.

Lemma handler_return_live x x' :
  handler_return x = Some x' → live x' = live x.
Proof.
  unfold handler_return, live. repeat case_match; try done; by intros [= <-].
Qed.

Lemma lookup_store_once (h : list subscription) n x x' s o :
  h !! n = Some x → once <$> <[n:=x']> h !! s = Some o →
  (s ≠ n ∧ once <$> h !! s = Some o) ∨ (s = n ∧ o = once x').
Proof.
  intros Hn. destruct (decide (n = s)) as [->|Hne].
  - rewrite list_lookup_insert_eq by by eapply lookup_lt_Some.
    intros [= <-]. by right.
  - rewrite list_lookup_insert_ne by done. by left.
Qed.

Lemma lookup_store_once_2 (h : list subscription) n x x' s o :
  h !! n = Some x → once <$> h !! s = Some o →
  once <$> <[n:=x']> h !! s = Some (if decide (s = n) then once x' else o).
Proof.
  intros Hn Hs. case_decide as Hd.
  - subst s. by rewrite list_lookup_insert_eq by by eapply lookup_lt_Some.
  - by rewrite list_lookup_insert_ne.
Qed.

Lemma close_ok_once_enter σ s x b :
  close_ok σ → heap σ !! s = Some x → once x = OnceIdle →
  close_ok (set_subs (remove_from_registry s (subject x) (subs σ))
              (store s (set_once (OnceRunning b) x) σ)).
Proof.
  intros Hok Hx Ho. eapply close_ok_frame; [done|done|done|simpl..].
  - intros k Hk. erewrite lookup_store_once_2; [|done..].
    case_decide; [|done]. subst k. rewrite Hx in Hk. simpl in Hk. congruence.
  - intros k Hk. apply (lookup_store_once _ _ _ _ _ _ Hx) in Hk as [[_ Hk]|[_ He]];
      [done|simpl in He; discriminate].
  - by eapply live_workers_store.
Qed.

Lemma close_ok_close_queue σ s x :
  close_ok σ → heap σ !! s = Some x →
  close_ok (store s (close_queue x) σ).
Proof.
  intros Hok Hx. eapply close_ok_frame; [done|done|done|simpl..].
  - intros k Hk. erewrite lookup_store_once_2; [|done..]. by case_decide.
  - intros k Hk. apply (lookup_store_once _ _ _ _ _ _ Hx) in Hk as [[_ Hk]|[_ He]];
      [done|simpl in He; discriminate].
  - by eapply live_workers_store.
Qed.

Lemma close_ok_subscribe σ subj h :
  bus_ok σ → close_ok σ → closed σ = false →
  close_ok (State (<[subj := subscribers subj (subs σ) ++ [length (heap σ)]]>
                     (subs σ)) false (S (wg σ))
              (heap σ ++ [new_subscription subj h]) (pubs σ) (closer σ)
              (panicked σ)).
Proof.
  intros Hbus [Hcap Hidle Hdone Herr Hwg] Hop.
  assert (closer σ = None) as Hn.
  { destruct (closer σ) eqn:E; [|done].
    assert (closed σ = true) by (apply (bus_closed _ Hbus); by eexists).
    congruence. }
  split; simpl; rewrite ?Hn; try done.
  rewrite live_workers_snoc, Hwg. unfold live. simpl. lia.
Qed.

Lemma close_ok_worker_exit σ s x x' :
  close_ok σ → heap σ !! s = Some x → worker_recv x = Some (x', true) →
  close_ok (set_wg (wg σ - 1) (store s x' σ)).
Proof.
  intros [Hcap Hidle Hdone Herr Hwg] Hx Hr.
  pose proof (live_workers_insert _ _ _ x' Hx) as Hl.
  destruct (worker_recv_live _ _ _ Hr) as [Hl1 Hl2]. rewrite Hl1, Hl2 in Hl.
  split; simpl; try done; try data_move_heap; try done.
  - intros c Hc Hpc. rewrite (Hdone c Hc Hpc). done.
  - lia.
Qed.

Lemma close_ok_enter σ keys :
  bus_ok σ → close_ok σ → closed σ = false →
  keys ≡ₚ (map_to_list (subs σ)).*1 →
  let toClose := keys ≫= (λ k, subscribers k (subs σ)) in
  close_ok (State ∅ true (wg σ) (heap σ) (pubs σ)
              (Some (CloseCall (CUnsub toClose) false toClose)) (panicked σ)).
Proof.
  intros Hbus [Hcap Hidle Hdone Herr Hwg] Hop Hkeys toClose.
  split; simpl; try done.
  - intros c [= <-]. simpl. exists []. split; [done|].
    intros s Hs. by apply elem_of_nil in Hs.
  - intros c [= <-] s Hs. simpl. unfold toClose.
    destruct (bus_idle _ Hbus Hop s Hs) as (k & _ & Hin).
    apply list_elem_of_bind. exists k. split; [done|].
    rewrite Hkeys. unfold subscribers in Hin.
    destruct (subs σ !! k) as [l|] eqn:Hk; [|by apply elem_of_nil in Hin].
    apply list_elem_of_fmap. exists (k, l). split; [done|].
    by apply elem_of_map_to_list.
  - by intros c [= <-] [|].
  - by intros c e [= <-].
Qed.

Lemma close_ok_step l σ σ' evs :
  bus_ok σ → close_ok σ → step l σ = Some (σ', evs) → close_ok σ'.
Proof.
  intros Hbus Hok H. step_cases H; try assumption.
  all: try (by eapply close_ok_once_enter).
  all: try (by eapply close_ok_close_queue).
  all: try (by eapply close_ok_subscribe).
  all: try (by eapply close_ok_worker_exit).
  all: try (by eapply close_ok_enter).
  all: try (eapply close_ok_frame; [done|done|done|simpl..]; done).
  all: try (eapply close_ok_frame; [done|done|done|simpl..];
            data_move_heap; try done; eapply live_workers_store; [done|];
            first [by apply live_worker
                  |by eapply handler_return_live
                  |match goal with
                   | H : worker_recv _ = Some _ |- _ =>
                       by destruct (worker_recv_live _ _ _ H) as [-> ->]
                   end]).
  all: try match goal with
       | |- close_ok (set_closer _ (store ?n (close_queue ?x) ?σ)) =>
           let Hq := fresh "Hq" in
           assert (close_ok (store n (close_queue x) σ)) as Hq
             by (by eapply close_ok_close_queue);
           destruct Hq as [_ _ _ _ Hwg'];
           assert (once <$> heap (store n (close_queue x) σ) !! n
                   = Some OnceDone) as Hdn
             by (simpl; rewrite list_lookup_insert_eq
                   by (by eapply lookup_lt_Some); done);
           assert (∀ k, once <$> heap σ !! k = Some OnceDone →
                        once <$> heap (store n (close_queue x) σ) !! k
                        = Some OnceDone) as Hkeep
             by (intros k Hk; simpl; erewrite lookup_store_once_2; [|done..];
                 by case_decide);
           assert (∀ k, once <$> heap (store n (close_queue x) σ) !! k
                        = Some OnceIdle →
                        k ≠ n ∧ once <$> heap σ !! k = Some OnceIdle) as Hrefl
             by (intros k Hk; simpl in Hk;
                 eapply lookup_store_once in Hk as [[? ?]|[_ He]];
                 [done|simpl in He; discriminate|done])
       end.
  all: destruct Hok as [Hcap Hidle Hdone Herr Hwg].
  all: try match goal with
       | Hc : closer _ = Some ?c |- _ =>
           specialize (Hcap c Hc); specialize (Hidle c Hc);
           specialize (Hdone c Hc);
           pose proof (λ e, Herr c e Hc) as Herr'; clear Herr
       end.
  all: repeat match goal with
       | Hpc : c_pc _ = _ |- _ => rewrite Hpc in *; clear Hpc
       end.
  all: simpl in *.
  all: split; simpl.
  all: try (intros c' [= <-]; simpl).
  all: try (intros c' e [= <-]; simpl).
  all: try done.
  all: try (by intros [|]).
  all: try (intros; by apply Hdone; eauto).
  all: try (intros; by eapply Herr').
  - destruct Hcap as (past & Hp & Hpast). exists (past ++ [n]).
    split; [by rewrite <-(assoc_L (++))|].
    intros k [Hk| ->%list_elem_of_singleton]%elem_of_app; eauto.
  - intros k [Hne Hk]%Hrefl. apply Hidle in Hk.
    by apply elem_of_cons in Hk as [|].
  - destruct Hcap as (past & Hp & Hpast). exists (past ++ [n]).
    split; [by rewrite <-(assoc_L (++))|].
    intros k [Hk| ->%list_elem_of_singleton]%elem_of_app; [eauto|].
    match goal with
    | Hx : heap _ !! _ = Some ?x, Ho : once ?x = OnceDone |- _ =>
        by rewrite Hx; simpl; rewrite Ho
    end.
  - intros k Hk. pose proof (Hidle k Hk) as [->|]%elem_of_cons; [|done].
    match goal with
    | Hx : heap _ !! _ = Some ?x, Ho : once ?x = OnceDone |- _ =>
        rewrite Hx in Hk; simpl in Hk; congruence
    end.
  - intros Hpc. by destruct (Herr' e Hpc) as [-> _].
  - by intros [= <-].
Qed.

(** [Close] is well formed in every reachable state. *)
Lemma reachable_close_ok σ : reachable σ → close_ok σ.
Proof.
  intros Hr. induction Hr as [|l σ σ' evs Hr IH Hs] using reachable_invariant.
  - by split.
  - eapply close_ok_step; [|done..]. by apply reachable_bus_ok.
Qed.

(** ** Calls of [Publish] and the messages they hand over *)

Lemma enqueue_sent t x x' :
  enqueue t x = EnqDone x' → sent x' = sent x ++ [t].
Proof. unfold enqueue. repeat case_match; try done; by intros [= <-]. Qed.

Lemma blocked_send_sent x x' :
  blocked_send x = Some x' → sent x' = sent x.
Proof. unfold blocked_send. repeat case_match; try done; by intros [= <-]. Qed.

Lemma worker_recv_sent x x' b :
  worker_recv x = Some (x', b) → sent x' = sent x.
Proof.
  unfold worker_recv. destruct (worker x); try done.
  destruct (ch x); [destruct (ch_closed x); [|done]|]; by intros [= <- <-].
Qed.

Lemma handler_return_sent x x' :
  handler_return x = Some x' → sent x' = sent x.
Proof. unfold handler_return. repeat case_match; try done; by intros [= <-]. Qed.

Lemma pubs_ok_frame σ σ' :
  pubs_ok σ → pubs σ' = pubs σ →
  (∀ s, sent <$> heap σ' !! s = sent <$> heap σ !! s) →
  (∀ s, subject <$> heap σ' !! s = subject <$> heap σ !! s) →
  pubs_ok σ'.
Proof.
  intros [H1 H2 H3 H4 H5 H6] Hp Hs Hj.
  split; rewrite ?Hp; try setoid_rewrite Hs; try setoid_rewrite Hj; done.
Qed.

Ltac sent_facts :=
  match goal with
  | H : blocked_send _ = Some _ |- _ => pose proof (blocked_send_sent _ _ H)
  | H : worker_recv _ = Some _ |- _ => pose proof (worker_recv_sent _ _ _ H)
  | H : handler_return _ = Some _ |- _ => pose proof (handler_return_sent _ _ H)
  end.

Lemma pubs_ok_subscribe σ subj h :
  pubs_ok σ →
  pubs_ok (State (<[subj := subscribers subj (subs σ) ++ [length (heap σ)]]>
                    (subs σ)) false (S (wg σ))
             (heap σ ++ [new_subscription subj h]) (pubs σ) (closer σ)
             (panicked σ)).
Proof.
  intros [H1 H2 H3 H4 H5 H6]. split; simpl; try done.
  - intros p c Hp. destruct (H1 p c Hp) as (past & Hs & Hpast).
    exists past. split; [done|]. intros s (l & Hl & Hin)%Hpast.
    exists l. rewrite lookup_snoc_proj. eauto.
  - intros p c s Hp Hs. rewrite lookup_snoc_proj. eauto.
  - intros s l q m [Hl|[-> <-]]%lookup_snoc_proj Hin; [eauto|].
    by apply elem_of_nil in Hin.
  - intros s l [Hl|[-> <-]]%lookup_snoc_proj; [eauto|]. apply NoDup_nil_2.
Qed.

Lemma pubs_ok_publish σ subj m :
  bus_ok σ → pubs_ok σ →
  let l := subscribers subj (subs σ) in
  pubs_ok (set_pubs (pubs σ ++ [PublishCall subj m l false l]) σ).
Proof.
  intros Hbus [H1 H2 H3 H4 H5 H6] l. split; simpl; try done.
  - intros p c [Hp|[_ Hp]]%lookup_app_Some; [eauto|].
    apply list_lookup_singleton_Some in Hp as [_ <-]. simpl.
    exists []. split; [done|]. intros s Hs. by apply elem_of_nil in Hs.
  - intros p c [Hp|[_ Hp]]%lookup_app_Some; [eauto|].
    apply list_lookup_singleton_Some in Hp as [_ <-]. simpl.
    apply (bus_nodup _ Hbus).
  - intros p c [Hp|[_ Hp]]%lookup_app_Some; [eauto|].
    by apply list_lookup_singleton_Some in Hp as [_ <-].
  - intros p c s [Hp|[_ Hp]]%lookup_app_Some; [eauto|].
    apply list_lookup_singleton_Some in Hp as [_ <-]. simpl.
    intros Hs. by apply (bus_reg _ Hbus) in Hs as [].
  - intros s l' q m' Hl Hin. destruct (H5 s l' q m' Hl Hin) as (c & Hc & Hrest).
    exists c. split; [by apply lookup_app_l_Some|done].
Qed.

Lemma pubs_ok_return σ p c :
  pubs_ok σ → pubs σ !! p = Some c → p_copy c = [] →
  pubs_ok (store_pub p (set_ret true c) σ).
Proof.
  intros [H1 H2 H3 H4 H5 H6] Hp Hc. split; simpl; try done.
  - intros q d [(-> & <- & _)|[_ Hq]]%list_lookup_insert_Some; simpl; eauto.
  - intros q d [(-> & <- & _)|[_ Hq]]%list_lookup_insert_Some; simpl; eauto.
  - intros q d [(-> & <- & _)|[_ Hq]]%list_lookup_insert_Some; simpl; eauto.
  - intros q d s [(-> & <- & _)|[_ Hq]]%list_lookup_insert_Some; simpl; eauto.
  - intros s l q m Hl Hin. destruct (H5 s l q m Hl Hin) as (d & Hd & Hrest).
    destruct (decide (q = p)) as [->|Hne].
    + exists (set_ret true c). rewrite list_lookup_insert_eq
        by (by eapply lookup_lt_Some). by simplify_eq.
    + exists d. by rewrite list_lookup_insert_ne.
Qed.

Lemma pubs_ok_enqueue σ p c s rest x x' :
  pubs_ok σ → pubs σ !! p = Some c → p_copy c = s :: rest →
  heap σ !! s = Some x → enqueue (p, p_msg c) x = EnqDone x' →
  pubs_ok (store_pub p (set_copy rest c) (store s x' σ)).
Proof.
  intros [H1 H2 H3 H4 H5 H6] Hp Hc Hx He.
  pose proof (enqueue_sent _ _ _ He) as Hsent.
  pose proof (enqueue_frame _ _ _ He) as (Hsubj & _).
  assert (∀ k, subject <$> <[s:=x']> (heap σ) !! k = subject <$> heap σ !! k)
    as Hj by (intros; by eapply lookup_store_same).
  assert (∀ k, k ≠ s → sent <$> <[s:=x']> (heap σ) !! k = sent <$> heap σ !! k)
    as Hother by (intros; by rewrite list_lookup_insert_ne).
  assert (sent <$> <[s:=x']> (heap σ) !! s = Some (sent x ++ [(p, p_msg c)]))
    as Hs.
  { rewrite list_lookup_insert_eq by (by eapply lookup_lt_Some).
    simpl. by rewrite Hsent. }
  assert (∀ k l t, sent <$> heap σ !! k = Some l → t ∈ l →
            ∃ l', sent <$> <[s:=x']> (heap σ) !! k = Some l' ∧ t ∈ l') as Hmono.
  { intros k l t Hl Hin. destruct (decide (k = s)) as [->|Hne].
    - rewrite Hs. eexists; split; [done|]. rewrite Hx in Hl.
      injection Hl as <-. set_solver.
    - rewrite Hother by done. eauto. }
  destruct (H1 p c Hp) as (past & Hsnap & Hpast).
  pose proof (H2 p c Hp) as Hnd. rewrite Hsnap, Hc in Hnd.
  apply NoDup_app in Hnd as (_ & Hdisj & [Hnotin _]%NoDup_cons).
  split; simpl.
  - intros q d [(-> & <- & _)|[Hne Hq]]%list_lookup_insert_Some; simpl.
    + exists (past ++ [s]). rewrite Hsnap, Hc.
      split; [by rewrite <-(assoc_L (++))|].
      intros k [Hk| ->%list_elem_of_singleton]%elem_of_app.
      * destruct (Hpast k Hk) as (l & Hl & Hin). eauto.
      * rewrite Hs. eexists; split; [done|]. set_solver.
    + destruct (H1 q d Hq) as (past' & Hsnap' & Hpast').
      exists past'. split; [done|]. intros k Hk.
      destruct (Hpast' k Hk) as (l & Hl & Hin). eauto.
  - intros q d [(-> & <- & _)|[_ Hq]]%list_lookup_insert_Some; simpl; eauto.
  - intros q d [(-> & <- & _)|[_ Hq]]%list_lookup_insert_Some; simpl; eauto.
    intros Hr. by erewrite H3 in Hc.
  - intros q d k [(-> & <- & _)|[_ Hq]]%list_lookup_insert_Some; simpl;
      rewrite Hj; eauto.
  - intros k l q m Hl Hin.
    assert (∃ d, pubs σ !! q = Some d ∧ m = p_msg d ∧ k ∈ p_snapshot d ∧
                 (q = p → k ∉ rest) ∧ (q ≠ p → k ∉ p_copy d))
      as (d & Hd & Hm & Hk & Hcopy1 & Hcopy2).
    { destruct (decide (k = s)) as [->|Hne].
      - rewrite Hs in Hl. injection Hl as <-.
        apply elem_of_app in Hin as [Hin|[= -> ->]%list_elem_of_singleton].
        + destruct (H5 s (sent x) q m) as (d & Hd & Hm & Hk & Hnc);
            [by rewrite Hx|done|].
          exists d. do 3 (split; [done|]). split; [|done].
          intros ->. simplify_eq. rewrite Hc in Hnc. set_solver.
        + exists c. do 2 (split; [done|]). split; [|done].
          rewrite Hsnap, Hc. set_solver.
      - rewrite Hother in Hl by done.
        destruct (H5 k l q m Hl Hin) as (d & Hd & Hm & Hk & Hnc).
        exists d. do 3 (split; [done|]). split; [|done].
        intros ->. simplify_eq. rewrite Hc in Hnc. set_solver. }
    destruct (decide (q = p)) as [->|Hne].
    + exists (set_copy rest c). simplify_eq.
      rewrite list_lookup_insert_eq by (by eapply lookup_lt_Some).
      split_and!; eauto.
    + exists d. rewrite list_lookup_insert_ne by done. eauto.
  - intros k l Hl. destruct (decide (k = s)) as [->|Hne].
    + rewrite Hs in Hl. injection Hl as <-. rewrite fmap_app. simpl.
      apply NoDup_app. split_and!.
      * apply (H6 s). by rewrite Hx.
      * intros q Hq ->%list_elem_of_singleton.
        apply list_elem_of_fmap in Hq as ([q m] & -> & Hin). simpl in *.
        destruct (H5 s (sent x) q m) as (d & Hd & Hm & Hk & Hnc);
          [by rewrite Hx|done|].
        simplify_eq. rewrite Hc in Hnc. set_solver.
      * apply NoDup_singleton.
    + rewrite Hother in Hl by done. eauto.
Qed.

Lemma pubs_ok_step l σ σ' evs :
  bus_ok σ → pubs_ok σ → step l σ = Some (σ', evs) → pubs_ok σ'.
Proof.
  intros Hbus Hok H. step_cases H; try assumption.
  all: try (by eapply pubs_ok_subscribe).
  all: try (by eapply pubs_ok_publish).
  all: try (by eapply pubs_ok_return).
  all: try (by eapply pubs_ok_enqueue).
  all: try (eapply pubs_ok_frame; [done|done|simpl..]; done).
  all: try (data_move_facts; sent_facts;
            eapply pubs_ok_frame; [done|done|simpl..]; intros k;
            by eapply lookup_store_same).
  all: try (eapply pubs_ok_frame; [done|done|simpl..]; intros k;
            by eapply lookup_store_same).
Qed.

(** The calls of [Publish] are well formed in every reachable state. *)
Lemma reachable_pubs_ok σ : reachable σ → pubs_ok σ.
Proof.
  intros Hr. induction Hr as [|l σ σ' evs Hr IH Hs] using reachable_invariant.
  - split; simpl; try done.
  - eapply pubs_ok_step; [|done..]. by apply reachable_bus_ok.
Qed.

(** ** What never goes back *)

Lemma sub_le_refl x : sub_le x x.
Proof. by split. Qed.

Lemma sub_le_trans x y z : sub_le x y → sub_le y z → sub_le x z.
Proof.
  intros [A1 A2 A3 A4 A5 A6 A7 A8] [B1 B2 B3 B4 B5 B6 B7 B8].
  split; try congruence; try (by etrans); eauto.
Qed.

Lemma sub_move_le x y : sub_move x y → sub_le x y.
Proof.
  intros [t x' H|x' H|x' b H|x' H|b H|b H].
  - pose proof (enqueue_sent _ _ _ H) as Hs. unfold enqueue in H.
    repeat case_match; try done; injection H as <-; split; simpl in *; try done;
      by apply prefix_app_r.
  - unfold blocked_send in H.
    repeat case_match; try done; injection H as <-; by split.
  - unfold worker_recv in H. destruct (worker x) eqn:E; try done.
    destruct (ch x); [destruct (ch_closed x); [|done]|];
      injection H as <- <-; split; simpl; try done; try congruence.
    by apply prefix_app_r.
  - unfold handler_return in H. destruct (worker x) eqn:E; try done.
    injection H as <-. split; simpl; try done; congruence.
  - split; simpl; try done. congruence.
  - split; simpl; try done.
Qed.

Lemma step_heap_le l σ σ' evs s x :
  step l σ = Some (σ', evs) → heap σ !! s = Some x →
  ∃ x', heap σ' !! s = Some x' ∧ sub_le x x'.
Proof.
  intros Hs Hx.
  apply step_heap in Hs as [Hh|[(subj & h & Hh)|(s0 & x0 & x' & H0 & Hh & Hm)]];
    rewrite Hh.
  - exists x. split; [done|apply sub_le_refl].
  - exists x. split; [by apply lookup_app_l_Some|apply sub_le_refl].
  - destruct (decide (s = s0)) as [->|Hne].
    + exists x'. rewrite list_lookup_insert_eq by (by eapply lookup_lt_Some).
      split; [done|]. apply sub_move_le. congruence.
    + exists x. rewrite list_lookup_insert_ne by done.
      split; [done|apply sub_le_refl].
Qed.

Lemma run_heap_le ls σ σ' evs s x :
  run ls σ = Some (σ', evs) → heap σ !! s = Some x →
  ∃ x', heap σ' !! s = Some x' ∧ sub_le x x'.
Proof.
  revert σ evs x. induction ls as [|l ls IH]; intros σ evs x Hrun Hx.
  - injection Hrun as <- <-. exists x. split; [done|apply sub_le_refl].
  - simpl in Hrun. destruct (step l σ) as [[σ1 e1]|] eqn:Hs; [|done].
    destruct (run ls σ1) as [[σ2 e2]|] eqn:Hr; [|done].
    injection Hrun as <- <-.
    destruct (step_heap_le _ _ _ _ _ _ Hs Hx) as (x1 & Hx1 & Hle1).
    destruct (IH _ _ _ Hr Hx1) as (x2 & Hx2 & Hle2).
    exists x2. split; [done|by eapply sub_le_trans].
Qed.

Lemma pub_le_refl c : pub_le c c.
Proof. by split. Qed.

Lemma pub_le_trans c1 c2 c3 : pub_le c1 c2 → pub_le c2 c3 → pub_le c1 c3.
Proof.
  intros [A1 A2 A3 A4 A5] [B1 B2 B3 B4 B5].
  split; try congruence; try (by etrans); eauto.
Qed.

Lemma step_pub_le l σ σ' evs p c :
  step l σ = Some (σ', evs) → pubs σ !! p = Some c →
  ∃ c', pubs σ' !! p = Some c' ∧ pub_le c c'.
Proof.
  intros H Hp. step_cases H; simpl;
    try (exists c; split; [done|apply pub_le_refl]).
  - exists c. split; [by apply lookup_app_l_Some|apply pub_le_refl].
  - match goal with
    | |- context [<[?q:=set_copy ?l ?d]> _] =>
        destruct (decide (p = q)) as [->|Hne];
        [exists (set_copy l d)|exists c]
    end.
    + rewrite list_lookup_insert_eq by (by eapply lookup_lt_Some).
      split; [done|]. simplify_eq. split; simpl; try done.
      match goal with Hc : p_copy _ = _ |- _ => rewrite Hc end.
      by apply suffix_cons_r.
    + rewrite list_lookup_insert_ne by done. split; [done|apply pub_le_refl].
  - match goal with
    | |- context [<[?q:=set_ret true ?d]> _] =>
        destruct (decide (p = q)) as [->|Hne];
        [exists (set_ret true d)|exists c]
    end.
    + rewrite list_lookup_insert_eq by (by eapply lookup_lt_Some).
      split; [done|]. simplify_eq. by split.
    + rewrite list_lookup_insert_ne by done. split; [done|apply pub_le_refl].
Qed.

Lemma run_pub_le ls σ σ' evs p c :
  run ls σ = Some (σ', evs) → pubs σ !! p = Some c →
  ∃ c', pubs σ' !! p = Some c' ∧ pub_le c c'.
Proof.
  revert σ evs c. induction ls as [|l ls IH]; intros σ evs c Hrun Hp.
  - injection Hrun as <- <-. exists c. split; [done|apply pub_le_refl].
  - simpl in Hrun. destruct (step l σ) as [[σ1 e1]|] eqn:Hs; [|done].
    destruct (run ls σ1) as [[σ2 e2]|] eqn:Hr; [|done].
    injection Hrun as <- <-.
    destruct (step_pub_le _ _ _ _ _ _ Hs Hp) as (c1 & Hc1 & Hle1).
    destruct (IH _ _ _ Hr Hc1) as (c2 & Hc2 & Hle2).
    exists c2. split; [done|by eapply pub_le_trans].
Qed.

(** Once [closed] is set it stays set, and the map gains nothing. *)
Lemma step_closed l σ σ' evs :
  step l σ = Some (σ', evs) → closed σ = true →
  closed σ' = true ∧
  (∀ subj s, s ∈ subscribers subj (subs σ') → s ∈ subscribers subj (subs σ)) ∧
  (∀ subj, is_Some (subs σ' !! subj) → is_Some (subs σ !! subj)).
Proof.
  intros H Hc. step_cases H; simpl; try done.
  all: split; [done|split].
  all: try (intros subj s'; rewrite subscribers_remove; case_decide;
            [subst subj; apply swap_remove_elem_of|done]).
  all: intros subj [l' Hl];
       apply remove_from_registry_Some in Hl as [[_ Hl]|(-> & _ & l0 & Hl & _)];
       by eexists.
Qed.

(** ** What a returned call has established *)

Lemma established_step l σ σ' evs ev :
  step l σ = Some (σ', evs) → established ev σ → established ev σ'.
Proof.
  intros Hs. destruct ev as [r|[p|e]|s|r]; simpl; try done.
  - intros (c & Hc & Hr).
    destruct (step_pub_le _ _ _ _ _ _ Hs Hc) as (c' & Hc' & Hle).
    exists c'. split; [done|]. by apply (ple_ret _ _ Hle).
  - intros (x & Hx & Ho)%fmap_Some.
    destruct (step_heap_le _ _ _ _ _ _ Hs Hx) as (x' & Hx' & Hle).
    rewrite Hx'. simpl. f_equal. by apply (le_done _ _ Hle).
  - intros [Hcl Hret]. split; [by eapply step_closed|].
    intros Hr. destruct (Hret Hr) as (c & Hc & Hpc). clear Hret.
    step_cases Hs; simpl; eauto; simplify_eq.
Qed.

Lemma step_establishes l σ σ' evs ev :
  bus_ok σ → step l σ = Some (σ', evs) → ev ∈ evs → established ev σ'.
Proof.
  intros Hbus Hs Hin. step_cases Hs; simpl.
  all: try (by apply elem_of_nil in Hin).
  all: apply list_elem_of_singleton in Hin as ->; simpl; try done.
  - eexists. rewrite list_lookup_insert_eq by (by eapply lookup_lt_Some). done.
  - match goal with
    | Hx : heap _ !! _ = Some ?x, Ho : once ?x = OnceDone |- _ =>
        by rewrite Hx; simpl; rewrite Ho
    end.
  - rewrite list_lookup_insert_eq by (by eapply lookup_lt_Some). done.
  - split; [|by eexists]. apply (bus_closed _ Hbus). by eexists.
  - split; [|by eexists]. apply (bus_closed _ Hbus). by eexists.
Qed.

(** Everything the calls of a schedule returned is established at its end. *)
Lemma run_establishes ls σ σ' evs ev :
  reachable σ → run ls σ = Some (σ', evs) → ev ∈ evs → established ev σ'.
Proof.
  revert σ evs. induction ls as [|l ls IH]; intros σ evs Hr Hrun Hin.
  - injection Hrun as <- <-. by apply elem_of_nil in Hin.
  - simpl in Hrun. destruct (step l σ) as [[σ1 e1]|] eqn:Hs; [|done].
    destruct (run ls σ1) as [[σ2 e2]|] eqn:Hr2; [|done].
    injection Hrun as <- <-. apply elem_of_app in Hin as [Hin|Hin].
    + assert (established ev σ1) as H1
        by (eapply step_establishes; [by apply reachable_bus_ok|done..]).
      clear IH Hs Hin. revert σ1 e2 Hr2 H1.
      induction ls as [|l' ls IH]; intros σ1 e2 Hr2 H1.
      * by injection Hr2 as <- <-.
      * simpl in Hr2. destruct (step l' σ1) as [[σ3 e3]|] eqn:Hs; [|done].
        destruct (run ls σ3) as [[σ4 e4]|] eqn:Hr4; [|done].
        injection Hr2 as <- <-. eapply IH; [done|].
        by eapply established_step.
    + eapply IH; [|done..]. by eapply reachable_step.
Qed.

(** * The properties of the bus *)

(** Membership in a list that is written out. *)
Ltac elem_of_here :=
  repeat first [apply list_elem_of_here | apply list_elem_of_further].

(** ** The closed flag *)

Lemma run_closed ls σ σ' evs :
  closed σ = true → run ls σ = Some (σ', evs) →
  closed σ' = true ∧
  (∀ subj s, s ∈ subscribers subj (subs σ') → s ∈ subscribers subj (subs σ)) ∧
  (∀ subj, is_Some (subs σ' !! subj) → is_Some (subs σ !! subj)).
Proof.
  revert σ evs. induction ls as [|l ls IH]; intros σ evs Hc Hrun.
  - by injection Hrun as <- <-.
  - simpl in Hrun. destruct (step l σ) as [[σ1 e1]|] eqn:Hs; [|done].
    destruct (run ls σ1) as [[σ2 e2]|] eqn:Hr; [|done].
    injection Hrun as <- <-.
    destruct (step_closed _ _ _ _ Hs Hc) as (Hc1 & Hsub1 & Hkey1).
    destruct (IH _ _ Hc1 Hr) as (Hc2 & Hsub2 & Hkey2).
    split_and!; eauto.
Qed.

(** C6.  Whatever operations run on the bus, in whatever interleaving: once
    [closed] is true it stays true, and from then on the subject map gains
    neither a key nor a subscription under a key. *)
Theorem closed_is_final ls σ σ' evs :
  closed σ = true → run ls σ = Some (σ', evs) →
  closed σ' = true ∧
  (∀ subj, is_Some (subs σ' !! subj) → is_Some (subs σ !! subj)) ∧
  (∀ subj s, s ∈ subscribers subj (subs σ') → s ∈ subscribers subj (subs σ)).
Proof.
  intros Hc Hrun. destruct (run_closed _ _ _ _ Hc Hrun) as (? & ? & ?). done.
Qed.

Lemma closed_is_final_witness :
  closed after_close_state = true ∧
  run after_close_schedule after_close_state =
    Some (state_after after_close_schedule after_close_state,
          returns_of after_close_schedule after_close_state) ∧
  closed (state_after after_close_schedule after_close_state) = true ∧
  (∀ subj,
     is_Some (subs (state_after after_close_schedule
                      after_close_state) !! subj) →
     is_Some (subs after_close_state !! subj)) ∧
  (∀ subj s,
     s ∈ subscribers subj (subs (state_after after_close_schedule
                                   after_close_state)) →
     s ∈ subscribers subj (subs after_close_state)).
Proof.
  split; [reflexivity|]. split; [vm_compute; reflexivity|].
  apply (closed_is_final after_close_schedule after_close_state
           (state_after after_close_schedule after_close_state)
           (returns_of after_close_schedule after_close_state)).
  - reflexivity.
  - vm_compute; reflexivity.
Defined.

(** ** Calls on a closed bus *)

(** C4.  After a call of [Close] has returned, with whatever result, every
    call of [Subscribe] and of [Publish] returns [ErrClosed] and leaves the
    state as it was: nothing is registered, no worker starts, nothing is
    enqueued. *)
Theorem post_close_rejection ls σ evs r :
  run ls NewSubPub = Some (σ, evs) → EvClose r ∈ evs →
  (∀ subj h, Subscribe subj h σ = (σ, [EvSubscribe (inr ErrClosed)])) ∧
  (∀ subj m, Publish_copy subj m σ = (σ, [EvPublish (inr ErrClosed)])).
Proof.
  intros Hrun Hin.
  destruct (run_establishes _ _ _ _ _ reachable_init Hrun Hin) as [Hc _].
  unfold Subscribe, Publish_copy. by rewrite Hc.
Qed.

Lemma post_close_rejection_witness :
  run post_close_schedule NewSubPub =
    Some (state_after post_close_schedule NewSubPub,
          returns_of post_close_schedule NewSubPub) ∧
  EvClose (Some ErrCtx) ∈ returns_of post_close_schedule NewSubPub ∧
  (∀ subj h, Subscribe subj h (state_after post_close_schedule NewSubPub) =
             (state_after post_close_schedule NewSubPub,
              [EvSubscribe (inr ErrClosed)])) ∧
  (∀ subj m, Publish_copy subj m (state_after post_close_schedule NewSubPub) =
             (state_after post_close_schedule NewSubPub,
              [EvPublish (inr ErrClosed)])).
Proof.
  assert (EvClose (Some ErrCtx) ∈ returns_of post_close_schedule NewSubPub)
    as Hin by (vm_compute; elem_of_here).
  split; [vm_compute; reflexivity|]. split; [exact Hin|].
  apply (post_close_rejection post_close_schedule
           (state_after post_close_schedule NewSubPub)
           (returns_of post_close_schedule NewSubPub) (Some ErrCtx)).
  - vm_compute; reflexivity.
  - exact Hin.
Defined.

(** ** Unsubscribe *)




(** C10.  A call of [Unsubscribe] on one handle touches nothing else: in
    both of its steps the closed flag, the wait group, the calls in flight
    and every other subscription object (queue, handler, worker) stay as they
    are; every other subscription is registered after the step exactly where
    it was before; the slices of other subjects are untouched; and the key of
    the subject disappears only when the handle was all its slice held. *)
Theorem unsubscribe_frame σ σ' s evs :
  Unsubscribe_enter s σ = Some (σ', evs) ∨
  Unsubscribe_close s σ = Some (σ', evs) →
  closed σ' = closed σ ∧ wg σ' = wg σ ∧ pubs σ' = pubs σ ∧
  closer σ' = closer σ ∧ panicked σ' = panicked σ ∧
  length (heap σ') = length (heap σ) ∧
  (∀ s', s' ≠ s → heap σ' !! s' = heap σ !! s') ∧
  (∀ subj s', s' ≠ s →
     s' ∈ subscribers subj (subs σ') ↔ s' ∈ subscribers subj (subs σ)) ∧
  (∀ subj, subject <$> heap σ !! s ≠ Some subj →
     subs σ' !! subj = subs σ !! subj) ∧
  (∀ subj l, subs σ !! subj = Some l → subs σ' !! subj = None →
     ∀ s', s' ∈ l → s' = s).
Proof.
  unfold Unsubscribe_enter, Unsubscribe_close.
  destruct (heap σ !! s) as [x|] eqn:Hx; simpl; [|by intros [|]].
  intros [H|H]; destruct (once x) as [|[|]|] eqn:Ho; simplify_eq; simpl;
    rewrite ?length_insert.
  all: do 6 (split; [done|]).
  all: split; [by intros; rewrite ?list_lookup_insert_ne|].
  all: try (split_and!; [done|done|by intros; simplify_eq]).
  split_and!.
  - intros subj s' Hne. rewrite subscribers_remove.
    case_decide; [subst subj|done]. split.
    + apply swap_remove_elem_of.
    + by apply swap_remove_other.
  - intros subj Hsubj. unfold remove_from_registry.
    assert (subj ≠ subject x) by congruence.
    destruct (subs σ !! subject x); [|done].
    case_decide; [by rewrite lookup_delete_ne|by rewrite lookup_insert_ne].
  - intros subj l Hl Hnone s' Hin.
    destruct (decide (s' = s)) as [|Hne]; [done|exfalso].
    unfold remove_from_registry in Hnone.
    destruct (decide (subj = subject x)) as [->|Hsubj].
    + rewrite Hl in Hnone. case_decide as Hlen.
      * pose proof (swap_remove_other s l s' Hne Hin) as Hin'.
        destruct (swap_remove s l); [by apply elem_of_nil in Hin'|done].
      * by rewrite lookup_insert_eq in Hnone.
    + destruct (subs σ !! subject x).
      * case_decide; [rewrite lookup_delete_ne in Hnone by done
                     |rewrite lookup_insert_ne in Hnone by done]; congruence.
      * congruence.
Qed.

Lemma unsubscribe_frame_witness :
  let σ := state_after unsubscribe_schedule NewSubPub in
  let σ' := state_after [LUnsubscribe 0] σ in
  (Unsubscribe_enter 0 σ = Some (σ', []) ∨
   Unsubscribe_close 0 σ = Some (σ', [])) ∧
  closed σ' = closed σ ∧ wg σ' = wg σ ∧ pubs σ' = pubs σ ∧
  closer σ' = closer σ ∧ panicked σ' = panicked σ ∧
  length (heap σ') = length (heap σ) ∧
  (∀ s', s' ≠ 0 → heap σ' !! s' = heap σ !! s') ∧
  (∀ subj s', s' ≠ 0 →
     s' ∈ subscribers subj (subs σ') ↔ s' ∈ subscribers subj (subs σ)) ∧
  (∀ subj, subject <$> heap σ !! 0 ≠ Some subj →
     subs σ' !! subj = subs σ !! subj) ∧
  (∀ subj l, subs σ !! subj = Some l → subs σ' !! subj = None →
     ∀ s', s' ∈ l → s' = 0).
Proof.
  intros σ σ'.
  assert (Unsubscribe_enter 0 σ = Some (σ', []) ∨
          Unsubscribe_close 0 σ = Some (σ', [])) as H
    by (left; vm_compute; reflexivity).
  split; [exact H|]. exact (unsubscribe_frame σ σ' 0 [] H).
Defined.

(** ** Close *)

Lemma live_workers_0 h s x :
  live_workers h = 0 → h !! s = Some x → worker x = WExited.
Proof.
  intros H0 Hx. apply list_elem_of_lookup_2 in Hx.
  pose proof (sum_list_with_in x live h Hx) as Hle. unfold live_workers in H0.
  rewrite H0 in Hle. unfold live in Hle. destruct (worker x); [lia|lia|done].
Qed.

(** When [wg] is at zero every worker has left, and left an empty queue. *)
Lemma wg_zero σ s x :
  reachable σ → wg σ = 0 → heap σ !! s = Some x →
  worker x = WExited ∧ ch x = [].
Proof.
  intros Hr H0 Hx.
  assert (worker x = WExited) as Hw.
  { eapply live_workers_0; [|done].
    by rewrite <-(cl_wg _ (reachable_close_ok _ Hr)). }
  split; [done|]. by apply (ok_exited _ (reachable_sub_ok _ _ _ Hr Hx)).
Qed.

(** [wg.Done()] never finds the counter at zero. *)
Lemma wg_positive σ s x :
  reachable σ → heap σ !! s = Some x → worker x ≠ WExited → 0 < wg σ.
Proof.
  intros Hr Hx Hw. destruct (decide (wg σ = 0)) as [H0|]; [|lia].
  by destruct (wg_zero _ _ _ Hr H0 Hx).
Qed.

(** What [Close] collected is fixed when the call gets through, and it is
    taken from the registry. *)
Lemma step_captured l σ σ' evs c' :
  step l σ = Some (σ', evs) → closer σ' = Some c' →
  (∃ c, closer σ = Some c ∧ c_captured c' = c_captured c) ∨
  (∃ keys, c_captured c' = keys ≫= (λ k, subscribers k (subs σ))).
Proof.
  intros Hs Hc. step_cases Hs; simpl in *; simplify_eq; eauto.
Qed.

Lemma reachable_captured σ c s :
  reachable σ → closer σ = Some c → s ∈ c_captured c → is_Some (heap σ !! s).
Proof.
  intros Hr. revert c s.
  induction Hr as [|l σ σ' evs Hr IH Hs] using reachable_invariant;
    intros c' s Hc Hin; [done|].
  destruct (step_captured _ _ _ _ _ Hs Hc) as [(c & Hc0 & Heq)|[keys Heq]].
  - rewrite Heq in Hin. destruct (IH c s Hc0 Hin) as [x Hx].
    destruct (step_heap_le _ _ _ _ _ _ Hs Hx) as (x' & Hx' & _). by exists x'.
  - rewrite Heq in Hin. apply list_elem_of_bind in Hin as (k & Hin & _).
    destruct (bus_reg _ (reachable_bus_ok _ Hr) k s Hin) as [Hsub _].
    destruct (heap σ !! s) as [x|] eqn:Hx; [|done].
    destruct (step_heap_le _ _ _ _ _ _ Hs Hx) as (x' & Hx' & _). by exists x'.
Qed.

(** The loop of [Close] over [toClose] comes to its end: it never waits for
    a handler, a worker or a publisher, only for a caller of [Unsubscribe]
    that runs the body of [once], and that caller has one step left. *)
Lemma close_loop_ends l σ c :
  reachable σ → panicked σ = false → closer σ = Some c → c_pc c = CUnsub l →
  ∃ ls σ' evs c',
    run ls σ = Some (σ', evs) ∧ panicked σ' = false ∧
    closer σ' = Some c' ∧ c_pc c' = CSelect false ∧
    ∀ k, k ∈ ls → k = LCloseStep ∨ ∃ s, k = LUnsubClose s.
Proof.
  revert σ c. induction l as [|s l IH]; intros σ c Hr Hnp Hc Hpc.
  - exists [LCloseStep], (set_closer (Some (set_pc (CSelect false) c)) σ), [],
      (set_pc (CSelect false) c).
    simpl. unfold step, quiet, Close_step. rewrite Hnp, Hc. simpl. rewrite Hpc.
    simpl. split; [done|]. split; [done|]. split; [done|]. split; [done|].
    intros k ->%list_elem_of_singleton. by left.
  - assert (∃ x, heap σ !! s = Some x) as [x Hx].
    { destruct (cl_captured _ (reachable_close_ok _ Hr) c Hc)
        as (past & Hp & Hpast).
      destruct (reachable_captured σ c s Hr Hc) as [x Hx]; [|by exists x].
      rewrite Hp, Hpc. simpl. apply elem_of_app. right. apply elem_of_cons.
      by left. }
    assert (∀ σ1 x1,
              reachable σ1 → panicked σ1 = false → closer σ1 = Some c →
              heap σ1 !! s = Some x1 → once x1 = OnceDone →
              ∃ ls σ' evs c',
                run ls σ1 = Some (σ', evs) ∧ panicked σ' = false ∧
                closer σ' = Some c' ∧ c_pc c' = CSelect false ∧
                ∀ k, k ∈ ls → k = LCloseStep ∨ ∃ s, k = LUnsubClose s)
      as Hpop.
    { intros σ1 x1 Hr1 Hnp1 Hc1 Hx1 Ho1.
      assert (step LCloseStep σ1 =
                Some (set_closer (Some (set_pc (CUnsub l) c)) σ1, [])) as Hs.
      { unfold step, quiet, Close_step. rewrite Hnp1, Hc1. simpl. rewrite Hpc.
        rewrite Hx1. simpl. by rewrite Ho1. }
      destruct (IH (set_closer (Some (set_pc (CUnsub l) c)) σ1)
                  (set_pc (CUnsub l) c))
        as (ls & σ' & evs & c' & Hrun & Hnp' & Hc' & Hpc' & Hls);
        [by eapply reachable_step|done|done|done|].
      exists (LCloseStep :: ls), σ', evs, c'. simpl. rewrite Hs, Hrun.
      split; [done|]. split; [done|]. split; [done|]. split; [done|].
      intros k [->|Hk]%elem_of_cons; [by left|eauto]. }
    destruct (once x) as [|[|]|] eqn:Ho.
    + set (x1 := set_once (OnceRunning true) x).
      set (σ1 := set_subs (remove_from_registry s (subject x) (subs σ))
                   (store s x1 σ)).
      assert (step LCloseStep σ = Some (σ1, [])) as Hs1.
      { unfold step, quiet, Close_step. rewrite Hnp, Hc. simpl. rewrite Hpc.
        rewrite Hx. simpl. by rewrite Ho. }
      assert (heap σ1 !! s = Some x1) as Hx1.
      { simpl. by rewrite list_lookup_insert_eq by (by eapply lookup_lt_Some). }
      set (σ2 := set_closer (Some (set_pc (CUnsub l) c))
                   (store s (close_queue x1) σ1)).
      assert (step LCloseStep σ1 = Some (σ2, [])) as Hs2.
      { unfold step, quiet, Close_step.
        change (panicked σ1) with (panicked σ).
        change (closer σ1) with (closer σ). rewrite Hnp, Hc. simpl.
        rewrite Hpc. simpl in Hx1. rewrite Hx1. done. }
      destruct (IH σ2 (set_pc (CUnsub l) c))
        as (ls & σ' & evs & c' & Hrun & Hnp' & Hc' & Hpc' & Hls);
        [eapply reachable_step; [|exact Hs2]; by eapply reachable_step
        |done|done|done|].
      exists (LCloseStep :: LCloseStep :: ls), σ', evs, c'.
      simpl. rewrite Hs1. simpl. rewrite Hs2, Hrun.
      split; [done|]. split; [done|]. split; [done|]. split; [done|].
      intros k [->|[->|Hk]%elem_of_cons]%elem_of_cons; [by left|by left|eauto].
    + set (σ2 := set_closer (Some (set_pc (CUnsub l) c))
                   (store s (close_queue x) σ)).
      assert (step LCloseStep σ = Some (σ2, [])) as Hs2.
      { unfold step, quiet, Close_step. rewrite Hnp, Hc. simpl. rewrite Hpc.
        rewrite Hx. simpl. by rewrite Ho. }
      destruct (IH σ2 (set_pc (CUnsub l) c))
        as (ls & σ' & evs & c' & Hrun & Hnp' & Hc' & Hpc' & Hls);
        [by eapply reachable_step|done|done|done|].
      exists (LCloseStep :: ls), σ', evs, c'. simpl. rewrite Hs2, Hrun.
      split; [done|]. split; [done|]. split; [done|]. split; [done|].
      intros k [->|Hk]%elem_of_cons; [by left|eauto].
    + set (σ1 := store s (close_queue x) σ).
      assert (step (LUnsubClose s) σ = Some (σ1, [EvUnsubscribe s])) as Hs1.
      { unfold step, Unsubscribe_close. rewrite Hnp, Hx. simpl. by rewrite Ho. }
      destruct (Hpop σ1 (close_queue x))
        as (ls & σ' & evs & c' & Hrun & Hnp' & Hc' & Hpc' & Hls);
        [by eapply reachable_step|done|done| |done|].
      { simpl. by rewrite list_lookup_insert_eq by (by eapply lookup_lt_Some). }
      exists (LUnsubClose s :: ls), σ', (EvUnsubscribe s :: evs), c'.
      simpl. rewrite Hs1, Hrun.
      split; [done|]. split; [done|]. split; [done|]. split; [done|].
      intros k [->|Hk]%elem_of_cons; [right; by eexists|eauto].
    + by eapply Hpop.
Qed.



(** ** Delivery *)

(** How one step changes the [sent] log of a subscription: not at all, or
    by the message of a call of [Publish] that has the subscription next in
    its copy; a subscription that is new starts with an empty log. *)
Lemma step_sent l σ σ' evs s x' :
  step l σ = Some (σ', evs) → heap σ' !! s = Some x' →
  (∃ x, heap σ !! s = Some x ∧
        (sent x' = sent x ∨
         ∃ q c rest, pubs σ !! q = Some c ∧ p_copy c = s :: rest ∧
                     sent x' = sent x ++ [(q, p_msg c)])) ∨
  (heap σ !! s = None ∧ sent x' = []).
Proof.
  intros H Hx'. step_cases H; simpl in Hx'; eauto.
  all: try (apply list_lookup_insert_Some in Hx' as [(-> & <- & _)|[_ Hx']];
            [|by eauto]; left; eexists; split; [done|]).
  all: try (by left).
  - apply lookup_app_Some in Hx' as [Hx'|[Hlen Hx']]; [by eauto|].
    apply list_lookup_singleton_Some in Hx' as [Hs <-]. right.
    split; [|done]. apply lookup_ge_None. lia.
  - right. do 3 eexists. split; [done|]. split; [done|].
    by eapply enqueue_sent.
  - left. by eapply blocked_send_sent.
  - left. by eapply worker_recv_sent.
  - left. by eapply worker_recv_sent.
  - left. by eapply handler_return_sent.
Qed.

(** How one step changes the table of calls: a new call of [Publish] copies
    the slice of its subject as it is registered at that moment. *)
Lemma step_pub_new l σ σ' evs q c' :
  step l σ = Some (σ', evs) → pubs σ' !! q = Some c' →
  (∃ c, pubs σ !! q = Some c ∧ pub_le c c') ∨
  (q = length (pubs σ) ∧
   p_snapshot c' = subscribers (p_subject c') (subs σ)).
Proof.
  intros H Hq. step_cases H; simpl in Hq;
    try (left; exists c'; split; [done|apply pub_le_refl]).
  - apply lookup_app_Some in Hq as [Hq|[Hlen Hq]].
    + left. exists c'. split; [done|apply pub_le_refl].
    + apply list_lookup_singleton_Some in Hq as [Hs <-]. right.
      split; [lia|done].
  - left. apply list_lookup_insert_Some in Hq as [(-> & <- & _)|[_ Hq]].
    + eexists. split; [done|]. split; simpl; try done.
      match goal with Hc : p_copy _ = _ |- _ => rewrite Hc end.
      by apply suffix_cons_r.
    + exists c'. split; [done|apply pub_le_refl].
  - left. apply list_lookup_insert_Some in Hq as [(-> & <- & _)|[_ Hq]].
    + eexists. split; [done|]. by split.
    + exists c'. split; [done|apply pub_le_refl].
Qed.

(** After [Unsubscribe] on [s] is over, no new call of [Publish] has [s] in
    its copy. *)
Lemma run_unsubscribed ls σ1 σ2 evs s :
  reachable σ1 → once <$> heap σ1 !! s = Some OnceDone →
  run ls σ1 = Some (σ2, evs) →
  ∀ q c, pubs σ2 !! q = Some c → length (pubs σ1) ≤ q → s ∉ p_snapshot c.
Proof.
  intros Hr Hd Hrun.
  cut (reachable σ2 ∧ once <$> heap σ2 !! s = Some OnceDone ∧
       ∀ q c, pubs σ2 !! q = Some c → length (pubs σ1) ≤ q →
              s ∉ p_snapshot c); [naive_solver|].
  revert Hrun. revert σ2 evs. revert ls.
  refine (λ ls σ2 evs, run_invariant
    (λ σ, reachable σ ∧ once <$> heap σ !! s = Some OnceDone ∧
          ∀ q c, pubs σ !! q = Some c → length (pubs σ1) ≤ q →
                 s ∉ p_snapshot c) _ ls σ1 σ2 evs _).
  - clear. intros l σ σ' evs (Hr & Hd & Hq) Hs.
    split; [by eapply reachable_step|]. split.
    + by apply (established_step _ _ _ _ (EvUnsubscribe s) Hs).
    + intros q c' Hc' Hle.
      destruct (step_pub_new _ _ _ _ _ _ Hs Hc')
        as [(c & Hc & Hcc)|[-> Hsnap]].
      * rewrite (ple_snapshot _ _ Hcc). eauto.
      * rewrite Hsnap. intros [_ Hin]%(bus_reg _ (reachable_bus_ok _ Hr)).
        congruence.
  - split; [done|]. split; [done|]. intros q c Hc Hle.
    apply lookup_lt_Some in Hc. lia.
Qed.

(** C7.  Once a call of [Unsubscribe] on a handle has returned, every
    message that is ever queued for the subscription or handed to its handler
    comes from a call of [Publish] that had taken its copy before: calls of
    [Publish] are numbered in the order in which they take their copy, and a
    call that starts after the return has a number from [length (pubs σ1)]
    on. *)
Theorem unsubscribe_finality ls1 ls2 σ1 σ2 e1 e2 s x q m :
  run ls1 NewSubPub = Some (σ1, e1) → EvUnsubscribe s ∈ e1 →
  run ls2 σ1 = Some (σ2, e2) → heap σ2 !! s = Some x →
  (q, m) ∈ calls x ∨ (q, m) ∈ ch x ∨ sender x = Some (q, m) →
  q < length (pubs σ1).
Proof.
  intros Hrun1 Hev Hrun2 Hx Hin.
  assert (reachable σ1) as Hr1 by (by exists ls1, e1).
  assert (reachable σ2) as Hr2 by (by eapply reachable_run).
  pose proof (run_establishes _ _ _ _ _ reachable_init Hrun1 Hev) as Hd.
  simpl in Hd.
  assert ((q, m) ∈ sent x) as Hsent.
  { rewrite (ok_sent _ (reachable_sub_ok _ _ _ Hr2 Hx)).
    destruct Hin as [Hin|[Hin|Hin]]; [set_solver|set_solver|].
    rewrite Hin. set_solver. }
  destruct (sent_from _ (reachable_pubs_ok _ Hr2) s (sent x) q m)
    as (c & Hc & _ & Hsnap & _); [by rewrite Hx|done|].
  destruct (decide (q < length (pubs σ1))) as [|Hge]; [done|exfalso].
  eapply (run_unsubscribed ls2 σ1 σ2 e2 s Hr1 Hd Hrun2 q c Hc); [lia|done].
Qed.

Lemma unsubscribe_finality_witness :
  let σ1 := state_after finality_before NewSubPub in
  let σ2 := state_after finality_after σ1 in
  let x := Subscription "topic" [] true 1 OnceDone false WExited None
             [(0, 1)] [(0, 1)] [] in
  run finality_before NewSubPub =
    Some (σ1, returns_of finality_before NewSubPub) ∧
  EvUnsubscribe 0 ∈ returns_of finality_before NewSubPub ∧
  run finality_after σ1 = Some (σ2, returns_of finality_after σ1) ∧
  heap σ2 !! 0 = Some x ∧
  ((0, 1) ∈ calls x ∨ (0, 1) ∈ ch x ∨ sender x = Some (0, 1)) ∧
  0 < length (pubs σ1).
Proof.
  intros σ1 σ2 x.
  assert (run finality_before NewSubPub =
            Some (σ1, returns_of finality_before NewSubPub)) as H1
    by (vm_compute; reflexivity).
  assert (EvUnsubscribe 0 ∈ returns_of finality_before NewSubPub) as H2
    by (vm_compute; elem_of_here).
  assert (run finality_after σ1 = Some (σ2, returns_of finality_after σ1))
    as H3 by (vm_compute; reflexivity).
  assert (heap σ2 !! 0 = Some x) as H4 by (vm_compute; reflexivity).
  assert ((0, 1) ∈ calls x ∨ (0, 1) ∈ ch x ∨ sender x = Some (0, 1)) as H5
    by (left; simpl; elem_of_here).
  split; [exact H1|]. split; [exact H2|]. split; [exact H3|].
  split; [exact H4|]. split; [exact H5|].
  exact (unsubscribe_finality _ _ _ _ _ _ _ _ _ _ H1 H2 H3 H4 H5).
Defined.

(** *** Order *)

(** After a call of [Publish] has returned, what a subscription's [sent] log
    gains comes from other calls. *)
Lemma run_sent_after_return ls σ1 σ2 evs s p c1 :
  reachable σ1 → pubs σ1 !! p = Some c1 → p_copy c1 = [] →
  run ls σ1 = Some (σ2, evs) →
  ∀ x, heap σ2 !! s = Some x →
    ∃ new, sent x = default [] (sent <$> heap σ1 !! s) ++ new ∧
           ∀ q m, (q, m) ∈ new → q ≠ p.
Proof.
  intros Hr Hp Hcopy Hrun.
  set (old := default [] (sent <$> heap σ1 !! s)).
  cut ((∃ c, pubs σ2 !! p = Some c ∧ p_copy c = []) ∧
       (is_Some (heap σ1 !! s) → is_Some (heap σ2 !! s)) ∧
       ∀ x, heap σ2 !! s = Some x →
         ∃ new, sent x = old ++ new ∧ ∀ q m, (q, m) ∈ new → q ≠ p);
    [naive_solver|].
  revert Hrun. revert σ2 evs. revert ls.
  refine (λ ls σ2 evs, run_invariant
    (λ σ, (∃ c, pubs σ !! p = Some c ∧ p_copy c = []) ∧
          (is_Some (heap σ1 !! s) → is_Some (heap σ !! s)) ∧
          ∀ x, heap σ !! s = Some x →
            ∃ new, sent x = old ++ new ∧ ∀ q m, (q, m) ∈ new → q ≠ p)
    _ ls σ1 σ2 evs _).
  - clear Hr Hp Hcopy. intros l σ σ' evs' ((c & Hc & Hcopy) & Hex & Hsent) Hs.
    split_and!.
    + destruct (step_pub_le _ _ _ _ _ _ Hs Hc) as (c' & Hc' & Hle).
      exists c'. split; [done|]. pose proof (ple_copy _ _ Hle) as Hsuf.
      rewrite Hcopy in Hsuf. by apply suffix_nil_inv in Hsuf.
    + intros [x Hx]%Hex.
      destruct (step_heap_le _ _ _ _ _ _ Hs Hx) as (x' & Hx' & _). by eexists.
    + intros x' Hx'.
      destruct (step_sent _ _ _ _ _ _ Hs Hx')
        as [(x & Hx & [Heq|(q & d & rest & Hq & Hd & Heq)])|[Hnone Hnil]].
      * rewrite Heq. eauto.
      * destruct (Hsent x Hx) as (new & Hnew & Hother).
        exists (new ++ [(q, p_msg d)]). rewrite Heq, Hnew.
        split; [by rewrite (assoc_L (++))|].
        intros q' m' [Hin|[= -> ->]%list_elem_of_singleton]%elem_of_app;
          [eauto|].
        intros ->. congruence.
      * exists []. rewrite Hnil. split; [|by intros ?? ?%elem_of_nil].
        unfold old. destruct (heap σ1 !! s) as [x1|] eqn:H1; [|done].
        destruct Hex as [? ?]; [by eexists|congruence].
  - split_and!; [by eexists|done|]. intros x Hx. exists [].
    unfold old. rewrite Hx. simpl. split; [by rewrite (right_id_L [] (++))|].
    by intros ?? ?%elem_of_nil.
Qed.

(** Nothing that is queued is stuck: from a state of a live process the
    worker, the handler and the detached sender of a subscription can run
    until the handler has been called, in order, with all that was in the
    buffer and, if the queue is open, with what the detached sender held. *)
Lemma drain_measure n σ s x :
  reachable σ → panicked σ = false → heap σ !! s = Some x →
  length (ch x) + 2 * length (option_list (sender x)) ≤ n →
  ∃ ls σ' x',
    run ls σ = Some (σ', []) ∧ heap σ' !! s = Some x' ∧ ch x' = [] ∧
    calls x' =
      calls x ++ ch x ++ (if ch_closed x then [] else option_list (sender x)).
Proof.
  revert σ x. induction n as [n IH] using lt_wf_ind. intros σ x Hr Hnp Hx Hn.
  pose proof (reachable_sub_ok _ _ _ Hr Hx) as Hsub.
  assert (∀ l σ1 x1,
            step l σ = Some (σ1, []) → panicked σ1 = false →
            heap σ1 !! s = Some x1 →
            length (ch x1) + 2 * length (option_list (sender x1)) <
              length (ch x) + 2 * length (option_list (sender x)) →
            ∀ rest, calls x1 ++ ch x1 ++
                      (if ch_closed x1 then [] else option_list (sender x1)) =
                    rest →
            ∃ ls σ' x', run ls σ = Some (σ', []) ∧ heap σ' !! s = Some x' ∧
                        ch x' = [] ∧ calls x' = rest) as Hgo.
  { intros l σ1 x1 Hs Hnp1 Hx1 Hlt rest <-.
    destruct (IH (length (ch x1) + 2 * length (option_list (sender x1)))
                ltac:(lia) σ1 x1)
      as (ls & σ' & x' & Hrun & Hx' & Hch & Hcalls);
      [by eapply reachable_step|done|done|lia|].
    exists (l :: ls), σ', x'. simpl. rewrite Hs, Hrun. done. }
  destruct (ch x) as [|t rest] eqn:Hch.
  - destruct (sender x) as [t|] eqn:Hsd; [destruct (ch_closed x) eqn:Hcl|].
    + exists [], σ, x. simpl. rewrite Hch. by rewrite !(right_id_L [] (++)).
    + eapply (Hgo (LSender s)).
      * unfold step, quiet, Sender_step, blocked_send. rewrite Hnp, Hx. simpl.
        rewrite Hsd, Hcl, Hch. simpl. done.
      * done.
      * simpl. rewrite list_lookup_insert_eq by (by eapply lookup_lt_Some).
        done.
      * simpl. lia.
      * simpl. by rewrite Hcl.
    + exists [], σ, x. simpl. rewrite Hch.
      destruct (ch_closed x); by rewrite !(right_id_L [] (++)).
  - destruct (worker x) eqn:Hw.
    + eapply (Hgo (LWorker s)).
      * unfold step, quiet, Worker_step, worker_recv. rewrite Hnp, Hx. simpl.
        rewrite Hw, Hch. done.
      * done.
      * simpl. rewrite list_lookup_insert_eq by (by eapply lookup_lt_Some).
        done.
      * simpl. lia.
      * simpl. by rewrite <-(assoc_L (++)).
    + set (x0 := set_worker WRecv x). set (σ0 := store s x0 σ).
      assert (step (LHandlerRet s) σ = Some (σ0, [])) as Hs0.
      { unfold step, quiet, Handler_step, handler_return. rewrite Hnp, Hx.
        simpl. by rewrite Hw. }
      assert (heap σ0 !! s = Some x0) as Hx0.
      { simpl. by rewrite list_lookup_insert_eq by (by eapply lookup_lt_Some). }
      set (x1 := set_calls (calls x0 ++ [t])
                   (set_worker WHandler (set_ch rest x0))).
      assert (step (LWorker s) σ0 = Some (store s x1 σ0, [])) as Hs1.
      { unfold step, quiet, Worker_step, worker_recv.
        change (panicked σ0) with (panicked σ). rewrite Hnp, Hx0. simpl.
        rewrite Hch. done. }
      destruct (IH (length rest + 2 * length (option_list (sender x)))
                  ltac:(simpl in Hn; lia) (store s x1 σ0) x1)
        as (ls & σ' & x' & Hrun & Hx' & Hch' & Hcalls).
      * eapply reachable_step; [|exact Hs1]. by eapply reachable_step.
      * done.
      * simpl. rewrite list_lookup_insert_eq; [done|].
        rewrite length_insert. by eapply lookup_lt_Some.
      * done.
      * exists (LHandlerRet s :: LWorker s :: ls), σ', x'.
        simpl. rewrite Hs0. simpl. rewrite Hs1, Hrun.
        split; [done|]. split; [done|]. split; [done|].
        rewrite Hcalls. simpl. by rewrite <-(assoc_L (++)).
    + destruct (ok_exited _ Hsub Hw) as [? _]. congruence.
Qed.

(** C1.  FIFO per subscriber.  Let a call [p1] of [Publish] have returned
    nil before a call [p2] of [Publish] starts (calls are numbered as they
    start).  Then whatever else runs, a subscription whose handler is called
    with the messages of both is called with that of [p1] first.  Moreover
    the handler is called with the message of a call at most once and only
    with messages published on its subject by a call that had it in its copy;
    and as long as its queue is open nothing gets lost: the message of a
    returned call that had the subscription in its copy has been handed to
    the handler or waits, in order, in the queue or in the detached sender
    behind it; and what waits is not stuck: worker, handler and detached
    sender can go on until the handler has been called with all of it, in
    that order. *)
Theorem fifo_per_subscriber ls1 ls2 σ1 σ2 e1 e2 s x p1 p2 :
  run ls1 NewSubPub = Some (σ1, e1) → EvPublish (inl p1) ∈ e1 →
  length (pubs σ1) ≤ p2 →
  run ls2 σ1 = Some (σ2, e2) → heap σ2 !! s = Some x →
  (∀ m1 m2 i j, calls x !! i = Some (p1, m1) → calls x !! j = Some (p2, m2) →
                i < j) ∧
  NoDup (calls x).*1 ∧
  (∀ q m, (q, m) ∈ calls x →
     ∃ c, pubs σ2 !! q = Some c ∧ m = p_msg c ∧ p_subject c = subject x ∧
          s ∈ p_snapshot c) ∧
  (∀ c1, pubs σ1 !! p1 = Some c1 → s ∈ p_snapshot c1 → ch_closed x = false →
     (p1, p_msg c1) ∈ calls x ++ ch x ++ option_list (sender x)) ∧
  (panicked σ2 = false →
   ∃ ls3 σ3 x3,
     run ls3 σ2 = Some (σ3, []) ∧ heap σ3 !! s = Some x3 ∧
     calls x3 =
       calls x ++ ch x ++ (if ch_closed x then [] else option_list (sender x))).
Proof.
  intros Hrun1 Hev Hp2 Hrun2 Hx.
  assert (reachable σ1) as Hr1 by (by exists ls1, e1).
  assert (reachable σ2) as Hr2 by (by eapply reachable_run).
  pose proof (reachable_sub_ok _ _ _ Hr2 Hx) as Hsub.
  pose proof (reachable_pubs_ok _ Hr2) as Hpubs2.
  pose proof (reachable_pubs_ok _ Hr1) as Hpubs1.
  destruct (run_establishes _ _ _ _ _ reachable_init Hrun1 Hev)
    as (c1 & Hc1 & Hret).
  pose proof (pub_ret _ Hpubs1 _ _ Hc1 Hret) as Hcopy.
  assert (∀ t, t ∈ calls x → t ∈ sent x) as Hcs
    by (intros t Ht; rewrite (ok_sent _ Hsub); set_solver).
  split_and!.
  - intros m1 m2 i j Hi Hj.
    destruct (run_sent_after_return _ _ _ _ s _ _ Hr1 Hc1 Hcopy Hrun2 x Hx)
      as (new & Hnew & Hother).
    set (old := default [] (sent <$> heap σ1 !! s)) in *.
    assert (sent x !! i = Some (p1, m1)) as Hi'.
    { rewrite (ok_sent _ Hsub). by apply lookup_app_l_Some. }
    assert (sent x !! j = Some (p2, m2)) as Hj'.
    { rewrite (ok_sent _ Hsub). by apply lookup_app_l_Some. }
    rewrite Hnew in Hi', Hj'.
    assert (i < length old) as Hlt.
    { apply lookup_app_Some in Hi' as [Hi'|[_ Hi']];
        [by eapply lookup_lt_Some|].
      apply list_elem_of_lookup_2 in Hi'. by destruct (Hother _ _ Hi'). }
    assert (length old ≤ j); [|lia].
    apply lookup_app_Some in Hj' as [Hj'|[? _]]; [exfalso|done].
    apply list_elem_of_lookup_2 in Hj'. unfold old in Hj'.
    destruct (heap σ1 !! s) as [x1|] eqn:Hx1; [|by apply elem_of_nil in Hj'].
    destruct (sent_from _ Hpubs1 s (sent x1) p2 m2) as (c2 & Hc2 & _);
      [by rewrite Hx1|done|].
    apply lookup_lt_Some in Hc2. lia.
  - pose proof (sent_nodup _ Hpubs2 s (sent x)) as Hnd.
    rewrite Hx in Hnd. specialize (Hnd eq_refl).
    rewrite (ok_sent _ Hsub), fmap_app in Hnd.
    by apply NoDup_app in Hnd as (? & _).
  - intros q m Hin%Hcs.
    destruct (sent_from _ Hpubs2 s (sent x) q m) as (c & Hc & Hm & Hs & _);
      [by rewrite Hx|done|].
    exists c. split_and!; try done.
    pose proof (pub_subj _ Hpubs2 q c s Hc Hs) as Hsubj.
    rewrite Hx in Hsubj. by injection Hsubj.
  - intros c1' Hc1' Hin Hopen. simplify_eq.
    destruct (pub_split _ Hpubs1 _ _ Hc1) as (past & Hsnap & Hpast).
    rewrite Hcopy, (right_id_L [] (++)) in Hsnap. rewrite Hsnap in Hin.
    destruct (Hpast s Hin) as (l & (x1 & Hx1 & ->)%fmap_Some & Hl).
    destruct (run_heap_le _ _ _ _ _ _ Hrun2 Hx1) as (x' & Hx' & Hle).
    simplify_eq.
    assert ((p1, p_msg c1) ∈ sent x) as Hs.
    { destruct (le_sent _ _ Hle) as [k ->]. set_solver. }
    rewrite (ok_sent _ Hsub) in Hs.
    assert (dropped x = []) as Hd.
    { destruct (dropped x) eqn:E; [done|].
      rewrite (ok_dropped _ Hsub) in Hopen; [done|by rewrite E]. }
    rewrite Hd, (right_id_L [] (++)) in Hs. done.
  - intros Hnp.
    destruct (drain_measure _ σ2 s x Hr2 Hnp Hx (le_n _))
      as (ls3 & σ3 & x3 & Hrun3 & Hx3 & _ & Hcalls).
    by exists ls3, σ3, x3.
Qed.

Lemma fifo_per_subscriber_witness :
  let σ1 := state_after fifo_before NewSubPub in
  let σ2 := state_after fifo_after σ1 in
  let x := Subscription "topic" [(2, 2)] false 1 OnceIdle false WHandler None
             [(0, 0); (1, 1); (2, 2)] [(0, 0); (1, 1)] [] in
  run fifo_before NewSubPub = Some (σ1, returns_of fifo_before NewSubPub) ∧
  EvPublish (inl 0) ∈ returns_of fifo_before NewSubPub ∧
  length (pubs σ1) ≤ 1 ∧
  run fifo_after σ1 = Some (σ2, returns_of fifo_after σ1) ∧
  heap σ2 !! 0 = Some x ∧
  (∀ m1 m2 i j, calls x !! i = Some (0, m1) → calls x !! j = Some (1, m2) →
                i < j) ∧
  NoDup (calls x).*1 ∧
  (∀ q m, (q, m) ∈ calls x →
     ∃ c, pubs σ2 !! q = Some c ∧ m = p_msg c ∧ p_subject c = subject x ∧
          0 ∈ p_snapshot c) ∧
  (∀ c1, pubs σ1 !! 0 = Some c1 → 0 ∈ p_snapshot c1 → ch_closed x = false →
     (0, p_msg c1) ∈ calls x ++ ch x ++ option_list (sender x)) ∧
  (panicked σ2 = false →
   ∃ ls3 σ3 x3,
     run ls3 σ2 = Some (σ3, []) ∧ heap σ3 !! 0 = Some x3 ∧
     calls x3 =
       calls x ++ ch x ++ (if ch_closed x then [] else option_list (sender x))).
Proof.
  intros σ1 σ2 x.
  assert (run fifo_before NewSubPub =
            Some (σ1, returns_of fifo_before NewSubPub)) as H1
    by (vm_compute; reflexivity).
  assert (EvPublish (inl 0) ∈ returns_of fifo_before NewSubPub) as H2
    by (vm_compute; elem_of_here).
  assert (length (pubs σ1) ≤ 1) as H3 by (vm_compute; lia).
  assert (run fifo_after σ1 = Some (σ2, returns_of fifo_after σ1)) as H4
    by (vm_compute; reflexivity).
  assert (heap σ2 !! 0 = Some x) as H5 by (vm_compute; reflexivity).
  split; [exact H1|]. split; [exact H2|]. split; [exact H3|].
  split; [exact H4|]. split; [exact H5|].
  exact (fifo_per_subscriber _ _ _ _ _ _ _ _ _ _ H1 H2 H3 H4 H5).
Defined.

(** *** Close and the messages in flight *)

Lemma overflow_runs :
  let σ1 := state_after overflow_before NewSubPub in
  let σ2 := state_after overflow_close σ1 in
  run overflow_before NewSubPub =
    Some (σ1, returns_of overflow_before NewSubPub) ∧
  closed σ1 = false ∧
  EvPublish (inl 65) ∈ returns_of overflow_before NewSubPub ∧
  pubs σ1 !! 65 = Some (PublishCall "t" 65 [] true [0]) ∧
  run overflow_close σ1 = Some (σ2, [EvClose None]) ∧
  heap σ2 !! 0 = Some overflow_end.
Proof.
  intros σ1 σ2. split_and!; try (vm_compute; reflexivity).
  vm_compute. elem_of_here.
Qed.

(** C3, on the code.  [Close] does not wait for a message that is parked in
    the detached sender of [enqueue].  With the handler busy, 64 messages in
    the buffer and message 65 parked, every call of [Publish] has returned
    nil; [Close] closes the queue, the parked send ends in the recovered
    panic, the worker drains the buffer and leaves, and [Close] returns nil
    although message 65 never reached the handler. *)
Theorem close_drains_all_counterexample : ¬ close_drains_all.
Proof.
  intros H. destruct overflow_runs as (H1 & H2 & H3 & H4 & H5 & H6).
  destruct (H overflow_before overflow_close _
              (state_after overflow_close
                 (state_after overflow_before NewSubPub))
              _ [EvClose None] 65 _ 0 H1 H2 H3 H4) as (x & Hx & Hin);
    [simpl; elem_of_here|exact H5|elem_of_here|].
  rewrite H6 in Hx. injection Hx as <-.
  change ((65, 65) ∈ (λ i, (i, i)) <$> seq 0 65) in Hin.
  apply list_elem_of_fmap in Hin as (i & [= Hi _] & Hin%elem_of_seq). lia.
Qed.

(** ** An enqueue that loses the race with a close *)

(** The [select] of [enqueue] panics exactly on a closed channel (when it
    gets [sendMu]); nothing recovers that panic. *)
Lemma enqueue_panics t x :
  enqueue t x = EnqPanic ↔ sendMu x = false ∧ ch_closed x = true.
Proof.
  unfold enqueue. destruct (sendMu x), (ch_closed x); try case_decide;
    naive_solver.
Qed.

(** The detached sender on a closed channel: the panic is recovered, the
    message is dropped and [sendMu] released. *)
Lemma blocked_send_closed t x :
  sender x = Some t → ch_closed x = true →
  blocked_send x =
    Some (set_dropped (dropped x ++ [t]) (set_sender None (set_sendMu false x))).
Proof. unfold blocked_send. by intros -> ->. Qed.

(** C2, on the code.  On the fast path of [enqueue] a queue that was closed
    after the copy was taken is not skipped in silence: the send panics
    outside any [recover], the call of [Publish] never returns and the process
    is dead (no goroutine takes a step any more). *)
Theorem enqueue_after_close_panics :
  (∃ σ, run race_unsubscribe NewSubPub =
          Some (σ, [EvSubscribe (inl 0); EvUnsubscribe 0]) ∧
        panicked σ = true ∧ ∀ l, step l σ = None) ∧
  (∃ σ, run race_close NewSubPub = Some (σ, [EvSubscribe (inl 0)]) ∧
        panicked σ = true ∧ ∀ l, step l σ = None).
Proof.
  split.
  - exists (state_after race_unsubscribe NewSubPub).
    split; [vm_compute; reflexivity|]. split; [reflexivity|].
    intros l. unfold step. reflexivity.
  - exists (state_after race_close NewSubPub).
    split; [vm_compute; reflexivity|]. split; [reflexivity|].
    intros l. unfold step. reflexivity.
Qed.

(** ** A handler that does not return *)

Lemma step_pub_stuck l σ σ' evs p c s rest x :
  step l σ = Some (σ', evs) → pubs σ !! p = Some c → p_copy c = s :: rest →
  heap σ !! s = Some x → ch_closed x = true ∨ sendMu x = true →
  pubs σ' !! p = Some c.
Proof.
  intros H Hp Hc Hx Hor. step_cases H; simpl; try done.
  - by apply lookup_app_l_Some.
  - match goal with
    | |- <[?q:=_]> _ !! _ = _ => destruct (decide (p = q)) as [->|Hne]
    end; [|by rewrite list_lookup_insert_ne].
    simplify_eq.
    match goal with
    | Hc1 : p_copy ?c = _, Hc2 : p_copy ?c = _ |- _ =>
        rewrite Hc1 in Hc2; injection Hc2 as -> ->
    end.
    simplify_eq.
    match goal with
    | He : enqueue _ ?y = EnqDone _ |- _ =>
        unfold enqueue in He; destruct Hor as [Ho|Ho]; rewrite Ho in He;
        by destruct (sendMu y)
    end.
  - match goal with
    | |- <[?q:=_]> _ !! _ = _ => destruct (decide (p = q)) as [->|Hne]
    end; [|by rewrite list_lookup_insert_ne].
    simplify_eq. congruence.
Qed.

Lemma step_sub_stuck l σ σ' evs s x :
  step l σ = Some (σ', evs) → l ≠ LHandlerRet s →
  heap σ !! s = Some x → sub_ok x → worker x = WHandler →
  ch_closed x = true ∨ (sendMu x = true ∧ length (ch x) = capacity) →
  ∃ x', heap σ' !! s = Some x' ∧ worker x' = WHandler ∧
        (ch_closed x' = true ∨ (sendMu x' = true ∧ length (ch x') = capacity)).
Proof.
  intros H Hl Hx Hok Hw Hor. step_cases H; simpl; eauto.
  { exists x. split; [by apply lookup_app_l_Some|done]. }
  all: match goal with
       | |- context [<[?n:=_]> _ !! _] =>
           destruct (decide (n = s)) as [->|Hne];
           [|exists x; by rewrite list_lookup_insert_ne]
       end.
  all: simplify_eq.
  all: rewrite list_lookup_insert_eq by (by eapply lookup_lt_Some).
  all: eexists; split; [done|].
  all: try match goal with
       | He : enqueue _ ?y = EnqDone _ |- _ =>
           exfalso; unfold enqueue in He;
           destruct Hor as [Ho|[Ho _]]; rewrite Ho in He;
           by destruct (sendMu y)
       | He : worker_recv _ = Some _ |- _ =>
           exfalso; unfold worker_recv in He; by rewrite Hw in He
       end.
  all: try done.
  - match goal with
    | He : blocked_send ?y = Some _ |- _ =>
        unfold blocked_send in He; destruct (sender y) as [t|]; [|done];
        destruct (ch_closed y) eqn:Hcl
    end.
    + simplify_eq. simpl. split; [done|]. by left.
    + destruct Hor as [|[_ Hfull]]; [done|].
      match goal with
      | He : (if decide _ then _ else _) = _ |- _ =>
          rewrite decide_False in He by lia; done
      end.
  - simpl. split; [done|]. by left.
  - simpl. split; [done|]. by left.
Qed.

Lemma stuck_on_step p s l σ σ' evs :
  l ≠ LHandlerRet s → stuck_on p s σ → step l σ = Some (σ', evs) →
  stuck_on p s σ'.
Proof.
  intros Hl (Hr & (c & rest & Hp & Hret & Hc) & x & Hx & Hw & Hor) Hs.
  split; [by eapply reachable_step|]. split.
  - exists c, rest. split; [|done].
    eapply step_pub_stuck; [done..|]. naive_solver.
  - eapply step_sub_stuck; [done..|by eapply reachable_sub_ok|done|done].
Qed.

(** While the handler does not return, the call stays where it is. *)
Lemma stuck_on_run p s ls σ σ' evs :
  LHandlerRet s ∉ ls → stuck_on p s σ → run ls σ = Some (σ', evs) →
  stuck_on p s σ'.
Proof.
  revert σ evs. induction ls as [|l ls IH]; intros σ evs Hnot Hst Hrun.
  - by injection Hrun as <- <-.
  - simpl in Hrun. destruct (step l σ) as [[σ1 e1]|] eqn:Hs; [|done].
    destruct (run ls σ1) as [[σ2 e2]|] eqn:Hr; [|done].
    injection Hrun as <- <-. apply not_elem_of_cons in Hnot as [Hne Hnot].
    eapply IH; [done| |done]. eapply stuck_on_step; [|done..]. congruence.
Qed.

Lemma slow_schedule_runs :
  let σ := state_after slow_schedule NewSubPub in
  run slow_schedule NewSubPub = Some (σ, returns_of slow_schedule NewSubPub) ∧
  panicked σ = false ∧
  heap σ !! 0 =
    Some (Subscription "t" ((λ i, (i, i)) <$> seq 1 64) false 1 OnceIdle true
            WHandler (Some (65, 65)) ((λ i, (i, i)) <$> seq 0 66) [(0, 0)] []) ∧
  heap σ !! 1 =
    Some (Subscription "t" [] false 2 OnceIdle false WRecv None
            ((λ i, (i, i)) <$> seq 0 66) ((λ i, (i, i)) <$> seq 0 66) []) ∧
  pubs σ !! 66 = Some (PublishCall "t" 66 [0; 1] false [0; 1]).
Proof. intros σ. split_and!; vm_compute; reflexivity. Qed.

Lemma handler_never_delays_publish_counterexample :
  ¬ handler_never_delays_publish.
Proof.
  intros H. destruct slow_schedule_runs as (H1 & H2 & H3 & _ & H5).
  destruct (H _ _ _ 0 _ 66 _ H1 H2 H3 eq_refl H5 eq_refl)
    as (ls' & σ' & evs' & c' & Hnot & Hrun & Hc' & Hret).
  assert (stuck_on 66 0 (state_after slow_schedule NewSubPub)) as Hst.
  { split; [eexists _, _; exact H1|].
    split; [eexists _, _; split; [exact H5|]; split; reflexivity|].
    eexists. split; [exact H3|]. split; [reflexivity|]. right.
    split; reflexivity. }
  destruct (stuck_on_run _ _ _ _ _ _ Hnot Hst Hrun)
    as (_ & (c & rest & Hc & Hret' & _) & _).
  congruence.
Qed.

(** ... and the call keeps the copy it has. *)
Lemma stuck_on_run_call p s c ls σ σ' evs :
  LHandlerRet s ∉ ls → stuck_on p s σ → pubs σ !! p = Some c →
  run ls σ = Some (σ', evs) → pubs σ' !! p = Some c.
Proof.
  revert σ evs. induction ls as [|l ls IH]; intros σ evs Hnot Hst Hc Hrun.
  - by injection Hrun as <- <-.
  - simpl in Hrun. destruct (step l σ) as [[σ1 e1]|] eqn:Hs; [|done].
    destruct (run ls σ1) as [[σ2 e2]|] eqn:Hr; [|done].
    injection Hrun as <- <-. apply not_elem_of_cons in Hnot as [Hne Hnot].
    eapply IH; [done| | |done].
    + eapply stuck_on_step; [|done..]. congruence.
    + destruct Hst as (_ & (c0 & rest & Hc0 & _ & Hcopy) & x & Hx & _ & Hor).
      simplify_eq. eapply step_pub_stuck; [done..|]. naive_solver.
Qed.

(** C9, on the code.  Two subscribers of one subject: the handler of the
    first does not return from message 0, the second handles everything at
    once.  After 66 calls of [Publish] the buffer of the first is full and
    its detached sender is parked, holding [sendMu].  Call 66 then waits in
    [enqueue] of the first subscriber: as long as that handler does not
    return, whatever else runs, the call does not return, and its message
    is not handed to the second subscriber, whose queue is empty and whose
    worker is waiting. *)
Theorem slow_handler_blocks_publish :
  let σ := state_after slow_schedule NewSubPub in
  let c := PublishCall "t" 66 [0; 1] false [0; 1] in
  run slow_schedule NewSubPub = Some (σ, returns_of slow_schedule NewSubPub) ∧
  panicked σ = false ∧
  heap σ !! 0 =
    Some (Subscription "t" ((λ i, (i, i)) <$> seq 1 64) false 1 OnceIdle true
            WHandler (Some (65, 65)) ((λ i, (i, i)) <$> seq 0 66) [(0, 0)] []) ∧
  heap σ !! 1 =
    Some (Subscription "t" [] false 2 OnceIdle false WRecv None
            ((λ i, (i, i)) <$> seq 0 66) ((λ i, (i, i)) <$> seq 0 66) []) ∧
  pubs σ !! 66 = Some c ∧
  ∀ ls σ' evs,
    LHandlerRet 0 ∉ ls → run ls σ = Some (σ', evs) →
    (EvPublish (inl 66) ∉ evs) ∧ pubs σ' !! 66 = Some c ∧
    ∀ x1, heap σ' !! 1 = Some x1 →
      ((66, 66) ∉ sent x1) ∧ ((66, 66) ∉ ch x1) ∧ ((66, 66) ∉ calls x1).
Proof.
  pose proof slow_schedule_runs as H. cbv zeta in H |- *. revert H.
  generalize (state_after slow_schedule NewSubPub).
  intros σ (H1 & H2 & H3 & H4 & H5).
  split; [exact H1|]. split; [exact H2|]. split; [exact H3|].
  split; [exact H4|]. split; [exact H5|]. intros ls σ' evs Hnot Hrun.
  assert (reachable σ) as Hr by (eexists _, _; exact H1).
  assert (stuck_on 66 0 σ) as Hst.
  { split; [done|].
    split; [eexists _, _; split; [exact H5|]; split; reflexivity|].
    eexists. split; [exact H3|]. split; [reflexivity|]. right.
    split; reflexivity. }
  pose proof (stuck_on_run_call _ _ _ _ _ _ _ Hnot Hst H5 Hrun) as Hc'.
  assert (reachable σ') as Hr' by (by eapply reachable_run).
  split.
  { intros Hin.
    destruct (run_establishes _ _ _ _ _ Hr Hrun Hin) as (c' & Hc'' & Hret).
    rewrite Hc' in Hc''. by injection Hc'' as <-. }
  split; [done|]. intros x1 Hx1.
  assert ((66, 66) ∉ sent x1) as Hsent.
  { intros Hin.
    destruct (sent_from _ (reachable_pubs_ok _ Hr') 1 (sent x1) 66 66)
      as (c' & Hc'' & _ & _ & Hn); [by rewrite Hx1|done|].
    rewrite Hc' in Hc''. injection Hc'' as <-. apply Hn. simpl.
    apply list_elem_of_further, list_elem_of_here. }
  pose proof (ok_sent _ (reachable_sub_ok _ _ _ Hr' Hx1)) as Heq.
  split; [done|].
  split; intros Hin; apply Hsent; rewrite Heq; apply elem_of_app;
    [right; apply elem_of_app|]; by left.
Qed.

(** * More about the bus *)

(** ** The registry *)

(** X1.  On an open bus [Publish] copies exactly the subscriptions of its
    subject on which no [unsubscribe] has started, each once: who subscribed
    and has not unsubscribed gets the message, and nobody else. *)
Theorem publish_copies_live_subscribers σ subj m :
  reachable σ → closed σ = false →
  ∃ c, Publish_copy subj m σ = (set_pubs (pubs σ ++ [c]) σ, []) ∧
       p_subject c = subj ∧ p_msg c = m ∧ p_ret c = false ∧
       p_copy c = p_snapshot c ∧ NoDup (p_copy c) ∧
       ∀ s, s ∈ p_copy c ↔
            ∃ x, heap σ !! s = Some x ∧ subject x = subj ∧ once x = OnceIdle.
Proof.
  intros Hr Hop. pose proof (reachable_bus_ok _ Hr) as Hbus.
  exists (PublishCall subj m (subscribers subj (subs σ)) false
            (subscribers subj (subs σ))).
  unfold Publish_copy. rewrite Hop. simpl.
  split; [done|]. split; [done|]. split; [done|]. split; [done|].
  split; [done|]. split; [apply (bus_nodup _ Hbus)|].
  intros s. split.
  - intros Hin. destruct (bus_reg _ Hbus subj s Hin) as [Hsubj Hidle].
    destruct (heap σ !! s) as [x|]; [|done].
    exists x. simpl in *. split; [done|]. split; congruence.
  - intros (x & Hx & Hsubj & Hidle).
    destruct (bus_idle _ Hbus Hop s) as (subj' & Hs' & Hin);
      [by rewrite Hx; simpl; rewrite Hidle|].
    rewrite Hx in Hs'. simpl in Hs'. by simplify_eq.
Qed.

Lemma publish_copies_live_subscribers_witness :
  let σ := state_after unsubscribe_schedule NewSubPub in
  reachable σ ∧ closed σ = false ∧
  ∃ c, Publish_copy "a" 9 σ = (set_pubs (pubs σ ++ [c]) σ, []) ∧
       p_subject c = "a" ∧ p_msg c = 9 ∧ p_ret c = false ∧
       p_copy c = p_snapshot c ∧ NoDup (p_copy c) ∧
       ∀ s, s ∈ p_copy c ↔
            ∃ x, heap σ !! s = Some x ∧ subject x = "a" ∧ once x = OnceIdle.
Proof.
  intros σ.
  assert (reachable σ) as Hr.
  { exists unsubscribe_schedule, (returns_of unsubscribe_schedule NewSubPub).
    vm_compute; reflexivity. }
  assert (closed σ = false) as Hop by (vm_compute; reflexivity).
  split; [exact Hr|]. split; [exact Hop|].
  exact (publish_copies_live_subscribers σ "a" 9 Hr Hop).
Defined.

(** X2.  The map has a key exactly for the subjects that have a subscriber: the
    slice of a key is never empty and lists nobody twice, [unsubscribe]
    deletes the key with its last subscriber. *)
Theorem registry_keys_have_subscribers σ subj :
  reachable σ →
  (∀ l, subs σ !! subj = Some l → l ≠ [] ∧ NoDup l) ∧
  (closed σ = false →
   (is_Some (subs σ !! subj) ↔
    ∃ s x, heap σ !! s = Some x ∧ subject x = subj ∧ once x = OnceIdle)) ∧
  (closed σ = true → subs σ !! subj = None).
Proof.
  intros Hr. pose proof (reachable_bus_ok _ Hr) as Hbus. split_and!.
  - intros l Hl. split; [by eapply bus_nonempty|].
    pose proof (bus_nodup _ Hbus subj) as Hnd. unfold subscribers in Hnd.
    by rewrite Hl in Hnd.
  - intros Hop. split.
    + intros [l Hl]. pose proof (bus_nonempty _ Hbus subj l Hl) as Hne.
      destruct l as [|s l]; [done|].
      destruct (bus_reg _ Hbus subj s) as [Hsubj Hidle].
      { unfold subscribers. rewrite Hl. simpl. apply list_elem_of_here. }
      destruct (heap σ !! s) as [x|] eqn:Hx; [|done].
      exists s, x. simpl in *. split; [done|]. split; congruence.
    + intros (s & x & Hx & Hsubj & Hidle).
      destruct (bus_idle _ Hbus Hop s) as (subj' & Hs' & Hin);
        [by rewrite Hx; simpl; rewrite Hidle|].
      rewrite Hx in Hs'. simpl in Hs'. simplify_eq.
      unfold subscribers in Hin.
      destruct (subs σ !! subject x) as [l|]; [by eexists|].
      by apply elem_of_nil in Hin.
  - intros Hcl. by rewrite (bus_nil _ Hbus Hcl).
Qed.

Lemma registry_keys_have_subscribers_witness :
  let σ := state_after unsubscribe_schedule NewSubPub in
  reachable σ ∧
  (∀ l, subs σ !! "a" = Some l → l ≠ [] ∧ NoDup l) ∧
  (closed σ = false →
   (is_Some (subs σ !! "a") ↔
    ∃ s x, heap σ !! s = Some x ∧ subject x = "a" ∧ once x = OnceIdle)) ∧
  (closed σ = true → subs σ !! "a" = None).
Proof.
  intros σ.
  assert (reachable σ) as Hr.
  { exists unsubscribe_schedule, (returns_of unsubscribe_schedule NewSubPub).
    vm_compute; reflexivity. }
  split; [exact Hr|]. exact (registry_keys_have_subscribers σ "a" Hr).
Defined.

(** ** Queues *)

(** X3.  Every message that [enqueue] accepted for a subscription is, in the
    order of acceptance, handed to the handler, in the buffer, held by the
    detached sender or dropped: the handler has seen a prefix of what was accepted,
    with no gap.  No call of [Publish] is accepted twice.  At most one
    message is ever dropped, it is the one the detached sender held, and the
    queue was closed by then. *)
Theorem accepted_messages_accounted σ s x :
  reachable σ → heap σ !! s = Some x →
  sent x = calls x ++ ch x ++ option_list (sender x) ++ dropped x ∧
  NoDup (sent x).*1 ∧
  length (dropped x) ≤ 1 ∧
  (dropped x ≠ [] → ch_closed x = true ∧ sender x = None).
Proof.
  intros Hr Hx. pose proof (reachable_sub_ok _ _ _ Hr Hx) as Hsub.
  split; [apply (ok_sent _ Hsub)|]. split.
  { apply (sent_nodup _ (reachable_pubs_ok _ Hr) s). by rewrite Hx. }
  pose proof (ok_one _ Hsub) as H1. rewrite length_app in H1.
  split; [lia|]. intros Hd. split; [by apply (ok_dropped _ Hsub)|].
  destruct (sender x); [|done]. destruct (dropped x); [done|].
  simpl in H1. lia.
Qed.

Lemma accepted_messages_accounted_witness :
  let σ := state_after overflow_close (state_after overflow_before NewSubPub) in
  let x := overflow_end in
  reachable σ ∧ heap σ !! 0 = Some x ∧
  sent x = calls x ++ ch x ++ option_list (sender x) ++ dropped x ∧
  NoDup (sent x).*1 ∧
  length (dropped x) ≤ 1 ∧
  (dropped x ≠ [] → ch_closed x = true ∧ sender x = None).
Proof.
  intros σ x.
  assert (reachable σ) as Hr.
  { exists (overflow_before ++ overflow_close),
      (returns_of (overflow_before ++ overflow_close) NewSubPub).
    vm_compute; reflexivity. }
  assert (heap σ !! 0 = Some x) as Hx by (vm_compute; reflexivity).
  split; [exact Hr|]. split; [exact Hx|].
  exact (accepted_messages_accounted σ 0 x Hr Hx).
Defined.

(** X4.  The buffer of a subscription never holds more than 64 messages, and
    [sendMu] is held exactly while a detached sender is parked, so there is at
    most one: at any time at most 65 accepted messages have not reached the
    handler. *)
Theorem queue_is_bounded σ s x :
  reachable σ → heap σ !! s = Some x →
  length (ch x) ≤ 64 ∧
  (sendMu x = true ↔ is_Some (sender x)) ∧
  length (sent x) ≤ length (calls x) + 65.
Proof.
  intros Hr Hx. pose proof (reachable_sub_ok _ _ _ Hr Hx) as Hsub.
  split; [apply (ok_cap _ Hsub)|]. split; [apply (ok_sendMu _ Hsub)|].
  pose proof (ok_cap _ Hsub) as Hcap. pose proof (ok_one _ Hsub) as H1.
  rewrite (ok_sent _ Hsub), (assoc_L (++)), (assoc_L (++)).
  rewrite <-(assoc_L (++) (calls x ++ ch x)), !length_app.
  rewrite length_app in H1. unfold capacity in Hcap. lia.
Qed.

Lemma queue_is_bounded_witness :
  let σ := state_after overflow_before NewSubPub in
  ∃ x, reachable σ ∧ heap σ !! 0 = Some x ∧
       length (ch x) ≤ 64 ∧
       (sendMu x = true ↔ is_Some (sender x)) ∧
       length (sent x) ≤ length (calls x) + 65.
Proof.
  intros σ.
  assert (reachable σ) as Hr.
  { exists overflow_before, (returns_of overflow_before NewSubPub).
    vm_compute; reflexivity. }
  destruct (heap σ !! 0) as [x|] eqn:Hx; [|vm_compute in Hx; discriminate Hx].
  exists x. split; [exact Hr|]. split; [reflexivity|].
  exact (queue_is_bounded σ 0 x Hr Hx).
Defined.

(** ** Fan-out *)

(** X5.  A call of [Publish] that has returned nil has handed its message to
    [enqueue] of every subscription of its copy, once each, and to no other
    subscription; every subscription of the copy is one of the subject. *)
Theorem returned_publish_reached_its_copy σ p c :
  reachable σ → pubs σ !! p = Some c → p_ret c = true →
  (∀ s, s ∈ p_snapshot c →
     ∃ x i, heap σ !! s = Some x ∧ subject x = p_subject c ∧
            sent x !! i = Some (p, p_msg c) ∧
            ∀ j m, sent x !! j = Some (p, m) → j = i) ∧
  (∀ s x m, heap σ !! s = Some x → s ∉ p_snapshot c → (p, m) ∉ sent x).
Proof.
  intros Hr Hc Hret. pose proof (reachable_pubs_ok _ Hr) as Hpubs. split.
  - intros s Hin.
    destruct (pub_split _ Hpubs p c Hc) as (past & Hsplit & Hpast).
    rewrite (pub_ret _ Hpubs p c Hc Hret), (right_id_L [] (++)) in Hsplit.
    subst past. destruct (Hpast s Hin) as (l & Hl & Hm).
    pose proof (pub_subj _ Hpubs p c s Hc Hin) as Hsubj.
    destruct (heap σ !! s) as [x|] eqn:Hx; [|done].
    simpl in Hl, Hsubj. injection Hl as <-. injection Hsubj as Hsubj.
    apply list_elem_of_lookup_1 in Hm as [i Hi].
    exists x, i. split; [done|]. split; [done|]. split; [done|].
    intros j m Hj.
    assert (NoDup (sent x).*1) as Hnd.
    { apply (sent_nodup _ Hpubs s). by rewrite Hx. }
    apply (NoDup_lookup _ j i p Hnd).
    + rewrite list_lookup_fmap. apply fmap_Some. by exists (p, m).
    + rewrite list_lookup_fmap. apply fmap_Some. by exists (p, p_msg c).
  - intros s x m Hx Hnot Hin.
    destruct (sent_from _ Hpubs s (sent x) p m) as (c' & Hc' & _ & Hs & _);
      [by rewrite Hx|done|].
    by simplify_eq.
Qed.

Lemma returned_publish_reached_its_copy_witness :
  let σ := state_after fifo_before NewSubPub in
  let c := PublishCall "topic" 0 [] true [0; 1] in
  reachable σ ∧ pubs σ !! 0 = Some c ∧
  (∀ s, s ∈ p_snapshot c →
     ∃ x i, heap σ !! s = Some x ∧ subject x = p_subject c ∧
            sent x !! i = Some (0, p_msg c) ∧
            ∀ j m, sent x !! j = Some (0, m) → j = i) ∧
  (∀ s x m, heap σ !! s = Some x → s ∉ p_snapshot c → (0, m) ∉ sent x).
Proof.
  intros σ c.
  assert (reachable σ) as Hr.
  { exists fifo_before, (returns_of fifo_before NewSubPub).
    vm_compute; reflexivity. }
  assert (pubs σ !! 0 = Some c) as Hc by (vm_compute; reflexivity).
  split; [exact Hr|]. split; [exact Hc|].
  exact (returned_publish_reached_its_copy σ 0 c Hr Hc eq_refl).
Defined.

(** ** Workers and the wait group *)

(** X6.  The counter of [wg] is the number of workers that have not left, one
    for each subscription whose worker still runs.  A worker that leaves
    finds the counter positive, so that [wg.Done()] never drives it below
    zero; a worker that takes a message leaves the counter alone. *)
Theorem wg_counts_running_workers σ :
  reachable σ →
  wg σ = live_workers (heap σ) ∧
  ∀ s x σ', heap σ !! s = Some x → Worker_step s σ = Some σ' →
    match worker_recv x with
    | Some (_, true) => 0 < wg σ ∧ S (wg σ') = wg σ
    | _ => wg σ' = wg σ
    end.
Proof.
  intros Hr. split; [apply (cl_wg _ (reachable_close_ok _ Hr))|].
  intros s x σ' Hx Hs. unfold Worker_step in Hs. rewrite Hx in Hs. simpl in Hs.
  destruct (worker_recv x) as [[x' [|]]|] eqn:Hw; [| |done].
  - injection Hs as <-. simpl.
    assert (0 < wg σ); [|lia].
    apply (wg_positive σ s x Hr Hx). unfold worker_recv in Hw.
    destruct (worker x); done.
  - by injection Hs as <-.
Qed.

Lemma wg_counts_running_workers_witness :
  let σ := state_after close_schedule NewSubPub in
  reachable σ ∧
  wg σ = live_workers (heap σ) ∧
  ∀ s x σ', heap σ !! s = Some x → Worker_step s σ = Some σ' →
    match worker_recv x with
    | Some (_, true) => 0 < wg σ ∧ S (wg σ') = wg σ
    | _ => wg σ' = wg σ
    end.
Proof.
  intros σ.
  assert (reachable σ) as Hr.
  { exists close_schedule, (returns_of close_schedule NewSubPub).
    vm_compute; reflexivity. }
  split; [exact Hr|]. exact (wg_counts_running_workers σ Hr).
Defined.

(** ** The slice of a subject *)

Lemma list_find_first (s : nat) (l1 l2 : list nat) :
  s ∉ l1 → list_find (λ v, v = s) (l1 ++ s :: l2) = Some (length l1, s).
Proof.
  intros Hs. apply list_find_Some. split; [by rewrite list_lookup_middle|].
  split; [done|]. intros j y Hj Hlt ->. rewrite lookup_app_l in Hj by done.
  apply Hs. by eapply list_elem_of_lookup_2.
Qed.

Lemma swap_remove_snoc s l : s ∉ l → swap_remove s (l ++ [s]) = l.
Proof.
  intros Hs. unfold swap_remove.
  rewrite (list_find_first s l [] Hs), last_snoc, length_app. simpl.
  replace (length l + 1 - 1) with (length l) by lia.
  rewrite insert_app_r_alt, Nat.sub_diag by lia. simpl.
  by rewrite take_app_length.
Qed.

(** X7.  The loop of [unsubscribe] over the slice of the subject: the last
    element takes the place of the first occurrence of the handle and the
    slice gets shorter by one, so that the other subscribers stay, in an order
    that differs from the order of subscription when the handle was not the
    last. *)
Theorem swap_remove_moves_last s l1 l2 z :
  s ∉ l1 →
  swap_remove s (l1 ++ [s]) = l1 ∧
  swap_remove s (l1 ++ s :: l2 ++ [z]) = l1 ++ z :: l2.
Proof.
  intros Hs. split; [by apply swap_remove_snoc|]. unfold swap_remove.
  rewrite (list_find_first s l1 (l2 ++ [z]) Hs).
  replace (l1 ++ s :: l2 ++ [z]) with ((l1 ++ s :: l2) ++ [z])
    by (by rewrite <-(assoc_L (++))).
  rewrite last_snoc, length_app. simpl.
  replace (length (l1 ++ s :: l2) + 1 - 1) with (length (l1 ++ s :: l2))
    by lia.
  rewrite insert_app_l by (rewrite length_app; simpl; lia).
  rewrite <-(length_insert (l1 ++ s :: l2) (length l1) z), take_app_length.
  rewrite insert_app_r_alt, Nat.sub_diag by lia. done.
Qed.

Lemma swap_remove_moves_last_witness :
  (2 ∉ [5; 7]) ∧
  swap_remove 2 ([5; 7] ++ [2]) = [5; 7] ∧
  swap_remove 2 ([5; 7] ++ 2 :: [3; 2; 4] ++ [9]) = [5; 7] ++ 9 :: [3; 2; 4].
Proof.
  assert (2 ∉ [5; 7]) as H.
  { intros [H|[H|H%elem_of_nil]%elem_of_cons]%elem_of_cons;
      [discriminate H|discriminate H|exact H]. }
  split; [exact H|]. exact (swap_remove_moves_last 2 [5; 7] [3; 2; 4] 9 H).
Defined.

(** ** Subscribe, then Unsubscribe *)

(** The handles of the registry are addresses of the heap. *)
Lemma registered_lt σ subj s :
  reachable σ → s ∈ subscribers subj (subs σ) → s < length (heap σ).
Proof.
  intros Hr Hin.
  destruct (bus_reg _ (reachable_bus_ok _ Hr) subj s Hin) as [Hs _].
  destruct (heap σ !! s) as [x|] eqn:Hx; [|done]. by eapply lookup_lt_Some.
Qed.

(** X8.  [Subscribe] followed by [Unsubscribe] on the handle it gave, with
    nothing in between, leaves the registry as it was, the key of a subject
    that had no subscriber included; the worker then leaves and the counter of [wg] is
    back where it was. *)
Theorem subscribe_unsubscribe_roundtrip σ subj h :
  reachable σ → panicked σ = false → closed σ = false →
  ∃ σ',
    run [LSubscribe subj h; LUnsubscribe (length (heap σ));
         LUnsubClose (length (heap σ)); LWorker (length (heap σ))] σ =
      Some (σ', [EvSubscribe (inl (length (heap σ)));
                 EvUnsubscribe (length (heap σ))]) ∧
    subs σ' = subs σ ∧ wg σ' = wg σ ∧ closed σ' = false ∧
    pubs σ' = pubs σ ∧ closer σ' = closer σ ∧ panicked σ' = false ∧
    heap σ' =
      heap σ ++ [Subscription subj [] true h OnceDone false WExited None
                   [] [] []].
Proof.
  intros Hr Hnp Hop. pose proof (reachable_bus_ok _ Hr) as Hbus.
  set (s := length (heap σ)). set (l := subscribers subj (subs σ)).
  assert (s ∉ l) as Hs.
  { intros Hin. apply (registered_lt σ subj s Hr) in Hin. unfold s in Hin.
    lia. }
  assert (remove_from_registry s subj (<[subj:=l ++ [s]]> (subs σ)) = subs σ)
    as Hreg.
  { unfold remove_from_registry. rewrite lookup_insert_eq.
    rewrite (swap_remove_snoc s l Hs).
    unfold l, subscribers.
    destruct (subs σ !! subj) as [l0|] eqn:Hl; simpl.
    - pose proof (bus_nonempty _ Hbus subj l0 Hl) as Hne.
      rewrite decide_False by (by destruct l0).
      by rewrite insert_insert_eq, insert_id.
    - rewrite delete_insert_eq. by apply delete_id. }
  eexists. split.
  - simpl. unfold step at 1. rewrite Hnp. unfold Subscribe. rewrite Hop.
    fold s l. unfold step at 1. simpl. rewrite Hnp.
    unfold Unsubscribe_enter. simpl.
    rewrite lookup_app_r, Nat.sub_diag by done. simpl. rewrite Hreg.
    unfold step at 1. simpl. unfold Unsubscribe_close. simpl.
    rewrite list_lookup_insert_eq by (rewrite length_app; simpl; lia).
    simpl. unfold step at 1. simpl.
    unfold quiet, Worker_step. simpl.
    rewrite list_lookup_insert_eq
      by (rewrite length_insert, length_app; simpl; lia).
    simpl. reflexivity.
  - simpl. split; [done|]. split; [lia|]. split; [done|]. split; [done|].
    split; [done|]. split; [done|].
    rewrite !list_insert_insert_eq.
    rewrite insert_app_r_alt, Nat.sub_diag by done. done.
Qed.

Lemma subscribe_unsubscribe_roundtrip_witness :
  let σ := state_after unsubscribe_schedule NewSubPub in
  reachable σ ∧
  ∃ σ',
    run [LSubscribe "c" 4; LUnsubscribe (length (heap σ));
         LUnsubClose (length (heap σ)); LWorker (length (heap σ))] σ =
      Some (σ', [EvSubscribe (inl (length (heap σ)));
                 EvUnsubscribe (length (heap σ))]) ∧
    subs σ' = subs σ ∧ wg σ' = wg σ ∧ closed σ' = false ∧
    pubs σ' = pubs σ ∧ closer σ' = closer σ ∧ panicked σ' = false ∧
    heap σ' =
      heap σ ++ [Subscription "c" [] true 4 OnceDone false WExited None
                   [] [] []].
Proof.
  intros σ.
  assert (reachable σ) as Hr.
  { exists unsubscribe_schedule, (returns_of unsubscribe_schedule NewSubPub).
    vm_compute; reflexivity. }
  split; [exact Hr|].
  exact (subscribe_unsubscribe_roundtrip σ "c" 4 Hr eq_refl eq_refl).
Defined.

(** ** What Publish leaves alone *)

(** X9.  A call of [Publish] never writes the registry, [closed] or [wg], closes
    no queue and starts no [unsubscribe]; its [enqueue] writes only the
    subscription it is at, which is one of the subject of the call, and there
    only the queue, [sendMu] and the detached sender: subscriptions of other
    subjects are not touched, and no handler is called by it. *)
Theorem publish_touches_only_its_subject σ σ' p c l evs :
  reachable σ → pubs σ !! p = Some c →
  l = LEnqueue p ∨ l = LPublishRet p →
  step l σ = Some (σ', evs) → panicked σ' = false →
  subs σ' = subs σ ∧ closed σ' = closed σ ∧ wg σ' = wg σ ∧
  closer σ' = closer σ ∧
  (∀ s x, heap σ !! s = Some x → subject x ≠ p_subject c →
          heap σ' !! s = Some x) ∧
  (∀ s x, heap σ !! s = Some x →
     ∃ x', heap σ' !! s = Some x' ∧ calls x' = calls x ∧ once x' = once x ∧
           ch_closed x' = ch_closed x ∧ worker x' = worker x ∧
           dropped x' = dropped x ∧ ch x `prefix_of` ch x').
Proof.
  intros Hr Hc Hl Hs Hnp.
  pose proof (pub_split _ (reachable_pubs_ok _ Hr) p c Hc)
    as (past & Hsplit & _).
  pose proof (pub_subj _ (reachable_pubs_ok _ Hr) p c) as Hsubj.
  unfold step in Hs. destruct (panicked σ); [done|].
  destruct Hl as [-> | ->].
  - unfold quiet, Publish_enqueue in Hs. rewrite Hc in Hs. simpl in Hs.
    destruct (p_copy c) as [|s rest] eqn:Hcopy; [done|].
    destruct (heap σ !! s) as [x|] eqn:Hx; [|done]. simpl in Hs.
    destruct (enqueue (p, p_msg c) x) as [| |x'] eqn:He; simplify_eq/=.
    do 4 (split; [done|]).
    assert (subject x = p_subject c) as Hsx.
    { specialize (Hsubj s Hc). rewrite Hx in Hsubj. simpl in Hsubj.
      assert (s ∈ p_snapshot c) as Hin.
      { rewrite Hsplit. apply elem_of_app. right. apply list_elem_of_here. }
      specialize (Hsubj Hin). by injection Hsubj. }
    split.
    + intros s0 x0 Hx0 Hne. destruct (decide (s0 = s)) as [->|Hs0].
      * by simplify_eq.
      * by rewrite list_lookup_insert_ne.
    + intros s0 x0 Hx0. destruct (decide (s0 = s)) as [->|Hs0].
      * simplify_eq. exists x'.
        rewrite list_lookup_insert_eq by (by eapply lookup_lt_Some).
        split; [done|]. unfold enqueue in He.
        destruct (sendMu x) eqn:Hmu; [done|].
        destruct (ch_closed x) eqn:Hcl; [done|].
        case_decide; injection He as <-; simpl; split_and!; try done.
        by apply prefix_app_r.
      * exists x0. by rewrite list_lookup_insert_ne.
  - unfold Publish_return in Hs. rewrite Hc in Hs. simpl in Hs.
    destruct (p_copy c); [|done]. destruct (p_ret c); [done|].
    simplify_eq/=. do 4 (split; [done|]). split; [done|].
    intros s x Hx. by exists x.
Qed.

Lemma publish_touches_only_its_subject_witness :
  let σ := state_after [LSubscribe "a" 1; LSubscribe "b" 2; LPublish "a" 5]
             NewSubPub in
  let c := PublishCall "a" 5 [0] false [0] in
  ∃ σ', reachable σ ∧ pubs σ !! 0 = Some c ∧
  step (LEnqueue 0) σ = Some (σ', []) ∧ panicked σ' = false ∧
  subs σ' = subs σ ∧ closed σ' = closed σ ∧ wg σ' = wg σ ∧
  closer σ' = closer σ ∧
  (∀ s x, heap σ !! s = Some x → subject x ≠ p_subject c →
          heap σ' !! s = Some x) ∧
  (∀ s x, heap σ !! s = Some x →
     ∃ x', heap σ' !! s = Some x' ∧ calls x' = calls x ∧ once x' = once x ∧
           ch_closed x' = ch_closed x ∧ worker x' = worker x ∧
           dropped x' = dropped x ∧ ch x `prefix_of` ch x').
Proof.
  intros σ c. exists (state_after [LEnqueue 0] σ).
  assert (reachable σ) as Hr.
  { exists [LSubscribe "a" 1; LSubscribe "b" 2; LPublish "a" 5],
      [EvSubscribe (inl 0); EvSubscribe (inl 1)].
    vm_compute; reflexivity. }
  assert (pubs σ !! 0 = Some c) as Hc by (vm_compute; reflexivity).
  assert (step (LEnqueue 0) σ = Some (state_after [LEnqueue 0] σ, [])) as Hs
    by (vm_compute; reflexivity).
  assert (panicked (state_after [LEnqueue 0] σ) = false) as Hnp
    by (vm_compute; reflexivity).
  split; [exact Hr|]. split; [exact Hc|]. split; [exact Hs|].
  split; [exact Hnp|].
  exact (publish_touches_only_its_subject σ _ 0 c (LEnqueue 0) []
           Hr Hc (or_introl eq_refl) Hs Hnp).
Defined.

(** ** Where the process dies *)



(** ** A bus nobody leaves *)

Lemma undisturbed_step l σ σ' evs :
  reachable σ →
  panicked σ = false ∧ closer σ = None ∧
  (∀ s x, heap σ !! s = Some x → once x = OnceIdle) →
  (∀ s, l ≠ LUnsubscribe s) → (∀ k, l ≠ LClose k) →
  (∀ s, l ≠ LHandlerPanic s) →
  step l σ = Some (σ', evs) →
  (panicked σ' = false ∧ closer σ' = None ∧
   (∀ s x, heap σ' !! s = Some x → once x = OnceIdle)) ∧
  ∀ e, e ∈ evs → ∀ r, e ≠ EvPublish (inr r) ∧ e ≠ EvSubscribe (inr r).
Proof.
  intros Hr (Hnp & Hcl & Hidle) Hnu Hnc Hnh Hs.
  assert (closed σ = false) as Hop.
  { destruct (closed σ) eqn:Hc; [|done].
    apply (bus_closed _ (reachable_bus_ok _ Hr)) in Hc as [c Hc]. congruence. }
  assert (∀ s x, heap σ !! s = Some x → ch_closed x = false) as Hopen.
  { intros s x Hx. destruct (ch_closed x) eqn:Hc; [|done].
    apply (ok_closed _ (reachable_sub_ok _ _ _ Hr Hx)) in Hc.
    rewrite (Hidle s x Hx) in Hc. done. }
  assert (∀ s x x', heap σ !! s = Some x → once x' = OnceIdle →
            ∀ s0 x0, <[s:=x']> (heap σ) !! s0 = Some x0 → once x0 = OnceIdle)
    as Hins.
  { intros s x x' Hx Hx' s0 x0 H0.
    apply list_lookup_insert_Some in H0 as [(-> & <- & _)|[_ H0]]; eauto. }
  unfold step in Hs. rewrite Hnp in Hs.
  destruct l; simpl in Hs; try (by destruct (Hnu s));
    try (by destruct (Hnc keys)); try (by destruct (Hnh s)).
  - unfold Subscribe in Hs. rewrite Hop in Hs. simplify_eq/=.
    split; [|by intros e ->%list_elem_of_singleton].
    split; [done|]. split; [done|]. intros s x Hx.
    apply lookup_app_Some in Hx as [Hx|[_ Hx]]; [eauto|].
    by apply list_lookup_singleton_Some in Hx as [_ <-].
  - unfold Publish_copy in Hs. rewrite Hop in Hs. simplify_eq/=.
    split; [done|]. by intros e ?%elem_of_nil.
  - unfold quiet, Publish_enqueue in Hs.
    destruct (pubs σ !! p) as [c|]; [|done]. simpl in Hs.
    destruct (p_copy c) as [|s rest]; [done|].
    destruct (heap σ !! s) as [x|] eqn:Hx; [|done]. simpl in Hs.
    pose proof (Hopen s x Hx) as Hox. pose proof (Hidle s x Hx) as Hix.
    unfold enqueue in Hs. rewrite Hox in Hs.
    destruct (sendMu x); [done|].
    split; [|case_decide; simplify_eq/=; by intros e ?%elem_of_nil].
    case_decide; simplify_eq/=; (split; [done|]); (split; [done|]);
      by eapply Hins.
  - unfold Publish_return in Hs.
    destruct (pubs σ !! p) as [c|]; [|done]. simpl in Hs.
    destruct (p_copy c); [|done]. destruct (p_ret c); [done|].
    simplify_eq/=. split; [done|]. by intros e ->%list_elem_of_singleton.
  - unfold quiet, Sender_step, blocked_send in Hs.
    destruct (heap σ !! s) as [x|] eqn:Hx; [|done]. simpl in Hs.
    pose proof (Hopen s x Hx) as Hox. pose proof (Hidle s x Hx) as Hix.
    destruct (sender x); [|done]. rewrite Hox in Hs.
    case_decide; [|done]. simplify_eq/=.
    split; [|by intros e ?%elem_of_nil].
    split; [done|]. split; [done|]. by eapply Hins.
  - unfold quiet, Worker_step, worker_recv in Hs.
    destruct (heap σ !! s) as [x|] eqn:Hx; [|done]. simpl in Hs.
    pose proof (Hopen s x Hx) as Hox. pose proof (Hidle s x Hx) as Hix.
    destruct (worker x); [|done..]. rewrite Hox in Hs.
    destruct (ch x); [done|]. simplify_eq/=.
    split; [|by intros e ?%elem_of_nil].
    split; [done|]. split; [done|]. by eapply Hins.
  - unfold quiet, Handler_step, handler_return in Hs.
    destruct (heap σ !! s) as [x|] eqn:Hx; [|done]. simpl in Hs.
    pose proof (Hidle s x Hx) as Hix.
    destruct (worker x); simplify_eq/=.
    split; [|by intros e ?%elem_of_nil].
    split; [done|]. split; [done|]. by eapply Hins.
  - unfold Unsubscribe_close in Hs.
    destruct (heap σ !! s) as [x|] eqn:Hx; [|done]. simpl in Hs.
    by rewrite (Hidle s x Hx) in Hs.
  - unfold quiet, Close_step in Hs. by rewrite Hcl in Hs.
  - unfold quiet, Waiter_step in Hs. by rewrite Hcl in Hs.
  - unfold quiet, Ctx_step in Hs. by rewrite Hcl in Hs.
  - unfold Close_select in Hs. by rewrite Hcl in Hs.
Qed.

(** The panic of a handler writes nothing but the end of the process. *)
Lemma handler_panic_step s σ σ' evs :
  step (LHandlerPanic s) σ = Some (σ', evs) →
  σ' = set_panicked true σ ∧ evs = [].
Proof.
  unfold step, quiet, Handler_panic. destruct (panicked σ); [done|].
  destruct (heap σ !! s) as [x|]; [|done]. simpl.
  destruct (handler_panic x); [|done]. by intros [= <- <-].
Qed.

Lemma step_alive l σ σ' evs :
  step l σ = Some (σ', evs) → panicked σ = false.
Proof. unfold step. by destruct (panicked σ). Qed.

(** After a panic the schedule is over. *)
Lemma run_dead ls σ σ' evs :
  panicked σ = true → run ls σ = Some (σ', evs) → ls = [] ∧ σ' = σ.
Proof.
  intros Hp. destruct ls as [|l ls]; simpl.
  - by intros [= <- <-].
  - unfold step. by rewrite Hp.
Qed.

Lemma run_handler_panic ls σ σ' evs s :
  run ls σ = Some (σ', evs) → LHandlerPanic s ∈ ls → panicked σ' = true.
Proof.
  revert σ evs. induction ls as [|l ls IH]; intros σ evs Hrun Hin.
  - by apply elem_of_nil in Hin.
  - simpl in Hrun. destruct (step l σ) as [[σ1 e1]|] eqn:Hs; [|done].
    destruct (run ls σ1) as [[σ2 e2]|] eqn:Hr; [|done].
    injection Hrun as <- <-.
    apply elem_of_cons in Hin as [<-|Hin]; [|by eapply IH].
    apply handler_panic_step in Hs as [-> _].
    by apply run_dead in Hr as [_ ->].
Qed.

(** X11.  As long as nobody calls [Unsubscribe] or [Close], whatever else runs:
    the process dies only by the panic of a handler, and does when one panics;
    no call of [Subscribe] or [Publish] fails, no queue is closed and no
    message is dropped, so that every accepted message has reached the handler
    or waits for it, in order. *)
Theorem no_unsubscribe_no_loss ls σ evs :
  run ls NewSubPub = Some (σ, evs) →
  (∀ l, l ∈ ls → (∀ s, l ≠ LUnsubscribe s) ∧ (∀ k, l ≠ LClose k)) →
  (panicked σ = true ↔ ∃ s, LHandlerPanic s ∈ ls) ∧ closed σ = false ∧
  (∀ e, e ∈ evs → ∀ r, e ≠ EvPublish (inr r) ∧ e ≠ EvSubscribe (inr r)) ∧
  ∀ s x, heap σ !! s = Some x →
    once x = OnceIdle ∧ ch_closed x = false ∧ dropped x = [] ∧
    sent x = calls x ++ ch x ++ option_list (sender x).
Proof.
  intros Hrun Hls.
  assert (((panicked σ = true → ∃ s, LHandlerPanic s ∈ ls) ∧
           closer σ = None ∧
           (∀ s x, heap σ !! s = Some x → once x = OnceIdle)) ∧
          ∀ e, e ∈ evs → ∀ r, e ≠ EvPublish (inr r) ∧ e ≠ EvSubscribe (inr r))
    as [(Hnp & Hcl & Hidle) Hev].
  { revert σ evs Hrun Hls.
    induction ls as [|l ls IH] using rev_ind; intros σ evs Hrun Hls.
    - injection Hrun as <- <-. split; [done|]. by intros e ?%elem_of_nil.
    - apply run_snoc in Hrun as (σ1 & e1 & e2 & Hrun & Hs & ->).
      destruct (IH σ1 e1 Hrun) as [(_ & Hcl1 & Hidle1) Hev1].
      { intros k Hk. apply Hls. apply elem_of_app. by left. }
      destruct (Hls l) as [Hnu Hnc].
      { apply elem_of_app. right. apply list_elem_of_here. }
      pose proof (step_alive _ _ _ _ Hs) as Hnp1.
      assert ((∀ s, l ≠ LHandlerPanic s) ∨ ∃ s, l = LHandlerPanic s)
        as [Hnh|[s ->]].
      { destruct l; try (left; intros ?; discriminate). right. by eexists. }
      + destruct (undisturbed_step l σ1 σ e2) as [(Hnp' & Hcl' & Hidle') Hev2];
          try done.
        { by exists ls, e1. }
        split; [split; [congruence|done]|].
        intros e [He|He]%elem_of_app; eauto.
      + apply handler_panic_step in Hs as [-> ->].
        split; [|intros e [He|He]%elem_of_app;
                  [eauto|by apply elem_of_nil in He]].
        split; [|done]. intros _. exists s. apply elem_of_app. right.
        apply list_elem_of_here. }
  assert (reachable σ) as Hr by (by exists ls, evs).
  split.
  { split; [done|]. intros [s Hs]. by eapply run_handler_panic. }
  split.
  { destruct (closed σ) eqn:Hc; [|done].
    apply (bus_closed _ (reachable_bus_ok _ Hr)) in Hc as [c Hc]. congruence. }
  split; [done|]. intros s x Hx.
  pose proof (reachable_sub_ok _ _ _ Hr Hx) as Hsub.
  pose proof (Hidle s x Hx) as Hix.
  assert (ch_closed x = false) as Hox.
  { destruct (ch_closed x) eqn:Hc; [|done].
    apply (ok_closed _ Hsub) in Hc. congruence. }
  assert (dropped x = []) as Hd.
  { destruct (dropped x) eqn:Hd; [done|].
    rewrite (ok_dropped _ Hsub) in Hox; [done|by rewrite Hd]. }
  split; [done|]. split; [done|]. split; [done|].
  rewrite (ok_sent _ Hsub), Hd. by rewrite (right_id_L [] (++)).
Qed.

Lemma no_unsubscribe_no_loss_witness :
  let σ := state_after fifo_before NewSubPub in
  run fifo_before NewSubPub =
    Some (σ, [EvSubscribe (inl 0); EvSubscribe (inl 1); EvPublish (inl 0)]) ∧
  (panicked σ = true ↔ ∃ s, LHandlerPanic s ∈ fifo_before) ∧
  closed σ = false ∧
  (∀ e, e ∈ [EvSubscribe (inl 0); EvSubscribe (inl 1); EvPublish (inl 0)] →
        ∀ r, e ≠ EvPublish (inr r) ∧ e ≠ EvSubscribe (inr r)) ∧
  ∀ s x, heap σ !! s = Some x →
    once x = OnceIdle ∧ ch_closed x = false ∧ dropped x = [] ∧
    sent x = calls x ++ ch x ++ option_list (sender x).
Proof.
  intros σ.
  assert (run fifo_before NewSubPub =
            Some (σ, [EvSubscribe (inl 0); EvSubscribe (inl 1);
                      EvPublish (inl 0)])) as Hrun
    by (vm_compute; reflexivity).
  split; [exact Hrun|].
  apply (no_unsubscribe_no_loss fifo_before σ _ Hrun).
  intros l Hl. vm_compute in Hl.
  repeat (apply elem_of_cons in Hl as [->|Hl]; [split; intros; discriminate|]).
  by apply elem_of_nil in Hl.
Defined.

(** ** The end of a worker *)

Lemma store_store s x y σ : store s x (store s y σ) = store s x σ.
Proof. unfold store, set_heap. simpl. by rewrite list_insert_insert_eq. Qed.

Lemma worker_drains σ s x :
  panicked σ = false → heap σ !! s = Some x → ch_closed x = true →
  worker x = WRecv →
  ∃ ls,
    (∀ k, k ∈ ls → k = LWorker s ∨ k = LHandlerRet s) ∧
    run ls σ = Some (set_wg (wg σ - 1) (store s (drained x) σ), []).
Proof.
  intros Hnp Hx Hcl Hw.
  remember (ch x) as q eqn:Hq. revert σ x Hnp Hx Hcl Hw Hq.
  induction q as [|t q IH]; intros σ x Hnp Hx Hcl Hw Hq.
  - exists [LWorker s]. split.
    { intros k ->%list_elem_of_singleton. by left. }
    simpl. unfold step, quiet, Worker_step, worker_recv.
    rewrite Hnp, Hx. simpl. rewrite Hw, <-Hq, Hcl. simpl.
    do 3 f_equal. unfold drained. rewrite <-Hq, (right_id_L [] (++)).
    destruct x; simpl in *; by subst.
  - set (x1 := set_calls (calls x ++ [t]) (set_worker WHandler (set_ch q x))).
    set (x2 := set_worker WRecv x1).
    assert (s < length (heap σ)) as Hlt by (by eapply lookup_lt_Some).
    destruct (IH (store s x2 σ) x2) as (ls & Hls & Hrun); try done.
    { simpl. by rewrite list_lookup_insert_eq. }
    exists (LWorker s :: LHandlerRet s :: ls). split.
    { intros k [->|[->|Hk]%elem_of_cons]%elem_of_cons; eauto. }
    simpl. unfold step at 1, quiet, Worker_step, worker_recv.
    rewrite Hnp, Hx. simpl. rewrite Hw, <-Hq. simpl. fold x1.
    unfold step at 1, quiet, Handler_step, handler_return. simpl.
    rewrite Hnp, list_lookup_insert_eq by done. simpl. fold x2.
    rewrite store_store, Hrun. simpl. rewrite store_store.
    do 3 f_equal. unfold drained, x2, x1. simpl. rewrite <-Hq.
    by rewrite <-(assoc_L (++)).
Qed.

Lemma worker_leaves σ s x :
  panicked σ = false → heap σ !! s = Some x →
  ch_closed x = true → worker x ≠ WExited →
  ∃ ls,
    (∀ k, k ∈ ls → k = LWorker s ∨ k = LHandlerRet s) ∧
    run ls σ = Some (set_wg (wg σ - 1) (store s (drained x) σ), []).
Proof.
  intros Hnp Hx Hcl Hw.
  destruct (worker x) eqn:Hwx; [|clear Hw|done].
  - by apply worker_drains.
  - set (x0 := set_worker WRecv x).
    assert (s < length (heap σ)) as Hlt by (by eapply lookup_lt_Some).
    destruct (worker_drains (store s x0 σ) s x0) as (ls & Hls & Hrun);
      try done.
    { simpl. by rewrite list_lookup_insert_eq. }
    exists (LHandlerRet s :: ls). split.
    { intros k [->|Hk]%elem_of_cons; eauto. }
    simpl. unfold step at 1, quiet, Handler_step, handler_return.
    rewrite Hnp, Hx. simpl. rewrite Hwx. simpl. fold x0.
    rewrite Hrun. simpl. by rewrite store_store.
Qed.

(** X12.  When the queue of a subscription is closed, by [Unsubscribe] or by
    [Close], its worker needs nothing but the return of the handler it is in
    to hand the handler all that is left in the buffer, in order, and to
    leave with [wg.Done()]: what was buffered is not lost, the goroutine does
    not stay behind, and nothing else of the bus changes. *)
Theorem unsubscribed_worker_leaves σ s x :
  reachable σ → panicked σ = false → heap σ !! s = Some x →
  ch_closed x = true → worker x ≠ WExited →
  0 < wg σ ∧
  ∃ ls,
    (∀ k, k ∈ ls → k = LWorker s ∨ k = LHandlerRet s) ∧
    run ls σ = Some (set_wg (wg σ - 1) (store s (drained x) σ), []).
Proof.
  intros Hr Hnp Hx Hcl Hw. split; [by eapply wg_positive|].
  by apply worker_leaves.
Qed.

Lemma unsubscribed_worker_leaves_witness :
  let σ := state_after leave_schedule NewSubPub in
  let x := Subscription "t" [(1, 1)] true 1 OnceDone false WHandler None
             [(0, 0); (1, 1)] [(0, 0)] [] in
  reachable σ ∧ heap σ !! 0 = Some x ∧
  0 < wg σ ∧
  ∃ ls,
    (∀ k, k ∈ ls → k = LWorker 0 ∨ k = LHandlerRet 0) ∧
    run ls σ = Some (set_wg (wg σ - 1) (store 0 (drained x) σ), []).
Proof.
  intros σ x.
  assert (reachable σ) as Hr.
  { exists leave_schedule, (returns_of leave_schedule NewSubPub).
    vm_compute; reflexivity. }
  assert (heap σ !! 0 = Some x) as Hx by (vm_compute; reflexivity).
  split; [exact Hr|]. split; [exact Hx|].
  apply (unsubscribed_worker_leaves σ 0 x Hr eq_refl Hx eq_refl).
  discriminate.
Defined.

(** ** A call of Publish on its own *)

Lemma enqueue_loop p l :
  ∀ σ c,
    panicked σ = false → pubs σ !! p = Some c → p_copy c = l → NoDup l →
    (∀ s, s ∈ l →
       ∃ x, heap σ !! s = Some x ∧ sendMu x = false ∧ ch_closed x = false) →
    ∃ σ',
      run (replicate (length l) (LEnqueue p)) σ = Some (σ', []) ∧
      panicked σ' = false ∧ pubs σ' = <[p:=set_copy [] c]> (pubs σ) ∧
      subs σ' = subs σ ∧ closed σ' = closed σ ∧ wg σ' = wg σ ∧
      closer σ' = closer σ ∧
      ∀ s x, heap σ !! s = Some x →
        ∃ x', heap σ' !! s = Some x' ∧
              (s ∈ l → enqueue (p, p_msg c) x = EnqDone x') ∧
              (s ∉ l → x' = x).
Proof.
  induction l as [|s l IH]; intros σ c Hnp Hc Hcopy Hnd Hall.
  - exists σ. simpl. split; [done|]. split; [done|]. split.
    { rewrite list_insert_id; [done|]. rewrite Hc. f_equal.
      destruct c; simpl in *; by subst. }
    do 4 (split; [done|]). intros s x Hx. exists x.
    split; [done|]. split; [by intros ?%elem_of_nil|done].
  - apply NoDup_cons in Hnd as [Hs Hnd].
    destruct (Hall s) as (x & Hx & Hmu & Hcl); [apply list_elem_of_here|].
    assert (∃ x', enqueue (p, p_msg c) x = EnqDone x') as [x' He].
    { unfold enqueue. rewrite Hmu, Hcl. case_decide; by eexists. }
    assert (p < length (pubs σ)) as Hp by (by eapply lookup_lt_Some).
    assert (s < length (heap σ)) as Hlt by (by eapply lookup_lt_Some).
    set (σ1 := store_pub p (set_copy l c) (store s x' σ)).
    assert (step (LEnqueue p) σ = Some (σ1, [])) as Hstep.
    { unfold step, quiet, Publish_enqueue. rewrite Hnp, Hc. simpl.
      rewrite Hcopy, Hx. simpl. by rewrite He. }
    destruct (IH σ1 (set_copy l c)) as (σ' & Hrun & Hnp' & Hpubs & Hsubs &
      Hclosed & Hwg & Hcloser & Hheap); try done.
    { simpl. by rewrite list_lookup_insert_eq. }
    { intros s0 Hs0. destruct (Hall s0) as (x0 & Hx0 & H0);
        [by apply list_elem_of_further|].
      exists x0. split; [|done]. simpl.
      rewrite list_lookup_insert_ne; [done|]. by intros ->. }
    exists σ'. simpl. rewrite Hstep, Hrun. split; [done|]. split; [done|].
    split.
    { rewrite Hpubs. simpl. by rewrite list_insert_insert_eq. }
    do 4 (split; [done|]). intros s0 x0 Hx0.
    destruct (decide (s0 = s)) as [->|Hne].
    + simplify_eq. destruct (Hheap s x') as (x'' & Hx'' & _ & Hsame).
      { simpl. by rewrite list_lookup_insert_eq. }
      exists x''. split; [done|]. rewrite (Hsame Hs).
      split; [done|]. intros Hn. destruct Hn. apply list_elem_of_here.
    + destruct (Hheap s0 x0) as (x'' & Hx'' & Hin & Hout).
      { simpl. by rewrite list_lookup_insert_ne. }
      exists x''. split; [done|]. split.
      * intros [?|?]%elem_of_cons; [done|]. by apply Hin.
      * intros Hn. apply Hout. intros ?. apply Hn.
        by apply list_elem_of_further.
Qed.

(** X13.  A call of [Publish] that runs alone, on an open bus where no
    subscriber of the subject has a detached sender parked, goes through all
    of its copy and returns nil with no step of any other goroutine, and without a panic:
    every subscriber of the subject has got the message by [enqueue] (in the
    buffer, or in a detached sender when the buffer was full), nothing else
    has changed. *)
Theorem publish_alone_returns σ subj m :
  reachable σ → panicked σ = false → closed σ = false →
  (∀ s x, s ∈ subscribers subj (subs σ) → heap σ !! s = Some x →
          sender x = None) →
  ∃ σ',
    run (LPublish subj m ::
         replicate (length (subscribers subj (subs σ)))
           (LEnqueue (length (pubs σ))) ++
         [LPublishRet (length (pubs σ))]) σ =
      Some (σ', [EvPublish (inl (length (pubs σ)))]) ∧
    panicked σ' = false ∧ subs σ' = subs σ ∧ closed σ' = false ∧
    wg σ' = wg σ ∧ closer σ' = closer σ ∧
    pubs σ' = pubs σ ++ [PublishCall subj m [] true
                           (subscribers subj (subs σ))] ∧
    ∀ s x, heap σ !! s = Some x →
      ∃ x', heap σ' !! s = Some x' ∧
            (s ∈ subscribers subj (subs σ) →
             enqueue (length (pubs σ), m) x = EnqDone x' ∧
             sent x' = sent x ++ [(length (pubs σ), m)]) ∧
            (s ∉ subscribers subj (subs σ) → x' = x).
Proof.
  intros Hr Hnp Hop Hfree. pose proof (reachable_bus_ok _ Hr) as Hbus.
  set (l := subscribers subj (subs σ)). set (p := length (pubs σ)).
  set (c := PublishCall subj m l false l).
  set (σ1 := set_pubs (pubs σ ++ [c]) σ).
  assert (step (LPublish subj m) σ = Some (σ1, [])) as Hs1.
  { unfold step, Publish_copy. by rewrite Hnp, Hop. }
  destruct (enqueue_loop p l σ1 c) as (σ2 & Hrun & Hnp2 & Hpubs & Hsubs &
    Hclosed & Hwg & Hcloser & Hheap); try done.
  { simpl. by rewrite lookup_app_r, Nat.sub_diag. }
  { apply (bus_nodup _ Hbus). }
  { intros s Hin. destruct (bus_reg _ Hbus subj s Hin) as [_ Hidle].
    destruct (heap σ !! s) as [x|] eqn:Hx; [|done].
    simpl in Hidle. injection Hidle as Hidle.
    pose proof (reachable_sub_ok _ _ _ Hr Hx) as Hsub.
    exists x. split; [done|]. split.
    - destruct (sendMu x) eqn:Hmu; [|done].
      apply (ok_sendMu _ Hsub) in Hmu as [t Ht].
      rewrite (Hfree s x Hin Hx) in Ht. done.
    - destruct (ch_closed x) eqn:Hcl; [|done].
      apply (ok_closed _ Hsub) in Hcl. congruence. }
  set (c2 := set_ret true (set_copy [] c)).
  assert (step (LPublishRet p) σ2 =
            Some (store_pub p c2 σ2, [EvPublish (inl p)])) as Hs3.
  { unfold step, Publish_return. rewrite Hnp2, Hpubs. simpl.
    rewrite list_lookup_insert_eq by (rewrite length_app; simpl; lia).
    done. }
  exists (store_pub p c2 σ2).
  change (LPublish subj m :: replicate (length l) (LEnqueue p) ++
          [LPublishRet p])
    with ([LPublish subj m] ++ replicate (length l) (LEnqueue p) ++
          [LPublishRet p]).
  rewrite (run_app [LPublish subj m]).
  assert (run [LPublish subj m] σ = Some (σ1, [])) as ->
    by (simpl; by rewrite Hs1).
  rewrite run_app, Hrun.
  assert (run [LPublishRet p] σ2 =
            Some (store_pub p c2 σ2, [EvPublish (inl p)])) as ->
    by (simpl; by rewrite Hs3).
  split; [done|]. simpl. split; [done|]. split; [by rewrite Hsubs|].
  split; [by rewrite Hclosed|]. split; [by rewrite Hwg|].
  split; [by rewrite Hcloser|]. split.
  { rewrite Hpubs. simpl. rewrite list_insert_insert_eq.
    rewrite insert_app_r_alt, Nat.sub_diag by done. done. }
  intros s x Hx. destruct (Hheap s x Hx) as (x' & Hx' & Hin & Hout).
  exists x'. split; [done|]. split; [|done]. intros Hs.
  specialize (Hin Hs). split; [done|]. by eapply enqueue_sent.
Qed.

Lemma publish_alone_returns_witness :
  let σ := state_after fifo_before NewSubPub in
  reachable σ ∧
  ∃ σ',
    run (LPublish "topic" 9 ::
         replicate (length (subscribers "topic" (subs σ)))
           (LEnqueue (length (pubs σ))) ++
         [LPublishRet (length (pubs σ))]) σ =
      Some (σ', [EvPublish (inl (length (pubs σ)))]) ∧
    panicked σ' = false ∧ subs σ' = subs σ ∧ closed σ' = false ∧
    wg σ' = wg σ ∧ closer σ' = closer σ ∧
    pubs σ' = pubs σ ++ [PublishCall "topic" 9 [] true
                           (subscribers "topic" (subs σ))] ∧
    ∀ s x, heap σ !! s = Some x →
      ∃ x', heap σ' !! s = Some x' ∧
            (s ∈ subscribers "topic" (subs σ) →
             enqueue (length (pubs σ), 9) x = EnqDone x' ∧
             sent x' = sent x ++ [(length (pubs σ), 9)]) ∧
            (s ∉ subscribers "topic" (subs σ) → x' = x).
Proof.
  intros σ.
  assert (reachable σ) as Hr.
  { exists fifo_before, (returns_of fifo_before NewSubPub).
    vm_compute; reflexivity. }
  split; [exact Hr|].
  apply (publish_alone_returns σ "topic" 9 Hr eq_refl eq_refl).
  intros s x Hin Hx. vm_compute in Hin.
  apply elem_of_cons in Hin as [->|Hin];
    [vm_compute in Hx; injection Hx as <-; reflexivity|].
  apply elem_of_cons in Hin as [->|Hin];
    [vm_compute in Hx; injection Hx as <-; reflexivity|].
  by apply elem_of_nil in Hin.
Defined.

(** ** The return of Close *)

(** The body of [once] runs in the goroutine of [Close] only for the
    subscription its loop is at. *)
Lemma reachable_running_by_close σ s x :
  reachable σ → heap σ !! s = Some x → once x = OnceRunning true →
  ∃ c rest, closer σ = Some c ∧ c_pc c = CUnsub (s :: rest).
Proof.
  intros Hr. revert s x.
  induction Hr as [|l σ σ' evs Hr IH Hs] using reachable_invariant;
    intros s0 x0 Hx0 Ho0; [done|].
  assert (∀ s1 x1 x1',
            heap σ !! s1 = Some x1 → <[s1:=x1']> (heap σ) !! s0 = Some x0 →
            once x1' = once x1 ∨ once x1' ≠ OnceRunning true →
            closer σ' = closer σ →
            ∃ c rest, closer σ' = Some c ∧ c_pc c = CUnsub (s0 :: rest))
    as Hkeep.
  { intros s1 x1 x1' Hx1 Hl Ho Hc. rewrite Hc.
    apply list_lookup_insert_Some in Hl as [(-> & <- & _)|[_ Hl]]; [|eauto].
    destruct Ho as [Ho|Ho]; [|done]. eapply IH; [done|congruence]. }
  step_cases Hs; simpl in *; eauto.
  all: try (eapply Hkeep; [eassumption|eassumption| |reflexivity];
            first [by left|by right]; fail).
  all: try (apply lookup_app_Some in Hx0 as [Hx0|[_ Hx0]]; [by eauto|];
            apply list_lookup_singleton_Some in Hx0 as [_ <-]; done).
  all: try (match goal with
            | H : enqueue _ ?y = EnqDone _ |- _ =>
                eapply Hkeep; [eassumption|eassumption| |reflexivity];
                left; unfold enqueue in H; repeat case_match; simplify_eq; done
            | H : blocked_send ?y = Some _ |- _ =>
                eapply Hkeep; [eassumption|eassumption| |reflexivity];
                left; unfold blocked_send in H; repeat case_match; simplify_eq;
                done
            | H : worker_recv ?y = Some _ |- _ =>
                eapply Hkeep; [eassumption|eassumption| |reflexivity];
                left; unfold worker_recv in H; repeat case_match; simplify_eq;
                done
            | H : handler_return ?y = Some _ |- _ =>
                eapply Hkeep; [eassumption|eassumption| |reflexivity];
                left; unfold handler_return in H; repeat case_match;
                simplify_eq; done
            end).
  all: try (apply list_lookup_insert_Some in Hx0 as [(-> & <- & _)|[Hne Hx0]]).
  all: simpl in *; try done.
  all: try (destruct (IH _ _ Hx0 Ho0) as (c0 & rest0 & Hc0 & Hpc0)).
  all: simplify_eq/=.
  all: try (by eauto).
  all: try congruence.
  assert (closed σ = true); [|congruence].
  apply (bus_closed _ (reachable_bus_ok _ Hr)). by eexists.
Qed.

Lemma select_at_deadline σ c d :
  panicked σ = false → closer σ = Some c → c_pc c = CSelect d →
  run [LCtxDone; LCloseSelect false] σ =
    Some (set_closer (Some (set_pc (CRet (Some ErrCtx)) (set_ctx_done true c)))
            σ, [EvClose (Some ErrCtx)]).
Proof.
  intros Hnp Hc Hpc. simpl. unfold step at 1, quiet, Ctx_step.
  rewrite Hnp, Hc. simpl. unfold step, Close_select. simpl.
  rewrite Hnp, Hpc. done.
Qed.

(** X14.  A call of [Close] that is in flight returns the error of its context
    as soon as the context is done, without a step of any worker, handler,
    detached sender or publisher: its loop needs only its own steps and the
    last step of a caller of [Unsubscribe] that runs the body of [once], and
    the [select] takes [<-ctx.Done()].  A handler that never returns cannot
    hold [Close] beyond its deadline. *)
Theorem close_returns_at_deadline σ c :
  reachable σ → panicked σ = false → closer σ = Some c →
  (∀ r, c_pc c ≠ CRet r) →
  ∃ ls σ' evs c',
    run (ls ++ [LCtxDone; LCloseSelect false]) σ =
      Some (σ', evs ++ [EvClose (Some ErrCtx)]) ∧
    (∀ k, k ∈ ls → k = LCloseStep ∨ ∃ s, k = LUnsubClose s) ∧
    closer σ' = Some c' ∧ c_pc c' = CRet (Some ErrCtx).
Proof.
  intros Hr Hnp Hc Hpc. destruct (c_pc c) as [l|d|r] eqn:Hpc0.
  - destruct (close_loop_ends l σ c Hr Hnp Hc Hpc0)
      as (ls & σ1 & evs & c1 & Hrun & Hnp1 & Hc1 & Hpc1 & Hls).
    eexists ls, _, evs, _. rewrite run_app, Hrun.
    rewrite (select_at_deadline σ1 c1 false Hnp1 Hc1 Hpc1).
    split; [done|]. split; [done|]. simpl. done.
  - eexists [], _, [], _. simpl app.
    rewrite (select_at_deadline σ c d Hnp Hc Hpc0).
    split; [done|]. split; [by intros k ?%elem_of_nil|]. simpl. done.
  - by destruct (Hpc r).
Qed.

Lemma close_returns_at_deadline_witness :
  let σ := state_after [LSubscribe "a" 1; LPublish "a" 5; LEnqueue 0;
                        LWorker 0; LClose ["a"]] NewSubPub in
  let c := CloseCall (CUnsub [0]) false [0] in
  reachable σ ∧ closer σ = Some c ∧
  ∃ ls σ' evs c',
    run (ls ++ [LCtxDone; LCloseSelect false]) σ =
      Some (σ', evs ++ [EvClose (Some ErrCtx)]) ∧
    (∀ k, k ∈ ls → k = LCloseStep ∨ ∃ s, k = LUnsubClose s) ∧
    closer σ' = Some c' ∧ c_pc c' = CRet (Some ErrCtx).
Proof.
  intros σ c.
  assert (reachable σ) as Hr.
  { exists [LSubscribe "a" 1; LPublish "a" 5; LEnqueue 0; LWorker 0;
            LClose ["a"]], [EvSubscribe (inl 0)].
    vm_compute; reflexivity. }
  assert (closer σ = Some c) as Hc by (vm_compute; reflexivity).
  split; [exact Hr|]. split; [exact Hc|].
  apply (close_returns_at_deadline σ c Hr eq_refl Hc).
  intros r. discriminate.
Defined.

Lemma live_workers_pos h :
  0 < live_workers h → ∃ s x, h !! s = Some x ∧ worker x ≠ WExited.
Proof.
  unfold live_workers. induction h as [|x h IH]; simpl; [lia|].
  intros Hpos. destruct (worker x) eqn:Hw.
  - exists 0, x. by rewrite Hw.
  - exists 0, x. by rewrite Hw.
  - unfold live in Hpos at 1. rewrite Hw in Hpos.
    destruct IH as (s & y & Hy & Hwy); [simpl in Hpos; lia|].
    by exists (S s), y.
Qed.

(** Past the loop of [Close] every worker can be brought to its end by
    steps of workers, returns of handlers and the last step of callers of
    [Unsubscribe]. *)
Lemma workers_leave n σ c :
  reachable σ → panicked σ = false → closer σ = Some c →
  c_pc c = CSelect false → wg σ ≤ n →
  ∃ ls σ' evs,
    run ls σ = Some (σ', evs) ∧ panicked σ' = false ∧ closer σ' = Some c ∧
    wg σ' = 0 ∧
    ∀ k, k ∈ ls → ∃ s, k = LUnsubClose s ∨ k = LWorker s ∨ k = LHandlerRet s.
Proof.
  revert σ. induction n as [|n IH]; intros σ Hr Hnp Hc Hpc Hn.
  { exists [], σ, []. split; [done|]. split; [done|]. split; [done|].
    split; [lia|]. by intros k ?%elem_of_nil. }
  destruct (decide (wg σ = 0)) as [H0|H0].
  { exists [], σ, []. split; [done|]. split; [done|]. split; [done|].
    split; [done|]. by intros k ?%elem_of_nil. }
  destruct (live_workers_pos (heap σ)) as (s & x & Hx & Hw).
  { rewrite <-(cl_wg _ (reachable_close_ok _ Hr)). lia. }
  assert (s < length (heap σ)) as Hlt by (by eapply lookup_lt_Some).
  assert (∀ σ0 x0 ls0 evs0,
            run ls0 σ = Some (σ0, evs0) → panicked σ0 = false →
            closer σ0 = Some c → wg σ0 = wg σ →
            heap σ0 !! s = Some x0 → ch_closed x0 = true →
            worker x0 ≠ WExited →
            (∀ k, k ∈ ls0 →
               ∃ s, k = LUnsubClose s ∨ k = LWorker s ∨ k = LHandlerRet s) →
            ∃ ls σ' evs,
              run ls σ = Some (σ', evs) ∧ panicked σ' = false ∧
              closer σ' = Some c ∧ wg σ' = 0 ∧
              ∀ k, k ∈ ls →
                ∃ s, k = LUnsubClose s ∨ k = LWorker s ∨ k = LHandlerRet s)
    as Hgo.
  { intros σ0 x0 ls0 evs0 Hrun0 Hnp0 Hc0 Hwg0 Hx0 Hcl0 Hw0 Hls0.
    assert (reachable σ0) as Hr0 by (by eapply reachable_run).
    destruct (worker_leaves σ0 s x0 Hnp0 Hx0 Hcl0 Hw0)
      as (ls1 & Hls1 & Hrun1).
    set (σ1 := set_wg (wg σ0 - 1) (store s (drained x0) σ0)) in *.
    destruct (IH σ1) as (ls2 & σ2 & evs2 & Hrun2 & Hnp2 & Hc2 & Hwg2 & Hls2);
      try done.
    { by eapply reachable_run. }
    { simpl. lia. }
    exists (ls0 ++ ls1 ++ ls2), σ2, (evs0 ++ [] ++ evs2).
    rewrite run_app, Hrun0, run_app, Hrun1, Hrun2.
    split; [done|]. split; [done|]. split; [done|]. split; [done|].
    intros k [Hk|[Hk|Hk]%elem_of_app]%elem_of_app; [eauto| |eauto].
    destruct (Hls1 k Hk) as [->| ->]; eauto. }
  pose proof (reachable_sub_ok _ _ _ Hr Hx) as Hsub.
  destruct (once x) as [|[|]|] eqn:Ho.
  - pose proof (cl_idle _ (reachable_close_ok _ Hr) c Hc s) as Hin.
    rewrite Hx, Hpc in Hin. simpl in Hin. rewrite Ho in Hin.
    specialize (Hin eq_refl). by apply elem_of_nil in Hin.
  - destruct (reachable_running_by_close σ s x Hr Hx Ho)
      as (c0 & rest & Hc0 & Hpc0). congruence.
  - apply (Hgo (store s (close_queue x) σ) (close_queue x) [LUnsubClose s]
             [EvUnsubscribe s]); try done.
    + simpl. unfold step, Unsubscribe_close. rewrite Hnp, Hx. simpl.
      by rewrite Ho.
    + simpl. by rewrite list_lookup_insert_eq.
    + intros k ->%list_elem_of_singleton. eauto.
  - apply (Hgo σ x [] []); try done.
    + by apply (ok_closed _ Hsub).
    + by intros k ?%elem_of_nil.
Qed.

Lemma select_after_workers σ c :
  reachable σ → panicked σ = false → closer σ = Some c →
  c_pc c = CSelect false →
  ∃ ls σ' evs,
    run (ls ++ [LCloseSelect true]) σ = Some (σ', evs ++ [EvClose None]) ∧
    (∀ k, k ∈ ls →
       k = LCloseStep ∨ k = LWaiter ∨
       ∃ s, k = LUnsubClose s ∨ k = LWorker s ∨ k = LHandlerRet s) ∧
    closer σ' = Some (set_pc (CRet None) c).
Proof.
  intros Hr Hnp Hc Hpc.
  destruct (workers_leave (wg σ) σ c Hr Hnp Hc Hpc)
    as (ls & σ1 & evs & Hrun & Hnp1 & Hc1 & Hwg1 & Hls); [done|].
  eexists (ls ++ [LWaiter]), _, evs.
  rewrite <-(assoc_L (++)), run_app, Hrun. simpl.
  unfold step at 1, quiet, Waiter_step. rewrite Hnp1, Hc1. simpl.
  rewrite Hpc, decide_True by done. simpl.
  unfold step, Close_select. simpl. rewrite Hnp1. simpl.
  split; [done|]. split; [|done].
  intros k [Hk| ->%list_elem_of_singleton]%elem_of_app; [|by eauto].
  right. right. by apply Hls.
Qed.

(** X15.  A call of [Close] that is in flight returns nil provided the handlers
    that are running return: steps of [Close] itself, of the workers and of
    callers of [Unsubscribe] that run the body of [once] are enough, together
    with the return of each handler a worker is in.  No publisher and no
    detached sender is needed, and the context need not be done. *)
Theorem close_returns_nil_when_handlers_return σ c :
  reachable σ → panicked σ = false → closer σ = Some c →
  (∀ r, c_pc c ≠ CRet r) →
  ∃ ls σ' evs c',
    run (ls ++ [LCloseSelect true]) σ = Some (σ', evs ++ [EvClose None]) ∧
    (∀ k, k ∈ ls →
       k = LCloseStep ∨ k = LWaiter ∨
       ∃ s, k = LUnsubClose s ∨ k = LWorker s ∨ k = LHandlerRet s) ∧
    closer σ' = Some c' ∧ c_pc c' = CRet None.
Proof.
  intros Hr Hnp Hc Hpc. destruct (c_pc c) as [l|[|]|r] eqn:Hpc0.
  - destruct (close_loop_ends l σ c Hr Hnp Hc Hpc0)
      as (ls & σ1 & evs & c1 & Hrun & Hnp1 & Hc1 & Hpc1 & Hls).
    destruct (select_after_workers σ1 c1)
      as (ls2 & σ2 & evs2 & Hrun2 & Hls2 & Hc2); try done.
    { by eapply reachable_run. }
    exists (ls ++ ls2), σ2, (evs ++ evs2), (set_pc (CRet None) c1).
    rewrite <-!(assoc_L (++)), run_app, Hrun, Hrun2.
    split; [done|]. split; [|done].
    intros k [Hk|Hk]%elem_of_app; [|by apply Hls2].
    destruct (Hls k Hk) as [->|[s ->]]; eauto.
  - eexists [], _, [], _. simpl. unfold step, Close_select.
    rewrite Hnp, Hc. simpl. rewrite Hpc0.
    split; [done|]. split; [by intros k ?%elem_of_nil|]. simpl. done.
  - destruct (select_after_workers σ c)
      as (ls2 & σ2 & evs2 & Hrun2 & Hls2 & Hc2); try done.
    by exists ls2, σ2, evs2, (set_pc (CRet None) c).
  - by destruct (Hpc r).
Qed.

Lemma close_returns_nil_when_handlers_return_witness :
  let σ := state_after [LSubscribe "a" 1; LPublish "a" 5; LEnqueue 0;
                        LWorker 0; LClose ["a"]] NewSubPub in
  let c := CloseCall (CUnsub [0]) false [0] in
  reachable σ ∧ closer σ = Some c ∧
  ∃ ls σ' evs c',
    run (ls ++ [LCloseSelect true]) σ = Some (σ', evs ++ [EvClose None]) ∧
    (∀ k, k ∈ ls →
       k = LCloseStep ∨ k = LWaiter ∨
       ∃ s, k = LUnsubClose s ∨ k = LWorker s ∨ k = LHandlerRet s) ∧
    closer σ' = Some c' ∧ c_pc c' = CRet None.
Proof.
  intros σ c.
  assert (reachable σ) as Hr.
  { exists [LSubscribe "a" 1; LPublish "a" 5; LEnqueue 0; LWorker 0;
            LClose ["a"]], [EvSubscribe (inl 0)].
    vm_compute; reflexivity. }
  assert (closer σ = Some c) as Hc by (vm_compute; reflexivity).
  split; [exact Hr|]. split; [exact Hc|].
  apply (close_returns_nil_when_handlers_return σ c Hr eq_refl Hc).
  intros r. discriminate.
Defined.

(** ** What a nil of Close stands for *)

(** X24.  Whenever [Close] has returned nil, every worker has left with its
    queue closed and empty, and the message of every call of [Publish] that
    had returned nil before has been handed to the handler of every
    subscription in the copy of that call, or else is the one message that
    the detached sender of [enqueue] held for that subscription when its
    queue was closed: that send ends in the recovered panic and the message
    is dropped (the detached sender has dropped it or is about to). *)
Theorem close_drains_queued ls1 ls2 σ1 σ2 e1 e2 p c s :
  run ls1 NewSubPub = Some (σ1, e1) →
  EvPublish (inl p) ∈ e1 → pubs σ1 !! p = Some c → s ∈ p_snapshot c →
  run ls2 σ1 = Some (σ2, e2) → EvClose None ∈ e2 →
  ∃ x, heap σ2 !! s = Some x ∧ worker x = WExited ∧ ch x = [] ∧
       ch_closed x = true ∧
       ((p, p_msg c) ∈ calls x ∨
        sender x = Some (p, p_msg c) ∨ dropped x = [(p, p_msg c)]).
Proof.
  intros Hrun1 Hev Hc Hs Hrun2 Hcl.
  assert (reachable σ1) as Hr1 by (by exists ls1, e1).
  assert (reachable σ2) as Hr2 by (by eapply reachable_run).
  destruct (run_establishes _ _ _ _ _ reachable_init Hrun1 Hev)
    as (c' & Hc' & Hret). simplify_eq.
  pose proof (reachable_pubs_ok _ Hr1) as Hpubs1.
  pose proof (pub_ret _ Hpubs1 _ _ Hc Hret) as Hcopy.
  destruct (pub_split _ Hpubs1 _ _ Hc) as (past & Hsnap & Hpast).
  rewrite Hcopy, (right_id_L [] (++)) in Hsnap. rewrite Hsnap in Hs.
  destruct (Hpast s Hs) as (l & (x1 & Hx1 & ->)%fmap_Some & Hl).
  destruct (run_heap_le _ _ _ _ _ _ Hrun2 Hx1) as (x & Hx & Hle).
  destruct (run_establishes _ _ _ _ _ Hr1 Hrun2 Hcl) as [_ Hpc].
  destruct Hpc as (cl & Hcl' & Hpc); [done|].
  assert (wg σ2 = 0) as H0.
  { apply (cl_done _ (reachable_close_ok _ Hr2) cl Hcl'). by right. }
  destruct (wg_zero _ _ _ Hr2 H0 Hx) as [Hw Hch].
  pose proof (reachable_sub_ok _ _ _ Hr2 Hx) as Hsub.
  exists x. split; [done|]. split; [done|]. split; [done|].
  split; [by apply (ok_exited _ Hsub)|].
  assert ((p, p_msg c) ∈ sent x) as Hin.
  { destruct (le_sent _ _ Hle) as [k ->]. set_solver. }
  rewrite (ok_sent _ Hsub), Hch in Hin. simpl in Hin.
  apply elem_of_app in Hin as [Hin|Hin]; [by left|right].
  pose proof (ok_one _ Hsub) as Hone.
  destruct (sender x) as [t|]; simpl in *.
  - destruct (dropped x); [|simpl in Hone; lia].
    apply list_elem_of_singleton in Hin as ->. by left.
  - destruct (dropped x) as [|t [|??]]; [by apply elem_of_nil in Hin| |].
    + apply list_elem_of_singleton in Hin as ->. by right.
    + simpl in Hone. lia.
Qed.

Lemma close_drains_queued_witness :
  let σ1 := state_after overflow_before NewSubPub in
  let σ2 := state_after overflow_close σ1 in
  let c := PublishCall "t" 65 [] true [0] in
  run overflow_before NewSubPub =
    Some (σ1, returns_of overflow_before NewSubPub) ∧
  EvPublish (inl 65) ∈ returns_of overflow_before NewSubPub ∧
  pubs σ1 !! 65 = Some c ∧ 0 ∈ p_snapshot c ∧
  run overflow_close σ1 = Some (σ2, [EvClose None]) ∧
  EvClose None ∈ [EvClose None] ∧
  ∃ x, heap σ2 !! 0 = Some x ∧ worker x = WExited ∧ ch x = [] ∧
       ch_closed x = true ∧
       ((65, p_msg c) ∈ calls x ∨
        sender x = Some (65, p_msg c) ∨ dropped x = [(65, p_msg c)]).
Proof.
  intros σ1 σ2 c.
  assert (run overflow_before NewSubPub =
            Some (σ1, returns_of overflow_before NewSubPub)) as H1
    by (vm_compute; reflexivity).
  assert (EvPublish (inl 65) ∈ returns_of overflow_before NewSubPub) as H3
    by (vm_compute; elem_of_here).
  assert (pubs σ1 !! 65 = Some c) as H4 by (vm_compute; reflexivity).
  assert (run overflow_close σ1 = Some (σ2, [EvClose None])) as H5
    by (vm_compute; reflexivity).
  assert (0 ∈ p_snapshot c) as Hs by (simpl; elem_of_here).
  assert (EvClose None ∈ [EvClose None]) as Hc by elem_of_here.
  split; [exact H1|]. split; [exact H3|]. split; [exact H4|].
  split; [exact Hs|]. split; [exact H5|]. split; [exact Hc|].
  exact (close_drains_queued _ _ _ _ _ _ _ _ _ H1 H3 H4 Hs H5 Hc).
Defined.

(** ** A call of Publish among others *)

Lemma store_id s x σ : heap σ !! s = Some x → store s x σ = σ.
Proof.
  intros Hx. unfold store, set_heap. rewrite list_insert_id by done.
  by destruct σ.
Qed.

(** The detached sender of a subscription with an open queue gets through
    once the worker has taken one message: after that [sendMu] is free. *)
Lemma sendMu_gets_free σ s x :
  reachable σ → panicked σ = false → heap σ !! s = Some x →
  ch_closed x = false →
  ∃ ls σ' x',
    run ls σ = Some (σ', []) ∧
    (∀ k, k ∈ ls → k = LSender s ∨ k = LWorker s ∨ k = LHandlerRet s) ∧
    σ' = store s x' σ ∧ sendMu x' = false ∧ ch_closed x' = false.
Proof.
  intros Hr Hnp Hx Hcl. pose proof (reachable_sub_ok _ _ _ Hr Hx) as Hsub.
  assert (s < length (heap σ)) as Hlt by (by eapply lookup_lt_Some).
  destruct (sendMu x) eqn:Hmu.
  2: { exists [], σ, x. split; [done|]. split; [by intros k ?%elem_of_nil|].
       split; [by rewrite store_id|done]. }
  destruct (proj1 (ok_sendMu _ Hsub) Hmu) as [t Ht].
  assert (∀ σ0 x0 ls0,
            run ls0 σ = Some (σ0, []) → σ0 = store s x0 σ →
            panicked σ0 = false → sender x0 = Some t → ch_closed x0 = false →
            length (ch x0) < capacity →
            (∀ k, k ∈ ls0 → k = LSender s ∨ k = LWorker s ∨ k = LHandlerRet s) →
            ∃ ls σ' x',
              run ls σ = Some (σ', []) ∧
              (∀ k, k ∈ ls →
                 k = LSender s ∨ k = LWorker s ∨ k = LHandlerRet s) ∧
              σ' = store s x' σ ∧ sendMu x' = false ∧ ch_closed x' = false)
    as Hsend.
  { intros σ0 x0 ls0 Hrun0 -> Hnp0 Ht0 Hcl0 Hlen0 Hls0.
    set (x' := set_ch (ch x0 ++ [t]) (set_sender None (set_sendMu false x0))).
    exists (ls0 ++ [LSender s]), (store s x' σ), x'.
    rewrite run_app, Hrun0. simpl.
    unfold step, quiet, Sender_step, blocked_send. simpl in *. rewrite Hnp0.
    rewrite list_lookup_insert_eq by done. simpl.
    rewrite Ht0, Hcl0, decide_True by done. simpl.
    split; [by rewrite store_store|]. split; [|done].
    intros k [Hk| ->%list_elem_of_singleton]%elem_of_app; eauto. }
  destruct (decide (length (ch x) < capacity)) as [Hroom|Hfull].
  { apply (Hsend σ x []); try done; [by rewrite store_id|].
    by intros k ?%elem_of_nil. }
  destruct (ch x) as [|t0 rest] eqn:Hch;
    [simpl in Hfull; unfold capacity in Hfull; lia|].
  pose proof (ok_cap _ Hsub) as Hcap. rewrite Hch in Hcap. simpl in Hcap.
  destruct (worker x) eqn:Hw.
  - set (x1 := set_calls (calls x ++ [t0])
                 (set_worker WHandler (set_ch rest x))).
    apply (Hsend (store s x1 σ) x1 [LWorker s]); try done;
      try (simpl; lia); try (intros k ->%list_elem_of_singleton; by eauto).
    simpl. unfold step, quiet, Worker_step, worker_recv.
    rewrite Hnp, Hx. simpl. by rewrite Hw, Hch.
  - set (x0 := set_worker WRecv x).
    set (x1 := set_calls (calls x0 ++ [t0])
                 (set_worker WHandler (set_ch rest x0))).
    apply (Hsend (store s x1 σ) x1 [LHandlerRet s; LWorker s]); try done;
      try (simpl; lia);
      try (intros k [->| ->%list_elem_of_singleton]%elem_of_cons; by eauto).
    simpl. unfold step at 1, quiet, Handler_step, handler_return.
    rewrite Hnp, Hx. simpl. rewrite Hw. simpl. fold x0.
    unfold step, quiet, Worker_step, worker_recv. simpl. rewrite Hnp.
    rewrite list_lookup_insert_eq by done. simpl. rewrite Hch. simpl.
    by rewrite store_store.
  - destruct (ok_exited _ Hsub Hw) as [_ ?]. congruence.
Qed.

Lemma publish_completes n p :
  ∀ σ c,
    reachable σ → panicked σ = false → pubs σ !! p = Some c →
    p_ret c = false → length (p_copy c) ≤ n →
    (∀ s x, s ∈ p_copy c → heap σ !! s = Some x → ch_closed x = false) →
    ∃ ls σ',
      run ls σ = Some (σ', [EvPublish (inl p)]) ∧
      ∀ k, k ∈ ls →
        k = LEnqueue p ∨ k = LPublishRet p ∨
        ∃ s, s ∈ p_copy c ∧
             (k = LSender s ∨ k = LWorker s ∨ k = LHandlerRet s).
Proof.
  induction n as [|n IH]; intros σ c Hr Hnp Hc Hret Hn Hopen.
  all: destruct (p_copy c) as [|s rest] eqn:Hcopy; [|simpl in Hn; try lia].
  1,2: eexists [LPublishRet p], _; split;
    [simpl; unfold step, Publish_return; rewrite Hnp, Hc; simpl;
     by rewrite Hcopy, Hret
    |intros k ->%list_elem_of_singleton; eauto].
  assert (p < length (pubs σ)) as Hp by (by eapply lookup_lt_Some).
  assert (s ∈ p_snapshot c) as Hin.
  { destruct (pub_split _ (reachable_pubs_ok _ Hr) p c Hc) as (past & -> & _).
    rewrite Hcopy. apply elem_of_app. right. apply list_elem_of_here. }
  pose proof (pub_subj _ (reachable_pubs_ok _ Hr) p c s Hc Hin) as Hsubj.
  destruct (heap σ !! s) as [x|] eqn:Hx; [|done]. clear Hsubj.
  assert (s < length (heap σ)) as Hlt by (by eapply lookup_lt_Some).
  destruct (sendMu_gets_free σ s x Hr Hnp Hx)
    as (ls1 & σ1 & x1 & Hrun1 & Hls1 & -> & Hmu1 & Hcl1).
  { apply (Hopen s x); [apply list_elem_of_here|done]. }
  assert (∃ x2, enqueue (p, p_msg c) x1 = EnqDone x2 ∧
                ch_closed x2 = false) as (x2 & He & Hcl2).
  { unfold enqueue. rewrite Hmu1, Hcl1. case_decide; by eexists. }
  set (σ2 := store_pub p (set_copy rest c) (store s x2 (store s x1 σ))).
  assert (step (LEnqueue p) (store s x1 σ) = Some (σ2, [])) as Hs2.
  { unfold step, quiet, Publish_enqueue. simpl. rewrite Hnp, Hc. simpl.
    rewrite Hcopy, list_lookup_insert_eq by done. simpl. by rewrite He. }
  assert (reachable σ2) as Hr2.
  { eapply reachable_step; [|exact Hs2]. by eapply reachable_run. }
  destruct (IH σ2 (set_copy rest c)) as (ls3 & σ3 & Hrun3 & Hls3); try done.
  { simpl. by rewrite list_lookup_insert_eq. }
  { simpl. lia. }
  { simpl. intros s' y Hs' Hy. rewrite list_insert_insert_eq in Hy.
    apply list_lookup_insert_Some in Hy as [(-> & <- & _)|[Hne Hy]]; [done|].
    apply (Hopen s' y); [by apply list_elem_of_further|done]. }
  exists (ls1 ++ [LEnqueue p] ++ ls3), σ3.
  rewrite run_app, Hrun1, run_app. simpl run at 1. rewrite Hs2. simpl.
  rewrite Hrun3. split; [done|].
  intros k [Hk|[->|Hk]%elem_of_cons]%elem_of_app.
  - right. right. exists s. split; [apply list_elem_of_here|by apply Hls1].
  - by left.
  - destruct (Hls3 k Hk) as [?|[?|(s' & Hs' & ?)]]; [by left|by right; left|].
    right. right. exists s'. split; [by apply list_elem_of_further|done].
Qed.

(** X16.  A call of [Publish] in flight returns nil, provided no queue it still
    has to reach is closed and the handlers of those subscriptions return:
    where [sendMu] is held the worker has to take one message for the
    detached sender to get through, which takes at most the return of the
    handler it is in; nothing else is waited for, neither other publishers nor
    other subscriptions. *)
Theorem publish_returns_when_handlers_return σ p c :
  reachable σ → panicked σ = false → pubs σ !! p = Some c →
  p_ret c = false →
  (∀ s x, s ∈ p_copy c → heap σ !! s = Some x → ch_closed x = false) →
  ∃ ls σ',
    run ls σ = Some (σ', [EvPublish (inl p)]) ∧
    ∀ k, k ∈ ls →
      k = LEnqueue p ∨ k = LPublishRet p ∨
      ∃ s, s ∈ p_copy c ∧ (k = LSender s ∨ k = LWorker s ∨ k = LHandlerRet s).
Proof.
  intros Hr Hnp Hc Hret Hopen.
  by apply (publish_completes (length (p_copy c)) p σ c).
Qed.

Lemma publish_returns_when_handlers_return_witness :
  let σ := state_after slow_schedule NewSubPub in
  let c := PublishCall "t" 66 [0; 1] false [0; 1] in
  reachable σ ∧ panicked σ = false ∧ pubs σ !! 66 = Some c ∧
  ∃ ls σ',
    run ls σ = Some (σ', [EvPublish (inl 66)]) ∧
    ∀ k, k ∈ ls →
      k = LEnqueue 66 ∨ k = LPublishRet 66 ∨
      ∃ s, s ∈ p_copy c ∧ (k = LSender s ∨ k = LWorker s ∨ k = LHandlerRet s).
Proof.
  intros σ c.
  assert (reachable σ) as Hr.
  { exists slow_schedule, (returns_of slow_schedule NewSubPub).
    vm_compute; reflexivity. }
  assert (panicked σ = false) as Hnp by (vm_compute; reflexivity).
  assert (pubs σ !! 66 = Some c) as Hc by (vm_compute; reflexivity).
  assert (heap σ !! 0 =
            Some (Subscription "t" ((λ i, (i, i)) <$> seq 1 64) false 1
                    OnceIdle true WHandler (Some (65, 65))
                    ((λ i, (i, i)) <$> seq 0 66) [(0, 0)] [])) as H0
    by (vm_compute; reflexivity).
  assert (heap σ !! 1 =
            Some (Subscription "t" [] false 2 OnceIdle false WRecv None
                    ((λ i, (i, i)) <$> seq 0 66) ((λ i, (i, i)) <$> seq 0 66)
                    [])) as H1
    by (vm_compute; reflexivity).
  split; [exact Hr|]. split; [exact Hnp|]. split; [exact Hc|].
  apply (publish_returns_when_handlers_return σ 66 c Hr Hnp Hc eq_refl).
  intros s x Hin Hx. change (s ∈ [0; 1]) in Hin.
  apply elem_of_cons in Hin as [Hs|Hin].
  { subst s. pose proof (eq_trans (eq_sym Hx) H0) as He. injection He as ->.
    reflexivity. }
  apply list_elem_of_singleton in Hin. subst s.
  pose proof (eq_trans (eq_sym Hx) H1) as He. injection He as ->. reflexivity.
Defined.

(** ** The return of Unsubscribe *)

(** X17.  A call of [Unsubscribe] returns after at most two steps, whatever the
    handlers, the publishers and the detached senders do: it runs the body
    of [once] itself, or waits for the one step that is left to the caller of
    [Unsubscribe] or to the [Close] that runs it, or finds it over.
    Afterwards the queue is closed and no subject lists the subscription. *)
Theorem unsubscribe_returns σ s x :
  reachable σ → panicked σ = false → heap σ !! s = Some x →
  ∃ ls σ' evs x',
    run ls σ = Some (σ', evs ++ [EvUnsubscribe s]) ∧ length ls ≤ 2 ∧
    (∀ k, k ∈ ls → k = LUnsubscribe s ∨ k = LUnsubClose s ∨ k = LCloseStep) ∧
    heap σ' !! s = Some x' ∧ once x' = OnceDone ∧ ch_closed x' = true ∧
    ∀ subj, s ∉ subscribers subj (subs σ').
Proof.
  intros Hr Hnp Hx.
  assert (s < length (heap σ)) as Hlt by (by eapply lookup_lt_Some).
  assert (∀ ls σ' evs x',
            run ls σ = Some (σ', evs ++ [EvUnsubscribe s]) → length ls ≤ 2 →
            (∀ k, k ∈ ls →
               k = LUnsubscribe s ∨ k = LUnsubClose s ∨ k = LCloseStep) →
            heap σ' !! s = Some x' → once x' = OnceDone →
            ∃ ls σ' evs x',
              run ls σ = Some (σ', evs ++ [EvUnsubscribe s]) ∧ length ls ≤ 2 ∧
              (∀ k, k ∈ ls →
                 k = LUnsubscribe s ∨ k = LUnsubClose s ∨ k = LCloseStep) ∧
              heap σ' !! s = Some x' ∧ once x' = OnceDone ∧
              ch_closed x' = true ∧
              ∀ subj, s ∉ subscribers subj (subs σ')) as Hgo.
  { intros ls σ' evs x' Hrun Hlen Hls Hx' Ho'.
    assert (reachable σ') as Hr' by (by eapply reachable_run).
    exists ls, σ', evs, x'. split_and!; try done.
    - by apply (ok_closed _ (reachable_sub_ok _ _ _ Hr' Hx')).
    - intros subj Hin.
      destruct (bus_reg _ (reachable_bus_ok _ Hr') subj s Hin) as [_ Hidle].
      rewrite Hx' in Hidle. simpl in Hidle. congruence. }
  destruct (once x) as [|[|]|] eqn:Ho.
  - apply (Hgo [LUnsubscribe s; LUnsubClose s]
             (store s (close_queue (set_once (OnceRunning false) x))
                (set_subs (remove_from_registry s (subject x) (subs σ)) σ))
             [] (close_queue (set_once (OnceRunning false) x))).
    + simpl. unfold step at 1, Unsubscribe_enter. rewrite Hnp, Hx. simpl.
      rewrite Ho. unfold step, Unsubscribe_close. simpl. rewrite Hnp.
      rewrite list_lookup_insert_eq by done. simpl.
      unfold store, set_heap, set_subs. simpl.
      by rewrite list_insert_insert_eq.
    + simpl. lia.
    + intros k [->| ->%list_elem_of_singleton]%elem_of_cons; eauto.
    + simpl. by rewrite list_lookup_insert_eq.
    + done.
  - destruct (reachable_running_by_close σ s x Hr Hx Ho)
      as (c & rest & Hc & Hpc).
    apply (Hgo [LCloseStep; LUnsubscribe s]
             (set_closer (Some (set_pc (CUnsub rest) c))
                (store s (close_queue x) σ))
             [] (close_queue x)).
    + simpl. unfold step at 1, quiet, Close_step. rewrite Hnp, Hc. simpl.
      rewrite Hpc, Hx. simpl. rewrite Ho. simpl.
      unfold step, Unsubscribe_enter. simpl. rewrite Hnp.
      rewrite list_lookup_insert_eq by done. done.
    + simpl. lia.
    + intros k [->| ->%list_elem_of_singleton]%elem_of_cons; eauto.
    + simpl. by rewrite list_lookup_insert_eq.
    + done.
  - apply (Hgo [LUnsubClose s; LUnsubscribe s] (store s (close_queue x) σ)
             [EvUnsubscribe s] (close_queue x)).
    + simpl. unfold step at 1, Unsubscribe_close. rewrite Hnp, Hx. simpl.
      rewrite Ho. unfold step, Unsubscribe_enter. simpl. rewrite Hnp.
      rewrite list_lookup_insert_eq by done. done.
    + simpl. lia.
    + intros k [->| ->%list_elem_of_singleton]%elem_of_cons; eauto.
    + simpl. by rewrite list_lookup_insert_eq.
    + done.
  - apply (Hgo [LUnsubscribe s] σ [] x).
    + simpl. unfold step, Unsubscribe_enter. rewrite Hnp, Hx. simpl.
      by rewrite Ho.
    + simpl. lia.
    + intros k ->%list_elem_of_singleton. eauto.
    + done.
    + done.
Qed.

Lemma unsubscribe_returns_witness :
  let σ := state_after slow_schedule NewSubPub in
  let x := Subscription "t" ((λ i, (i, i)) <$> seq 1 64) false 1 OnceIdle true
             WHandler (Some (65, 65)) ((λ i, (i, i)) <$> seq 0 66) [(0, 0)]
             [] in
  reachable σ ∧ panicked σ = false ∧ heap σ !! 0 = Some x ∧
  ∃ ls σ' evs x',
    run ls σ = Some (σ', evs ++ [EvUnsubscribe 0]) ∧ length ls ≤ 2 ∧
    (∀ k, k ∈ ls → k = LUnsubscribe 0 ∨ k = LUnsubClose 0 ∨ k = LCloseStep) ∧
    heap σ' !! 0 = Some x' ∧ once x' = OnceDone ∧ ch_closed x' = true ∧
    ∀ subj, 0 ∉ subscribers subj (subs σ').
Proof.
  intros σ x.
  assert (reachable σ) as Hr.
  { exists slow_schedule, (returns_of slow_schedule NewSubPub).
    vm_compute; reflexivity. }
  assert (panicked σ = false) as Hnp by (vm_compute; reflexivity).
  assert (heap σ !! 0 = Some x) as Hx by (vm_compute; reflexivity).
  split; [exact Hr|]. split; [exact Hnp|]. split; [exact Hx|].
  exact (unsubscribe_returns σ 0 x Hr Hnp Hx).
Defined.

(** * The service *)

(** ** Names of levels, and defaults *)


Lemma to_lower_spells a b :
  (97 ≤ Ascii.nat_of_ascii b ≤ 122) →
  to_lower a = b ↔ a = b ∨ Ascii.nat_of_ascii a + 32 = Ascii.nat_of_ascii b.
Proof.
  intros Hb. unfold to_lower, is_upper.
  destruct (65 <=? Ascii.nat_of_ascii a) eqn:H1;
    destruct (Ascii.nat_of_ascii a <=? 90) eqn:H2; simpl.
  all: try apply Nat.leb_le in H1; try apply Nat.leb_le in H2.
  all: try apply Nat.leb_gt in H1; try apply Nat.leb_gt in H2.
  - split.
    + intros <-. right. rewrite Ascii.nat_ascii_embedding; lia.
    + intros [->|H]; [lia|]. rewrite H. apply Ascii.ascii_nat_embedding.
  - split; [by left|]. intros [->|H]; [done|lia].
  - split; [by left|]. intros [->|H]; [done|lia].
  - split; [by left|]. intros [->|H]; [done|lia].
Qed.

Lemma map_lower_spells w s :
  lower_letters w = true → map_string to_lower s = w ↔ spells w s.
Proof.
  revert s.
  induction w as [|b w IH]; intros [|a s] Hw; cbn [map_string spells];
    try done.
  cbn [lower_letters] in Hw. apply andb_true_iff in Hw as [Hb Hw].
  apply andb_true_iff in Hb as [Hb1 Hb2].
  apply Nat.leb_le in Hb1, Hb2.
  rewrite <-(IH s Hw), <-(to_lower_spells a b) by lia.
  split; [by intros [= -> ->]|by intros [-> ->]].
Qed.

(** X18.  The level of the logger is read off the name without regard to case:
    debug, warn and error give their level, and every other string gives
    info, the empty string, info itself, a name with a blank around it and
    a longer name such as warning included.  [New] has no error. *)
Theorem New_level_by_name s :
  is_ascii s = true →
  ∃ lg, New s = Some lg ∧
    (min_level lg = LevelDebug ↔ spells "debug" s) ∧
    (min_level lg = LevelWarn ↔ spells "warn" s) ∧
    (min_level lg = LevelError ↔ spells "error" s) ∧
    (min_level lg = LevelInfo ↔
     ¬ spells "debug" s ∧ ¬ spells "warn" s ∧ ¬ spells "error" s).
Proof.
  intros Ha. unfold New, ToLower. rewrite Ha. cbn [mbind option_bind].
  eexists. split; [done|]. cbn [min_level].
  rewrite <-!map_lower_spells by done.
  repeat case_decide; split_and!; split; try done; try congruence.
  all: try (intros (? & ? & ?); congruence).
Qed.

Lemma New_level_by_name_witness :
  is_ascii "WaRn" = true ∧
  ∃ lg, New "WaRn" = Some lg ∧
    (min_level lg = LevelDebug ↔ spells "debug" "WaRn") ∧
    (min_level lg = LevelWarn ↔ spells "warn" "WaRn") ∧
    (min_level lg = LevelError ↔ spells "error" "WaRn") ∧
    (min_level lg = LevelInfo ↔
     ¬ spells "debug" "WaRn" ∧ ¬ spells "warn" "WaRn" ∧
     ¬ spells "error" "WaRn").
Proof.
  split; [reflexivity|]. exact (New_level_by_name "WaRn" eq_refl).
Defined.

(** X19.  [MustLoad] panics exactly when the file cannot be read or cannot be
    parsed, with the text of the error behind its own.  Otherwise no field of
    the configuration is at its zero value: what the file sets is kept, a
    negative timeout included, what it leaves out is [:50051], five seconds
    and [info]; loading what was loaded changes nothing. *)
Theorem MustLoad_fills_defaults ReadFile Unmarshal path :
  match MustLoad ReadFile Unmarshal path with
  | Loaded c =>
      GRPCPort c ≠ "" ∧ ShutdownTimeout c ≠ 0%Z ∧ LogLevel c ≠ "" ∧
      with_defaults c = c ∧
      ∃ data c0,
        ReadFile path = inl data ∧ Unmarshal data = inl c0 ∧
        GRPCPort c = (if decide (GRPCPort c0 = "") then ":50051"
                      else GRPCPort c0) ∧
        ShutdownTimeout c = (if decide (ShutdownTimeout c0 = 0%Z)
                             then 5000000000%Z else ShutdownTimeout c0) ∧
        LogLevel c = (if decide (LogLevel c0 = "") then "info"
                      else LogLevel c0)
  | Panic msg =>
      (∃ err, ReadFile path = inr err ∧
              msg = "не удалось прочитать конфиг: " +:+ err) ∨
      (∃ data err, ReadFile path = inl data ∧ Unmarshal data = inr err ∧
                   msg = "не удалось распарсить конфиг: " +:+ err)
  end.
Proof.
  unfold MustLoad.
  destruct (ReadFile path) as [data|err] eqn:Hr; [|left; by exists err].
  destruct (Unmarshal data) as [c0|err] eqn:Hu; [|right; by exists data, err].
  assert (∀ c1, GRPCPort c1 ≠ "" → ShutdownTimeout c1 ≠ 0%Z →
                LogLevel c1 ≠ "" → with_defaults c1 = c1) as Hfix.
  { intros c1 H1 H2 H3. unfold with_defaults.
    rewrite (decide_False (P:=GRPCPort c1 = "")) by done.
    rewrite (decide_False (P:=ShutdownTimeout c1 = 0%Z)) by done.
    by rewrite decide_False by done. }
  assert (GRPCPort (with_defaults c0) =
            (if decide (GRPCPort c0 = "") then ":50051" else GRPCPort c0) ∧
          ShutdownTimeout (with_defaults c0) =
            (if decide (ShutdownTimeout c0 = 0%Z) then 5000000000%Z
             else ShutdownTimeout c0) ∧
          LogLevel (with_defaults c0) =
            (if decide (LogLevel c0 = "") then "info" else LogLevel c0))
    as (H1 & H2 & H3).
  { unfold with_defaults, Second. repeat case_decide; simpl in *; done. }
  assert (GRPCPort (with_defaults c0) ≠ "") as Hp.
  { rewrite H1. destruct (decide (GRPCPort c0 = "")); [discriminate|done]. }
  assert (ShutdownTimeout (with_defaults c0) ≠ 0%Z) as Ht.
  { rewrite H2. destruct (decide (ShutdownTimeout c0 = 0%Z)); [lia|done]. }
  assert (LogLevel (with_defaults c0) ≠ "") as Hl.
  { rewrite H3. destruct (decide (LogLevel c0 = "")); [discriminate|done]. }
  split; [done|]. split; [done|]. split; [done|].
  split; [by apply Hfix|]. by exists data, c0.
Qed.

(** ** Calls of the service *)


Lemma srv_run_app ls1 ls2 sv :
  srv_run (ls1 ++ ls2) sv =
  match srv_run ls1 sv with
  | Some (sv1, evs1) =>
      match srv_run ls2 sv1 with
      | Some (sv2, evs2) => Some (sv2, evs1 ++ evs2)
      | None => None
      end
  | None => None
  end.
Proof.
  revert sv. induction ls1 as [|l ls1 IH]; intros sv; simpl.
  - by destruct (srv_run ls2 sv) as [[??]|].
  - destruct (srv_step l sv) as [[sv1 e1]|]; [|done].
    rewrite IH. destruct (srv_run ls1 sv1) as [[sv2 e2]|]; [|done].
    destruct (srv_run ls2 sv2) as [[sv3 e3]|]; [|done].
    by rewrite (assoc_L (++)).
Qed.

Lemma srv_run_snoc ls l sv sv' evs :
  srv_run (ls ++ [l]) sv = Some (sv', evs) →
  ∃ sv1 evs1 evs2,
    srv_run ls sv = Some (sv1, evs1) ∧ srv_step l sv1 = Some (sv', evs2) ∧
    evs = evs1 ++ evs2.
Proof.
  rewrite srv_run_app. destruct (srv_run ls sv) as [[sv1 e1]|]; [|done].
  simpl. destruct (srv_step l sv1) as [[sv2 e2]|] eqn:Hs; [|done].
  intros [= <- <-]. exists sv1, e1, e2. by rewrite (right_id_L [] (++)).
Qed.

(** The two outcomes of [Server.Publish] at the check of the bus. *)
Lemma Server_Publish_cases key data sv sv' evs :
  Server_Publish key data sv = Some (sv', evs) →
  log sv' = log sv ∧ streams sv' = streams sv ∧ written sv' = written sv ∧
  heap (bus sv') = heap (bus sv) ∧
  (∃ e, step (LPublish key data) (bus sv) = Some (bus sv', e)) ∧
  ((closed (bus sv) = true ∧ bus sv' = bus sv ∧
    publishing sv' = publishing sv ∧
    evs = [RvPublish key data (RpcUnavailable ErrClosed)]) ∨
   (closed (bus sv) = false ∧ evs = [] ∧
    (∃ l, pubs (bus sv') = pubs (bus sv) ++ [PublishCall key data l false l]) ∧
    publishing sv' =
      publishing sv ++
        [PublishHandler key data (length (pubs (bus sv))) PBus])).
Proof.
  unfold Server_Publish, step. destruct (panicked (bus sv)); [done|].
  unfold Publish_copy. simpl.
  destruct (closed (bus sv)); simpl; intros [= <- <-]; simpl.
  - split_and!; try done; [by eexists|]. by left.
  - split_and!; try done; [by eexists|]. right. split_and!; try done.
    by eexists.
Qed.

(** The three steps of [Server.Publish] after the loop of [bus.Publish]. *)
Lemma Server_Publish_step_cases h sv sv' evs :
  Server_Publish_step h sv = Some (sv', evs) →
  ∃ hd pc',
    publishing sv !! h = Some hd ∧ log sv' = log sv ∧
    streams sv' = streams sv ∧
    publishing sv' = <[h:=set_ph_pc pc' hd]> (publishing sv) ∧
    ((ph_pc hd = PBus ∧ pc' = PDebug ∧ evs = [] ∧
      written sv' = written sv ∧ heap (bus sv') = heap (bus sv) ∧
      step (LPublishRet (ph_call hd)) (bus sv) =
        Some (bus sv', [EvPublish (inl (ph_call hd))]) ∧
      ∃ c, pubs (bus sv') !! ph_call hd = Some c ∧ p_ret c = true) ∨
     (ph_pc hd = PDebug ∧ pc' = PReturn ∧ evs = [] ∧ bus sv' = bus sv ∧
      written sv' =
        written sv ++
        (if Enabled (log sv) LevelDebug
         then [LogLine LevelDebug "publish" (ph_key hd) (ph_data hd)]
         else [])) ∨
     (ph_pc hd = PReturn ∧ pc' = PReturned ∧ bus sv' = bus sv ∧
      written sv' = written sv ∧
      evs = [RvPublish (ph_key hd) (ph_data hd) RpcOK])).
Proof.
  unfold Server_Publish_step. destruct (publishing sv !! h) as [hd|]; [|done].
  simpl. destruct (ph_pc hd) eqn:Hpc; [| | |done].
  - destruct (step (LPublishRet (ph_call hd)) (bus sv)) as [[σ' e]|] eqn:Hb;
      [|done].
    simpl. intros [= <- <-]. exists hd, PDebug. split_and!; try done.
    left. simpl. pose proof Hb as Hb0. unfold step in Hb.
    destruct (panicked (bus sv)); [done|]. unfold Publish_return in Hb.
    destruct (pubs (bus sv) !! ph_call hd) as [c|] eqn:Hc; [|done].
    simpl in Hb. destruct (p_copy c); [|done]. destruct (p_ret c); [done|].
    injection Hb as <- <-. split_and!; try done.
    exists (set_ret true c). split; [|done]. simpl.
    apply list_lookup_insert_eq. by eapply lookup_lt_Some.
  - intros [= <- <-]. exists hd, PReturn. unfold Debug.
    destruct (Enabled (log sv) LevelDebug); simpl; split_and!; try done;
      right; left; split_and!; try done.
    by rewrite (right_id_L [] (++)).
  - intros [= <- <-]. exists hd, PReturned. split_and!; try done.
    right. right. by split_and!.
Qed.

(** A step of the bus's own goroutines or of [Close] makes no subscription
    and leaves the [once] of a subscription to [Close]. *)
Lemma internal_step l σ σ' evs :
  internal l = true → step l σ = Some (σ', evs) →
  length (heap σ') = length (heap σ) ∧
  ∀ s x', heap σ' !! s = Some x' →
    ∃ x, heap σ !! s = Some x ∧ subject x' = subject x ∧ cb x' = cb x ∧
         (once x' = once x ∨
          (once x = OnceIdle ∧ once x' = OnceRunning true) ∨
          (once x = OnceRunning true ∧ once x' = OnceDone)).
Proof.
  intros Hi Hs.
  assert (∀ s0 x0 x0',
            heap σ !! s0 = Some x0 →
            subject x0' = subject x0 → cb x0' = cb x0 →
            (once x0' = once x0 ∨
             (once x0 = OnceIdle ∧ once x0' = OnceRunning true) ∨
             (once x0 = OnceRunning true ∧ once x0' = OnceDone)) →
            length (<[s0:=x0']> (heap σ)) = length (heap σ) ∧
            ∀ s x', <[s0:=x0']> (heap σ) !! s = Some x' →
              ∃ x, heap σ !! s = Some x ∧ subject x' = subject x ∧
                   cb x' = cb x ∧
                   (once x' = once x ∨
                    (once x = OnceIdle ∧ once x' = OnceRunning true) ∨
                    (once x = OnceRunning true ∧ once x' = OnceDone)))
    as Hins.
  { intros s0 x0 x0' Hx0 H1 H2 H3. split; [by rewrite length_insert|].
    intros s x' Hx'.
    apply list_lookup_insert_Some in Hx' as [(-> & <- & _)|[_ Hx']].
    - by exists x0.
    - exists x'. eauto. }
  assert (length (heap σ) = length (heap σ) ∧
          ∀ s x', heap σ !! s = Some x' →
            ∃ x, heap σ !! s = Some x ∧ subject x' = subject x ∧
                 cb x' = cb x ∧
                 (once x' = once x ∨
                  (once x = OnceIdle ∧ once x' = OnceRunning true) ∨
                  (once x = OnceRunning true ∧ once x' = OnceDone)))
    as Hsame.
  { split; [done|]. intros s x' Hx'. exists x'. eauto. }
  step_cases Hs; simpl; try exact Hsame.
  all: try (eapply Hins; [eassumption|..]; simpl; eauto; fail).
  all: try (match goal with
            | H : enqueue _ ?y = EnqDone _ |- _ =>
                apply enqueue_frame in H as (?&?&?&?)
            | H : blocked_send ?y = Some _ |- _ =>
                apply blocked_send_frame in H as (?&?&?&?)
            | H : worker_recv ?y = Some _ |- _ =>
                apply worker_recv_frame in H as (?&?&?&?)
            | H : handler_return ?y = Some _ |- _ =>
                apply handler_return_frame in H as (?&?&?&?)
            end; eapply Hins; [eassumption|..]; eauto).
Qed.

Lemma srv_ok_init lg : srv_ok (NewServer NewSubPub lg).
Proof. split; [apply reachable_init|done|done]. Qed.

Lemma srv_ok_step l sv sv' evs :
  srv_ok sv → srv_step l sv = Some (sv', evs) → srv_ok sv'.
Proof.
  intros [Hbus Hlen Hst] Hs. destruct l as [key data|p|key|k|k|l]; simpl in Hs.
  - apply Server_Publish_cases in Hs as (_ & Hs' & _ & Hh & [e Hb] & _).
    split; [by eapply reachable_step|by rewrite Hs', Hh|by rewrite Hs', Hh].
  - apply Server_Publish_step_cases in Hs
      as (hd & pc' & _ & _ & Hs' & _ & Hcase).
    assert (reachable (bus sv') ∧ heap (bus sv') = heap (bus sv)) as [Hr' Hh].
    { destruct Hcase as [(_ & _ & _ & _ & Hh & Hb & _)|
                         [(_ & _ & _ & -> & _)|(_ & _ & -> & _)]];
        [|done..].
      split; [by eapply reachable_step|done]. }
    split; [done|by rewrite Hs', Hh|by rewrite Hs', Hh].
  - unfold Server_Subscribe in Hs.
    destruct (step (LSubscribe key (length (streams sv))) (bus sv))
      as [[σ' e]|] eqn:Hb; [|done].
    simpl in Hs. pose proof (reachable_step _ _ _ _ Hbus Hb) as Hr'.
    unfold step in Hb. destruct (panicked (bus sv)); [done|].
    unfold Subscribe in Hb.
    destruct (closed (bus sv)); injection Hb as <- <-; simpl in Hs;
      injection Hs as <- <-; [by split|].
    split; simpl; [done|by rewrite !length_app, Hlen|].
    intros k st Hk. apply lookup_app_Some in Hk as [Hk|[Hge Hk]].
    + destruct (Hst k st Hk) as (Hsub & x & Hx & H1 & H2 & H3).
      split; [done|]. exists x. split; [by apply lookup_app_l_Some|done].
    + apply list_lookup_singleton_Some in Hk as [Hk <-]. simpl.
      assert (k = length (streams sv)) as -> by lia.
      split; [done|]. eexists. rewrite Hlen, lookup_app_r, Nat.sub_diag by done.
      simpl. split; [done|]. simpl. done.
  - unfold Stream_done in Hs.
    destruct (streams sv !! k) as [st|] eqn:Hk; [|done].
    simpl in Hs. injection Hs as <- <-.
    split; simpl; [done|by rewrite length_insert|].
    intros k' st' Hk'.
    apply list_lookup_insert_Some in Hk' as [(-> & <- & _)|[_ Hk']];
      [|by eauto].
    simpl. by apply Hst.
  - unfold Server_Unsubscribe in Hs.
    destruct (streams sv !! k) as [st|] eqn:Hk; [|done]. simpl in Hs.
    destruct (st_ctx_done st); [|done].
    destruct (Hst k st Hk) as (Hsub & x & Hx & H1 & H2 & H3).
    assert (k < length (streams sv)) as Hlt by (by eapply lookup_lt_Some).
    destruct (st_pc st) eqn:Hpc; [| |done].
    + destruct (step (LUnsubscribe (st_sub st)) (bus sv)) as [[σ' e]|] eqn:Hb;
        [|done].
      simpl in Hs. pose proof (reachable_step _ _ _ _ Hbus Hb) as Hr'.
      unfold step in Hb. destruct (panicked (bus sv)); [done|].
      unfold Unsubscribe_enter in Hb. rewrite Hsub, Hx in Hb. simpl in Hb.
      destruct (once x) as [|b|] eqn:Ho; [|done|].
      * injection Hb as <- <-. simpl in Hs. injection Hs as <- <-.
        split; simpl; [done|by rewrite !length_insert|].
        intros k' st' Hk'.
        apply list_lookup_insert_Some in Hk' as [(-> & <- & _)|[Hne Hk']].
        -- simpl. split; [done|]. eexists.
           rewrite list_lookup_insert_eq by (by rewrite <-Hlen).
           split; [done|]. done.
        -- destruct (Hst k' st' Hk') as (? & y & Hy & ?).
           split; [done|]. exists y. by rewrite list_lookup_insert_ne.
      * injection Hb as <- <-. simpl in Hs. injection Hs as <- <-.
        split; simpl; [done|by rewrite !length_insert|].
        intros k' st' Hk'.
        apply list_lookup_insert_Some in Hk' as [(-> & <- & _)|[Hne Hk']].
        -- simpl. split; [done|]. by exists x.
        -- eauto.
    + destruct (step (LUnsubClose (st_sub st)) (bus sv)) as [[σ' e]|] eqn:Hb;
        [|done].
      simpl in Hs. injection Hs as <- <-.
      pose proof (reachable_step _ _ _ _ Hbus Hb) as Hr'.
      unfold step in Hb. destruct (panicked (bus sv)); [done|].
      unfold Unsubscribe_close in Hb. rewrite Hsub, Hx in Hb. simpl in Hb.
      rewrite H3 in Hb. injection Hb as <- <-.
      split; simpl; [done|by rewrite !length_insert|].
      intros k' st' Hk'.
      apply list_lookup_insert_Some in Hk' as [(-> & <- & _)|[Hne Hk']].
      * simpl. split; [done|]. eexists.
        rewrite list_lookup_insert_eq by (by rewrite <-Hlen).
        split; [done|]. done.
      * destruct (Hst k' st' Hk') as (? & y & Hy & ?).
        split; [done|]. exists y. by rewrite list_lookup_insert_ne.
  - destruct (internal l) eqn:Hi; [|done].
    destruct (step l (bus sv)) as [[σ' e]|] eqn:Hb; [|done].
    simpl in Hs. injection Hs as <- <-.
    destruct (internal_step _ _ _ _ Hi Hb) as [Hl Hh].
    split; simpl; [by eapply reachable_step|congruence|].
    intros k st Hk. destruct (Hst k st Hk) as (Hsub & x & Hx & H1 & H2 & H3).
    split; [done|].
    destruct (heap σ' !! k) as [x'|] eqn:Hx'.
    2: { apply lookup_ge_None in Hx'. apply lookup_lt_Some in Hx. lia. }
    destruct (Hh k x' Hx') as (x0 & Hx0 & Hs0 & Hc0 & Ho).
    simplify_eq. exists x'. split; [done|]. split; [congruence|].
    split; [congruence|].
    destruct (st_pc st); destruct Ho as [Ho|[[Ho1 Ho2]|[Ho1 Ho2]]]; congruence.
Qed.

Lemma srv_run_ok ls lg sv evs :
  srv_run ls (NewServer NewSubPub lg) = Some (sv, evs) → srv_ok sv.
Proof.
  revert sv evs. induction ls as [|l ls IH] using rev_ind; intros sv evs Hrun.
  - injection Hrun as <- <-. apply srv_ok_init.
  - apply srv_run_snoc in Hrun as (sv1 & e1 & e2 & Hrun & Hs & ->).
    eapply srv_ok_step; eauto.
Qed.

(** A stream is marked as returned by the step that reports its return, and
    stays so. *)
Lemma srv_step_returned l sv sv' evs k :
  srv_step l sv = Some (sv', evs) →
  (∃ st', streams sv' !! k = Some st' ∧ st_pc st' = SReturned) ↔
  (∃ st, streams sv !! k = Some st ∧ st_pc st = SReturned) ∨ RvStream k ∈ evs.
Proof.
  intros Hs.
  assert ((∀ j, RvStream j ∉ evs) → streams sv' = streams sv →
          (∃ st', streams sv' !! k = Some st' ∧ st_pc st' = SReturned) ↔
          (∃ st, streams sv !! k = Some st ∧ st_pc st = SReturned) ∨
          RvStream k ∈ evs) as Hsame.
  { intros He ->. split; [by left|]. intros [?|?]; [done|].
    by destruct (He k). }
  assert (∀ key data r, ∀ j, RvStream j ∉ [RvPublish key data r]) as Hn1.
  { intros key data r j Hj%list_elem_of_singleton. done. }
  assert (∀ key r, ∀ j, RvStream j ∉ [RvRejected key r]) as Hn2.
  { intros key r j Hj%list_elem_of_singleton. done. }
  assert (∀ j, RvStream j ∉ @nil rpc_event) as Hn0.
  { intros j Hj%elem_of_nil. done. }
  destruct l as [key data|p|key|k0|k0|l]; simpl in Hs.
  - apply Server_Publish_cases in Hs
      as (_ & Hs' & _ & _ & _ & [(_ & _ & _ & ->)|(_ & -> & _)]);
      apply Hsame; auto.
  - apply Server_Publish_step_cases in Hs
      as (hd & pc' & _ & _ & Hs' & _ &
          [(_ & _ & -> & _)|[(_ & _ & -> & _)|(_ & _ & _ & _ & ->)]]);
      apply Hsame; auto.
  - unfold Server_Subscribe in Hs.
    destruct (step (LSubscribe key (length (streams sv))) (bus sv))
      as [[σ' e]|]; [|done].
    simpl in Hs. destruct e as [|[[s|e0]| | |] [|]]; try done;
      injection Hs as <- <-; [|apply Hsame; by auto].
    simpl. split.
    + intros (st' & [Hk|[_ Hk]]%lookup_app_Some & Hpc); [left; eauto|].
      apply list_lookup_singleton_Some in Hk as [_ <-]. done.
    + intros [(st & Hk & Hpc)|Hin]; [|by destruct (Hn0 k)].
      exists st. split; [by apply lookup_app_l_Some|done].
  - unfold Stream_done in Hs.
    destruct (streams sv !! k0) as [st0|] eqn:Hk0; [|done].
    simpl in Hs. injection Hs as <- <-. simpl. split.
    + intros (st' & Hk & Hpc). left.
      apply list_lookup_insert_Some in Hk as [(-> & <- & _)|[_ Hk]]; eauto.
    + intros [(st & Hk & Hpc)|Hin]; [|by destruct (Hn0 k)].
      destruct (decide (k = k0)) as [->|Hne].
      * simplify_eq. exists (set_st_ctx_done true st0). split; [|done].
        rewrite list_lookup_insert_eq; [done|by eapply lookup_lt_Some].
      * exists st. by rewrite list_lookup_insert_ne.
  - unfold Server_Unsubscribe in Hs.
    destruct (streams sv !! k0) as [st0|] eqn:Hk0; [|done]. simpl in Hs.
    destruct (st_ctx_done st0); [|done].
    assert (k0 < length (streams sv)) as Hlt by (by eapply lookup_lt_Some).
    assert ((∃ st', <[k0:=set_st_pc SReturned st0]> (streams sv) !! k =
                      Some st' ∧ st_pc st' = SReturned) ↔
            (∃ st, streams sv !! k = Some st ∧ st_pc st = SReturned) ∨
            RvStream k ∈ [RvStream k0]) as Hret.
    { split.
      - intros (st' & Hk & Hpc).
        apply list_lookup_insert_Some in Hk as [(-> & <- & _)|[_ Hk]];
          [right; apply list_elem_of_here|left; eauto].
      - intros [(st & Hk & Hpc)|Hin].
        + destruct (decide (k = k0)) as [->|Hne].
          * exists (set_st_pc SReturned st0).
            by rewrite list_lookup_insert_eq.
          * exists st. by rewrite list_lookup_insert_ne.
        + apply list_elem_of_singleton in Hin as [= ->].
          exists (set_st_pc SReturned st0).
          by rewrite list_lookup_insert_eq. }
    destruct (st_pc st0) eqn:Hpc0; [| |done].
    + destruct (step (LUnsubscribe (st_sub st0)) (bus sv)) as [[σ' e]|];
        [|done].
      simpl in Hs. destruct e; injection Hs as <- <-; simpl;
        [|by apply Hret].
      split.
      * intros (st' & Hk & Hpc). left.
        apply list_lookup_insert_Some in Hk as [(-> & <- & _)|[_ Hk]]; eauto.
        done.
      * intros [(st & Hk & Hpc)|Hin]; [|by destruct (Hn0 k)].
        destruct (decide (k = k0)) as [->|Hne]; [congruence|].
        exists st. by rewrite list_lookup_insert_ne.
    + destruct (step (LUnsubClose (st_sub st0)) (bus sv)) as [[σ' e]|];
        [|done].
      simpl in Hs. injection Hs as <- <-. simpl. by apply Hret.
  - destruct (internal l); [|done].
    destruct (step l (bus sv)) as [[σ' e]|]; [|done].
    simpl in Hs. injection Hs as <- <-. apply Hsame; by auto.
Qed.

Lemma srv_run_returned ls lg sv evs k :
  srv_run ls (NewServer NewSubPub lg) = Some (sv, evs) →
  (∃ st, streams sv !! k = Some st ∧ st_pc st = SReturned) ↔ RvStream k ∈ evs.
Proof.
  revert sv evs. induction ls as [|l ls IH] using rev_ind; intros sv evs Hrun.
  - injection Hrun as <- <-. split; [by intros (? & ? & ?)|].
    by intros ?%elem_of_nil.
  - apply srv_run_snoc in Hrun as (sv1 & e1 & e2 & Hrun & Hs & ->).
    rewrite (srv_step_returned _ _ _ _ k Hs), (IH _ _ Hrun), elem_of_app.
    done.
Qed.

(** X20.  When a call of [Server.Subscribe] has returned nil, its subscription
    is unsubscribed: [once] is over, the queue is closed and no subject lists
    it, whether the stream or [Close] ran the body.  The other way round a
    subscription on which no [unsubscribe] has started belongs to a call
    that still waits for its context.  Stream and subscription go by the
    same number, the subscription is on the key of the request and its
    handler is that of the stream. *)
Theorem returned_stream_is_unsubscribed ls lg sv evs :
  srv_run ls (NewServer NewSubPub lg) = Some (sv, evs) →
  length (streams sv) = length (heap (bus sv)) ∧
  ∀ k st, streams sv !! k = Some st →
    ∃ x, heap (bus sv) !! k = Some x ∧ st_sub st = k ∧
         subject x = st_key st ∧ cb x = k ∧
         (RvStream k ∈ evs ↔ st_pc st = SReturned) ∧
         (st_pc st = SReturned →
          once x = OnceDone ∧ ch_closed x = true ∧
          ∀ subj, k ∉ subscribers subj (subs (bus sv))) ∧
         (once x = OnceIdle → st_pc st = SWait).
Proof.
  intros Hrun. destruct (srv_run_ok _ _ _ _ Hrun) as [Hbus Hlen Hst].
  split; [done|]. intros k st Hk.
  destruct (Hst k st Hk) as (Hsub & x & Hx & H1 & H2 & H3).
  exists x. split; [done|]. split; [done|]. split; [done|]. split; [done|].
  split.
  { rewrite <-(srv_run_returned _ _ _ _ k Hrun). split.
    - intros (st' & Hk' & Hpc). congruence.
    - intros Hpc. by exists st. }
  split.
  - intros Hpc. rewrite Hpc in H3. split; [done|]. split.
    + by apply (ok_closed _ (reachable_sub_ok _ _ _ Hbus Hx)).
    + intros subj Hin.
      destruct (bus_reg _ (reachable_bus_ok _ Hbus) subj k Hin) as [_ Hidle].
      rewrite Hx in Hidle. simpl in Hidle. congruence.
  - intros Ho. destruct (st_pc st); [done|congruence|congruence].
Qed.

Lemma step_closes l σ σ' evs :
  step l σ = Some (σ', evs) → closed σ = false → closed σ' = true →
  ∃ keys, l = LClose keys.
Proof.
  intros Hs Hop Hcl. step_cases Hs; simpl in *; try congruence. by eexists.
Qed.

(** Every server step is at most one step of the bus. *)
Lemma srv_step_bus l sv sv' evs :
  srv_step l sv = Some (sv', evs) →
  bus sv' = bus sv ∨
  ∃ b e, step b (bus sv) = Some (bus sv', e) ∧
         (∀ keys, b = LClose keys → l = RBus b).
Proof.
  intros Hs. destruct l as [key data|p|key|k|k|l]; simpl in Hs.
  - apply Server_Publish_cases in Hs as (_ & _ & _ & _ & [e Hb] & _).
    right. by exists (LPublish key data), e.
  - apply Server_Publish_step_cases in Hs
      as (hd & pc' & _ & _ & _ & _ &
          [(_ & _ & _ & _ & _ & Hb & _)|
           [(_ & _ & _ & -> & _)|(_ & _ & -> & _)]]);
      [|by left..].
    right. by eexists (LPublishRet _), _.
  - unfold Server_Subscribe in Hs.
    destruct (step (LSubscribe key (length (streams sv))) (bus sv))
      as [[σ' e]|] eqn:Hb; [|done].
    simpl in Hs. right. exists (LSubscribe key (length (streams sv))), e.
    destruct e as [|[[s|e0]| | |] [|]]; try done; by injection Hs as <- <-.
  - unfold Stream_done in Hs. destruct (streams sv !! k); [|done].
    simpl in Hs. injection Hs as <- <-. by left.
  - unfold Server_Unsubscribe in Hs.
    destruct (streams sv !! k) as [st|]; [|done]. simpl in Hs.
    destruct (st_ctx_done st); [|done]. destruct (st_pc st); [| |done].
    + destruct (step (LUnsubscribe (st_sub st)) (bus sv)) as [[σ' e]|] eqn:Hb;
        [|done].
      simpl in Hs. right. exists (LUnsubscribe (st_sub st)), e.
      destruct e; by injection Hs as <- <-.
    + destruct (step (LUnsubClose (st_sub st)) (bus sv)) as [[σ' e]|] eqn:Hb;
        [|done].
      simpl in Hs. injection Hs as <- <-. right.
      by exists (LUnsubClose (st_sub st)), e.
  - destruct (internal l); [|done].
    destruct (step l (bus sv)) as [[σ' e]|] eqn:Hb; [|done].
    simpl in Hs. injection Hs as <- <-. right. by exists l, e.
Qed.

Lemma srv_step_rejects l sv sv' evs :
  srv_step l sv = Some (sv', evs) →
  (∀ key data r, RvPublish key data r ∈ evs →
     r = RpcOK ∨ (r = RpcUnavailable ErrClosed ∧ closed (bus sv) = true)) ∧
  (∀ key r, RvRejected key r ∈ evs →
     r = RpcUnavailable ErrClosed ∧ closed (bus sv) = true).
Proof.
  intros Hs. destruct l as [key data|p|key|k|k|l]; simpl in Hs.
  - apply Server_Publish_cases in Hs
      as (_ & _ & _ & _ & _ & [(Hcl & _ & _ & ->)|(_ & -> & _)]); split.
    + intros ??? [= -> -> ->]%list_elem_of_singleton. by right.
    + by intros ?? ?%list_elem_of_singleton.
    + by intros ??? ?%elem_of_nil.
    + by intros ?? ?%elem_of_nil.
  - apply Server_Publish_step_cases in Hs
      as (hd & pc' & _ & _ & _ & _ &
          [(_ & _ & -> & _)|[(_ & _ & -> & _)|(_ & _ & _ & _ & ->)]]); split.
    + by intros ??? ?%elem_of_nil.
    + by intros ?? ?%elem_of_nil.
    + by intros ??? ?%elem_of_nil.
    + by intros ?? ?%elem_of_nil.
    + intros ??? [= -> -> ->]%list_elem_of_singleton. by left.
    + by intros ?? ?%list_elem_of_singleton.
  - unfold Server_Subscribe in Hs.
    destruct (step (LSubscribe key (length (streams sv))) (bus sv))
      as [[σ' e]|] eqn:Hb; [|done].
    simpl in Hs. unfold step in Hb. destruct (panicked (bus sv)); [done|].
    unfold Subscribe in Hb.
    destruct (closed (bus sv)); injection Hb as <- <-; simpl in Hs;
      injection Hs as <- <-; split.
    + by intros ??? ?%list_elem_of_singleton.
    + by intros ?? [= -> ->]%list_elem_of_singleton.
    + by intros ??? ?%elem_of_nil.
    + by intros ?? ?%elem_of_nil.
  - unfold Stream_done in Hs. destruct (streams sv !! k); [|done].
    simpl in Hs. injection Hs as <- <-. split.
    + by intros ??? ?%elem_of_nil.
    + by intros ?? ?%elem_of_nil.
  - unfold Server_Unsubscribe in Hs.
    destruct (streams sv !! k) as [st|]; [|done]. simpl in Hs.
    destruct (st_ctx_done st); [|done]. destruct (st_pc st); [| |done].
    + destruct (step (LUnsubscribe (st_sub st)) (bus sv)) as [[σ' e]|];
        [|done].
      simpl in Hs. destruct e; injection Hs as <- <-; split.
      * by intros ??? ?%elem_of_nil.
      * by intros ?? ?%elem_of_nil.
      * by intros ??? ?%list_elem_of_singleton.
      * by intros ?? ?%list_elem_of_singleton.
    + destruct (step (LUnsubClose (st_sub st)) (bus sv)) as [[σ' e]|];
        [|done].
      simpl in Hs. injection Hs as <- <-. split.
      * by intros ??? ?%list_elem_of_singleton.
      * by intros ?? ?%list_elem_of_singleton.
  - destruct (internal l); [|done].
    destruct (step l (bus sv)) as [[σ' e]|]; [|done].
    simpl in Hs. injection Hs as <- <-. split.
    + by intros ??? ?%elem_of_nil.
    + by intros ?? ?%elem_of_nil.
Qed.

Lemma srv_run_closed ls lg sv evs :
  srv_run ls (NewServer NewSubPub lg) = Some (sv, evs) →
  closed (bus sv) = true → ∃ keys, RBus (LClose keys) ∈ ls.
Proof.
  revert sv evs. induction ls as [|l ls IH] using rev_ind; intros sv evs Hrun.
  - by injection Hrun as <- <-.
  - apply srv_run_snoc in Hrun as (sv1 & e1 & e2 & Hrun & Hs & ->).
    intros Hcl. destruct (closed (bus sv1)) eqn:Hcl1.
    + destruct (IH _ _ Hrun Hcl1) as [keys Hin]. exists keys.
      apply elem_of_app. by left.
    + destruct (srv_step_bus _ _ _ _ Hs) as [Heq|(b & e & Hb & Hl)];
        [congruence|].
      destruct (step_closes _ _ _ _ Hb Hcl1 Hcl) as [keys ->].
      exists keys. apply elem_of_app. right. rewrite (Hl keys eq_refl).
      apply list_elem_of_here.
Qed.

Lemma srv_run_stays_closed ls sv sv' evs :
  srv_run ls sv = Some (sv', evs) → closed (bus sv) = true →
  closed (bus sv') = true.
Proof.
  revert sv evs. induction ls as [|l ls IH]; intros sv evs Hrun Hcl.
  - by injection Hrun as <- <-.
  - simpl in Hrun. destruct (srv_step l sv) as [[sv1 e1]|] eqn:Hs; [|done].
    destruct (srv_run ls sv1) as [[sv2 e2]|] eqn:Hr; [|done].
    injection Hrun as <- <-. apply (IH sv1 e2 Hr).
    destruct (srv_step_bus _ _ _ _ Hs) as [Heq|(b & e & Hb & _)];
      [congruence|].
    by destruct (step_closed _ _ _ _ Hb Hcl).
Qed.

(** X21.  The service answers a call with no error or with [codes.Unavailable]
    and the text of [ErrClosed], nothing else: [Publish] gets either, a
    call of [Subscribe] that does not get a stream the latter.  A call is
    turned down only once [main] has called [bus.Close], and from then on
    the bus stays closed. *)
Theorem unavailable_only_after_close ls lg sv evs :
  srv_run ls (NewServer NewSubPub lg) = Some (sv, evs) →
  (∀ key data r, RvPublish key data r ∈ evs →
     r = RpcOK ∨ r = RpcUnavailable ErrClosed) ∧
  (∀ key r, RvRejected key r ∈ evs → r = RpcUnavailable ErrClosed) ∧
  ((∃ e, e ∈ evs ∧ rejected e) →
   closed (bus sv) = true ∧ ∃ keys, RBus (LClose keys) ∈ ls).
Proof.
  intros Hrun.
  assert ((∀ key data r, RvPublish key data r ∈ evs →
             r = RpcOK ∨
             (r = RpcUnavailable ErrClosed ∧ closed (bus sv) = true)) ∧
          (∀ key r, RvRejected key r ∈ evs →
             r = RpcUnavailable ErrClosed ∧ closed (bus sv) = true))
    as [Hp Hr].
  { clear -Hrun. revert sv evs Hrun.
    induction ls as [|l ls IH] using rev_ind; intros sv evs Hrun.
    - injection Hrun as <- <-. split.
      + by intros ??? ?%elem_of_nil.
      + by intros ?? ?%elem_of_nil.
    - apply srv_run_snoc in Hrun as (sv1 & e1 & e2 & Hrun & Hs & ->).
      destruct (IH _ _ Hrun) as [Hp1 Hr1].
      destruct (srv_step_rejects _ _ _ _ Hs) as [Hp2 Hr2].
      assert (closed (bus sv1) = true → closed (bus sv) = true) as Hmono.
      { apply (srv_run_stays_closed [l] sv1 sv e2). simpl. rewrite Hs.
        by rewrite (right_id_L [] (++)). }
      split.
      + intros key data r [Hin|Hin]%elem_of_app.
        * destruct (Hp1 _ _ _ Hin) as [?|[? ?]]; [by left|right; auto].
        * destruct (Hp2 _ _ _ Hin) as [?|[? ?]]; [by left|right; auto].
      + intros key r [Hin|Hin]%elem_of_app.
        * destruct (Hr1 _ _ Hin) as [? ?]; auto.
        * destruct (Hr2 _ _ Hin) as [? ?]; auto. }
  split.
  { intros key data r Hin. destruct (Hp _ _ _ Hin) as [?|[? _]]; auto. }
  split.
  { intros key r Hin. by destruct (Hr _ _ Hin). }
  intros (e & Hin & Hrej).
  assert (closed (bus sv) = true) as Hcl.
  { destruct e as [key data [|e]|key r|k]; try done.
    - destruct (Hp _ _ _ Hin) as [?|[_ ?]]; done.
    - by destruct (Hr _ _ Hin). }
  split; [done|]. by eapply srv_run_closed.
Qed.

(** ** What the service logs *)

Lemma omap_cons_list {A B} (f : A → option B) a l :
  omap f (a :: l) = option_list (f a) ++ omap f l.
Proof. simpl. by destruct (f a). Qed.

(** Replacing one element of a list moves what [omap] keeps of it. *)
Lemma omap_insert_perm {A B} (f : A → option B) l i x y :
  l !! i = Some x →
  option_list (f x) ++ omap f (<[i:=y]> l) ≡ₚ option_list (f y) ++ omap f l.
Proof.
  revert i. induction l as [|a l IH]; intros [|i] Hi; simplify_eq/=.
  - change (option_list (f x) ++ omap f (y :: l) ≡ₚ
            option_list (f y) ++ omap f (x :: l)).
    rewrite !omap_cons_list. apply Permutation_app_swap_app.
  - change (option_list (f x) ++ omap f (a :: <[i:=y]> l) ≡ₚ
            option_list (f y) ++ omap f (a :: l)).
    rewrite !omap_cons_list.
    rewrite (Permutation_app_swap_app (option_list (f x))).
    rewrite (Permutation_app_swap_app (option_list (f y))).
    f_equiv. by apply IH.
Qed.

(** How a step of the service changes the calls of [Publish] in flight and
    the log. *)
Lemma srv_step_publishing l sv sv' evs :
  srv_step l sv = Some (sv', evs) →
  log sv' = log sv ∧
  ((publishing sv' = publishing sv ∧ written sv' = written sv ∧
    omap publish_line evs = []) ∨
   (∃ key data c,
      publishing sv' =
        publishing sv ++
          [PublishHandler key data (length (pubs (bus sv))) PBus] ∧
      pubs (bus sv') = pubs (bus sv) ++ [c] ∧ p_subject c = key ∧
      p_msg c = data ∧ written sv' = written sv ∧ evs = []) ∨
   (∃ h, Server_Publish_step h sv = Some (sv', evs))).
Proof.
  intros Hs. destruct l as [key data|h|key|k|k|l]; simpl in Hs.
  - apply Server_Publish_cases in Hs
      as (Hl & _ & Hw & _ & _ &
          [(_ & _ & Hp & ->)|(_ & -> & [l0 Hc] & Hp)]);
      (split; [done|]); [by left|].
    right. left. by eexists key, data, _.
  - split; [|right; right; by exists h].
    by apply Server_Publish_step_cases in Hs as (? & ? & _ & ? & _).
  - unfold Server_Subscribe in Hs.
    destruct (step (LSubscribe key (length (streams sv))) (bus sv))
      as [[σ' e]|]; [|done].
    simpl in Hs. destruct e as [|[[s|e0]| | |] [|]]; try done;
      injection Hs as <- <-; (split; [done|]); by left.
  - unfold Stream_done in Hs. destruct (streams sv !! k); [|done].
    simpl in Hs. injection Hs as <- <-. split; [done|]. by left.
  - unfold Server_Unsubscribe in Hs.
    destruct (streams sv !! k) as [st|]; [|done]. simpl in Hs.
    destruct (st_ctx_done st); [|done]. destruct (st_pc st); [| |done].
    + destruct (step (LUnsubscribe (st_sub st)) (bus sv)) as [[σ' e]|];
        [|done].
      simpl in Hs. destruct e; injection Hs as <- <-; (split; [done|]);
        by left.
    + destruct (step (LUnsubClose (st_sub st)) (bus sv)) as [[σ' e]|];
        [|done].
      simpl in Hs. injection Hs as <- <-. split; [done|]. by left.
  - destruct (internal l); [|done].
    destruct (step l (bus sv)) as [[σ' e]|]; [|done].
    simpl in Hs. injection Hs as <- <-. split; [done|]. by left.
Qed.

(** A call of the bus keeps its subject, its message and its return through
    every step of the service. *)
Lemma srv_step_pub_le l sv sv' evs p c :
  srv_step l sv = Some (sv', evs) → pubs (bus sv) !! p = Some c →
  ∃ c', pubs (bus sv') !! p = Some c' ∧ pub_le c c'.
Proof.
  intros Hs Hc. destruct (srv_step_bus _ _ _ _ Hs) as [->|(b & e & Hb & _)].
  - exists c. split; [done|apply pub_le_refl].
  - by eapply step_pub_le.
Qed.

Lemma handlers_ok_init lg : handlers_ok lg (NewServer NewSubPub lg) [].
Proof.
  split; simpl; [done|by intros ???| |by intros ? ?%elem_of_nil].
  by destruct (Enabled _ _).
Qed.

Lemma handlers_ok_step lg l sv sv' evs1 evs2 :
  handlers_ok lg sv evs1 → srv_step l sv = Some (sv', evs2) →
  handlers_ok lg sv' (evs1 ++ evs2).
Proof.
  intros [Hlog Hbus Hw Hline] Hs.
  destruct (srv_step_publishing _ _ _ _ Hs) as [Hlog' Hcase].
  assert (∀ h hd, publishing sv !! h = Some hd →
            ∃ c, pubs (bus sv') !! ph_call hd = Some c ∧
                 p_subject c = ph_key hd ∧ p_msg c = ph_data hd ∧
                 (ph_pc hd ≠ PBus → p_ret c = true)) as Hbus'.
  { intros h hd Hh. destruct (Hbus h hd Hh) as (c & Hc & H1 & H2 & H3).
    destruct (srv_step_pub_le _ _ _ _ _ _ Hs Hc) as (c' & Hc' & Hle).
    exists c'. split; [done|].
    rewrite (ple_subject _ _ Hle), (ple_msg _ _ Hle).
    split; [done|]. split; [done|]. intros Hpc.
    apply (ple_ret _ _ Hle). auto. }
  destruct Hcase as [(Hp & Hw' & He)|
                     [(key & data & c & Hp & Hc & H1 & H2 & Hw' & ->)|[h Hh]]].
  - split; [congruence| | |].
    + intros h hd. rewrite Hp. apply Hbus'.
    + rewrite Hw', Hp, omap_app, He, (right_id_L [] (++)). done.
    + intros ln. rewrite Hw', Hp. apply Hline.
  - split; [congruence| | |].
    + intros h hd. rewrite Hp. intros [Hh|[_ Hh]]%lookup_app_Some; [eauto|].
      apply list_lookup_singleton_Some in Hh as [_ <-]. simpl.
      exists c. rewrite Hc, lookup_app_r, Nat.sub_diag by done.
      split; [done|]. split; [done|]. split; [done|]. done.
    + rewrite Hw', Hp, !omap_app. simpl. by rewrite !(right_id_L [] (++)).
    + intros ln Hln. rewrite Hw' in Hln.
      destruct (Hline ln Hln) as (h & hd & Hh & H3 & H4).
      exists h, hd. rewrite Hp. split; [by apply lookup_app_l_Some|done].
  - apply Server_Publish_step_cases in Hh
      as (hd & pc' & Hh & _ & _ & Hp & Hstep).
    assert (h < length (publishing sv)) as Hlt by (by eapply lookup_lt_Some).
    pose proof (omap_insert_perm at_return (publishing sv) h hd
                  (set_ph_pc pc' hd) Hh) as Hperm.
    rewrite <-Hp in Hperm.
    assert (∀ ln, ln ∈ written sv →
              ∃ h0 hd0, publishing sv' !! h0 = Some hd0 ∧
                ln = LogLine LevelDebug "publish" (ph_key hd0) (ph_data hd0) ∧
                (ph_pc hd0 = PReturn ∨ ph_pc hd0 = PReturned)) as Hline'.
    { intros ln Hln. destruct (Hline ln Hln) as (h0 & hd0 & Hh0 & H3 & H4).
      rewrite Hp. destruct (decide (h0 = h)) as [->|Hne].
      - exists h, (set_ph_pc pc' hd). rewrite list_lookup_insert_eq by done.
        simplify_eq. split; [done|]. split; [done|]. simpl.
        destruct Hstep as [(Hpc & _)|[(Hpc & _)|(_ & -> & _)]];
          [destruct H4; congruence..|by right].
      - exists h0, hd0. by rewrite list_lookup_insert_ne. }
    assert (publishing_ok sv') as Hok'.
    { intros h0 hd0. rewrite Hp.
      intros [(<- & <- & _)|[_ Hh0]]%list_lookup_insert_Some; [|eauto].
      destruct (Hbus' h hd Hh) as (c & Hc & H1 & H2 & H3). simpl.
      destruct Hstep as [(_ & _ & _ & _ & _ & _ & c' & Hc' & Hret)|
                         [(Hpc & _)|(Hpc & _)]].
      - simplify_eq. eexists. split; [eassumption|]. by split_and!.
      - exists c. split_and!; try done. intros _. apply H3. congruence.
      - exists c. split_and!; try done. intros _. apply H3. congruence. }
    split; [congruence|done| |].
    + destruct Hstep as [(Hpc & -> & -> & Hw' & _)|
                         [(Hpc & -> & -> & _ & Hw')|
                          (Hpc & -> & _ & Hw' & ->)]];
        unfold at_return in Hperm at 1 3; simpl in Hperm;
        rewrite Hpc in Hperm; simpl in Hperm; rewrite Hw', ?Hlog;
        destruct (Enabled lg LevelDebug);
        rewrite ?(right_id_L [] (++)); try done.
      * by rewrite Hperm.
      * rewrite Hperm, Hw, <-!Permutation_middle.
        by rewrite (right_id_L [] (++)).
      * rewrite Hw, <-Hperm, omap_app. simpl. by rewrite <-(assoc_L (++)).
    + intros ln Hln.
      destruct Hstep as [(_ & _ & _ & Hw' & _)|
                         [(Hpc & -> & _ & _ & Hw')|(_ & _ & _ & Hw' & _)]];
        rewrite Hw' in Hln; [by apply Hline'| |by apply Hline'].
      apply elem_of_app in Hln as [Hln|Hln]; [by apply Hline'|].
      destruct (Enabled (log sv) LevelDebug); [|by apply elem_of_nil in Hln].
      apply list_elem_of_singleton in Hln as ->.
      exists h, (set_ph_pc PReturn hd). rewrite Hp.
      rewrite list_lookup_insert_eq by done. split; [done|]. split; [done|].
      by left.
Qed.

Lemma srv_run_handlers ls lg sv evs :
  srv_run ls (NewServer NewSubPub lg) = Some (sv, evs) →
  handlers_ok lg sv evs.
Proof.
  revert sv evs. induction ls as [|l ls IH] using rev_ind; intros sv evs Hrun.
  - injection Hrun as <- <-. apply handlers_ok_init.
  - apply srv_run_snoc in Hrun as (sv1 & e1 & e2 & Hrun & Hs & ->).
    eapply handlers_ok_step; eauto.
Qed.

(** X22.  The service logs a call of [Publish] only after the bus took the
    message and [bus.Publish] returned nil, with the key and the data of the
    request, and only with a logger at debug level: at info, warn or error
    it writes nothing about requests.  At debug level the lines are those of
    the calls that have returned with no error and of the calls that are at
    their return, one line each; their order is that of the calls of
    [s.log.Debug], which need not be the order in which the calls return. *)
Theorem publish_logged_at_debug_only ls lg sv evs :
  srv_run ls (NewServer NewSubPub lg) = Some (sv, evs) →
  (Enabled lg LevelDebug = true ↔ min_level lg = LevelDebug) ∧
  (Enabled lg LevelDebug = false → written sv = []) ∧
  (Enabled lg LevelDebug = true →
   written sv ≡ₚ omap publish_line evs ++ omap at_return (publishing sv)) ∧
  ∀ ln, ln ∈ written sv →
    ∃ hd c, hd ∈ publishing sv ∧
      ln = LogLine LevelDebug "publish" (ph_key hd) (ph_data hd) ∧
      pubs (bus sv) !! ph_call hd = Some c ∧ p_subject c = ph_key hd ∧
      p_msg c = ph_data hd ∧ p_ret c = true.
Proof.
  intros Hrun. destruct (srv_run_handlers _ _ _ _ Hrun) as [_ Hbus Hw Hline].
  split.
  { unfold Enabled. rewrite bool_decide_eq_true.
    destruct (min_level lg); simpl; split; (done || lia). }
  split; [by intros He; rewrite He in Hw|].
  split; [by intros He; rewrite He in Hw|].
  intros ln Hln. destruct (Hline ln Hln) as (h & hd & Hh & -> & Hpc).
  destruct (Hbus h hd Hh) as (c & Hc & H1 & H2 & H3).
  exists hd, c. split; [by eapply list_elem_of_lookup_2|].
  split_and!; try done. apply H3. destruct Hpc; congruence.
Qed.

Lemma returned_stream_is_unsubscribed_witness :
  let sv0 := NewServer NewSubPub (MkLogger LevelInfo) in
  let sv := srv_state_after service_schedule sv0 in
  let evs := srv_returns_of service_schedule sv0 in
  srv_run service_schedule sv0 = Some (sv, evs) ∧
  RvStream 0 ∈ evs ∧
  length (streams sv) = length (heap (bus sv)) ∧
  ∀ k st, streams sv !! k = Some st →
    ∃ x, heap (bus sv) !! k = Some x ∧ st_sub st = k ∧
         subject x = st_key st ∧ cb x = k ∧
         (RvStream k ∈ evs ↔ st_pc st = SReturned) ∧
         (st_pc st = SReturned →
          once x = OnceDone ∧ ch_closed x = true ∧
          ∀ subj, k ∉ subscribers subj (subs (bus sv))) ∧
         (once x = OnceIdle → st_pc st = SWait).
Proof.
  intros sv0 sv evs.
  assert (srv_run service_schedule sv0 = Some (sv, evs)) as Hrun
    by (vm_compute; reflexivity).
  split; [exact Hrun|]. split.
  { vm_compute. apply list_elem_of_further, list_elem_of_here. }
  exact (returned_stream_is_unsubscribed service_schedule _ sv evs Hrun).
Defined.

Lemma unavailable_only_after_close_witness :
  let sv0 := NewServer NewSubPub (MkLogger LevelInfo) in
  let sv := srv_state_after service_schedule sv0 in
  let evs := srv_returns_of service_schedule sv0 in
  srv_run service_schedule sv0 = Some (sv, evs) ∧
  RvPublish "k" 6 (RpcUnavailable ErrClosed) ∈ evs ∧
  (∀ key data r, RvPublish key data r ∈ evs →
     r = RpcOK ∨ r = RpcUnavailable ErrClosed) ∧
  (∀ key r, RvRejected key r ∈ evs → r = RpcUnavailable ErrClosed) ∧
  ((∃ e, e ∈ evs ∧ rejected e) →
   closed (bus sv) = true ∧ ∃ keys, RBus (LClose keys) ∈ service_schedule).
Proof.
  intros sv0 sv evs.
  assert (srv_run service_schedule sv0 = Some (sv, evs)) as Hrun
    by (vm_compute; reflexivity).
  split; [exact Hrun|]. split.
  { vm_compute.
    apply list_elem_of_further, list_elem_of_further, list_elem_of_here. }
  exact (unavailable_only_after_close service_schedule _ sv evs Hrun).
Defined.

Lemma publish_logged_at_debug_only_witness :
  let lg := MkLogger LevelDebug in
  let sv0 := NewServer NewSubPub lg in
  let sv := srv_state_after crossing_schedule sv0 in
  let evs := srv_returns_of crossing_schedule sv0 in
  srv_run crossing_schedule sv0 = Some (sv, evs) ∧
  written sv = [LogLine LevelDebug "publish" "a" 1;
                LogLine LevelDebug "publish" "b" 2] ∧
  evs = [RvPublish "b" 2 RpcOK; RvPublish "a" 1 RpcOK] ∧
  (Enabled lg LevelDebug = true ↔ min_level lg = LevelDebug) ∧
  (Enabled lg LevelDebug = false → written sv = []) ∧
  (Enabled lg LevelDebug = true →
   written sv ≡ₚ omap publish_line evs ++ omap at_return (publishing sv)) ∧
  ∀ ln, ln ∈ written sv →
    ∃ hd c, hd ∈ publishing sv ∧
      ln = LogLine LevelDebug "publish" (ph_key hd) (ph_data hd) ∧
      pubs (bus sv) !! ph_call hd = Some c ∧ p_subject c = ph_key hd ∧
      p_msg c = ph_data hd ∧ p_ret c = true.
Proof.
  intros lg sv0 sv evs.
  assert (srv_run crossing_schedule sv0 = Some (sv, evs)) as Hrun
    by (vm_compute; reflexivity).
  split; [exact Hrun|]. split; [vm_compute; reflexivity|].
  split; [vm_compute; reflexivity|].
  exact (publish_logged_at_debug_only crossing_schedule lg sv evs Hrun).
Defined.

(** ** What a stream is sent *)

(** A call of [Publish] enters the table of calls by the step that takes
    its copy. *)
Lemma step_pub_origin l σ σ' evs q c' :
  step l σ = Some (σ', evs) → pubs σ' !! q = Some c' →
  (∃ c, pubs σ !! q = Some c ∧ p_subject c' = p_subject c ∧
        p_msg c' = p_msg c) ∨
  l = LPublish (p_subject c') (p_msg c').
Proof.
  intros Hs Hq.
  destruct (decide (q < length (pubs σ))) as [Hlt|Hge].
  - left. destruct (lookup_lt_is_Some_2 _ _ Hlt) as [c Hc].
    destruct (step_pub_le _ _ _ _ _ _ Hs Hc) as (c2 & Hc2 & Hle).
    exists c. split; [done|]. simplify_eq.
    split; [apply (ple_subject _ _ Hle)|apply (ple_msg _ _ Hle)].
  - right. step_cases Hs; simpl in Hq;
      try (apply lookup_lt_Some in Hq; rewrite ?length_insert in Hq; lia).
    apply lookup_app_Some in Hq as [Hq|[_ Hq]];
      [apply lookup_lt_Some in Hq; lia|].
    by apply list_lookup_singleton_Some in Hq as [_ <-].
Qed.

Lemma srv_step_origin l sv sv' evs q c' :
  srv_step l sv = Some (sv', evs) → pubs (bus sv') !! q = Some c' →
  (∃ c, pubs (bus sv) !! q = Some c ∧ p_subject c' = p_subject c ∧
        p_msg c' = p_msg c) ∨
  l = RPublish (p_subject c') (p_msg c').
Proof.
  intros Hs Hq.
  assert (∀ b e, step b (bus sv) = Some (bus sv', e) →
                 (∀ key data, b ≠ LPublish key data) →
                 ∃ c, pubs (bus sv) !! q = Some c ∧
                      p_subject c' = p_subject c ∧ p_msg c' = p_msg c)
    as Hbus.
  { intros b e Hb Hnp.
    destruct (step_pub_origin _ _ _ _ _ _ Hb Hq) as [?| ->]; [done|].
    by destruct (Hnp (p_subject c') (p_msg c')). }
  destruct l as [key data|p|key|k|k|l]; simpl in Hs.
  - apply Server_Publish_cases in Hs as (_ & _ & _ & _ & [e Hb] & _).
    destruct (step_pub_origin _ _ _ _ _ _ Hb Hq) as [?|[= -> ->]];
      [by left|by right].
  - apply Server_Publish_step_cases in Hs
      as (hd & pc' & _ & _ & _ & _ &
          [(_ & _ & _ & _ & _ & Hb & _)|
           [(_ & _ & _ & Hb & _)|(_ & _ & Hb & _)]]);
      left.
    + by apply (Hbus (LPublishRet (ph_call hd)) _ Hb).
    + rewrite <-Hb. by exists c'.
    + rewrite <-Hb. by exists c'.
  - unfold Server_Subscribe in Hs.
    destruct (step (LSubscribe key (length (streams sv))) (bus sv))
      as [[σ' e]|] eqn:Hb; [|done].
    simpl in Hs. left.
    apply (Hbus (LSubscribe key (length (streams sv))) e); [|done].
    destruct e as [|[[s|e0]| | |] [|]]; try done; by injection Hs as <- <-.
  - unfold Stream_done in Hs. destruct (streams sv !! k); [|done].
    simpl in Hs. injection Hs as <- <-. left. by exists c'.
  - unfold Server_Unsubscribe in Hs.
    destruct (streams sv !! k) as [st|]; [|done]. simpl in Hs.
    destruct (st_ctx_done st); [|done]. destruct (st_pc st); [| |done].
    + destruct (step (LUnsubscribe (st_sub st)) (bus sv)) as [[σ' e]|] eqn:Hb;
        [|done].
      simpl in Hs. left. apply (Hbus (LUnsubscribe (st_sub st)) e); [|done].
      destruct e; by injection Hs as <- <-.
    + destruct (step (LUnsubClose (st_sub st)) (bus sv)) as [[σ' e]|] eqn:Hb;
        [|done].
      simpl in Hs. injection Hs as <- <-. left.
      by apply (Hbus (LUnsubClose (st_sub st)) e).
  - destruct (internal l) eqn:Hi; [|done].
    destruct (step l (bus sv)) as [[σ' e]|] eqn:Hb; [|done].
    simpl in Hs. injection Hs as <- <-. left.
    apply (Hbus l e); [done|]. intros key data ->. done.
Qed.

Lemma srv_run_origin ls lg sv evs q c :
  srv_run ls (NewServer NewSubPub lg) = Some (sv, evs) →
  pubs (bus sv) !! q = Some c → RPublish (p_subject c) (p_msg c) ∈ ls.
Proof.
  revert sv evs c.
  induction ls as [|l ls IH] using rev_ind; intros sv evs c Hrun Hq.
  - by injection Hrun as <- <-.
  - apply srv_run_snoc in Hrun as (sv1 & e1 & e2 & Hrun & Hs & ->).
    apply elem_of_app.
    destruct (srv_step_origin _ _ _ _ _ _ Hs Hq) as [(c0 & Hc0 & H1 & H2)|Hl].
    + left. rewrite H1, H2. by eapply IH.
    + right. rewrite Hl. apply list_elem_of_here.
Qed.

(** X23.  The handler of a stream sends what it is called with.  Whatever it has
    been called with is the data of a call of [Server.Publish] on the key of
    the stream, made while the stream was subscribed, and no call of
    [Publish] reaches a stream twice. *)
Theorem stream_gets_published_data ls lg sv evs k st x :
  srv_run ls (NewServer NewSubPub lg) = Some (sv, evs) →
  streams sv !! k = Some st → heap (bus sv) !! k = Some x →
  NoDup (calls x).*1 ∧
  ∀ q m, (q, m) ∈ calls x →
    RPublish (st_key st) m ∈ ls ∧
    ∃ c, pubs (bus sv) !! q = Some c ∧ p_subject c = st_key st ∧
         p_msg c = m ∧ k ∈ p_snapshot c.
Proof.
  intros Hrun Hk Hx. destruct (srv_run_ok _ _ _ _ Hrun) as [Hbus Hlen Hst].
  destruct (Hst k st Hk) as (_ & x0 & Hx0 & Hkey & _). simplify_eq.
  pose proof (reachable_sub_ok _ _ _ Hbus Hx) as Hsub.
  pose proof (reachable_pubs_ok _ Hbus) as Hpubs.
  split.
  { pose proof (sent_nodup _ Hpubs k (sent x)) as Hnd.
    rewrite Hx in Hnd. specialize (Hnd eq_refl).
    rewrite (ok_sent _ Hsub), fmap_app in Hnd.
    by apply NoDup_app in Hnd as [? _]. }
  intros q m Hin.
  assert ((q, m) ∈ sent x) as Hsent.
  { rewrite (ok_sent _ Hsub). apply elem_of_app. by left. }
  destruct (sent_from _ Hpubs k (sent x) q m) as (c & Hc & -> & Hsnap & _);
    [by rewrite Hx|done|].
  pose proof (pub_subj _ Hpubs q c k Hc Hsnap) as Hsubj.
  rewrite Hx in Hsubj. simpl in Hsubj. injection Hsubj as Hsubj.
  split.
  - rewrite <-Hkey, Hsubj. by eapply srv_run_origin.
  - exists c. split; [done|]. split; [congruence|done].
Qed.

Lemma stream_gets_published_data_witness :
  let sv0 := NewServer NewSubPub (MkLogger LevelInfo) in
  let sv := srv_state_after service_schedule sv0 in
  let evs := srv_returns_of service_schedule sv0 in
  let st := StreamCall "k" 0 true SReturned in
  let x := Subscription "k" [] true 0 OnceDone false WRecv None [(0, 5)]
             [(0, 5)] [] in
  srv_run service_schedule sv0 = Some (sv, evs) ∧
  streams sv !! 0 = Some st ∧ heap (bus sv) !! 0 = Some x ∧
  NoDup (calls x).*1 ∧
  ∀ q m, (q, m) ∈ calls x →
    RPublish (st_key st) m ∈ service_schedule ∧
    ∃ c, pubs (bus sv) !! q = Some c ∧ p_subject c = st_key st ∧
         p_msg c = m ∧ 0 ∈ p_snapshot c.
Proof.
  intros sv0 sv evs st x.
  assert (srv_run service_schedule sv0 = Some (sv, evs)) as Hrun
    by (vm_compute; reflexivity).
  assert (streams sv !! 0 = Some st) as Hk by (vm_compute; reflexivity).
  assert (heap (bus sv) !! 0 = Some x) as Hx by (vm_compute; reflexivity).
  split; [exact Hrun|]. split; [exact Hk|]. split; [exact Hx|].
  exact (stream_gets_published_data service_schedule _ sv evs 0 st x
           Hrun Hk Hx).
Defined.
